(** * Critical-path scheduling of the to-do application

    A shallow embedding of [src/lib/criticalPath.ts] (the scheduling engine)
    and, from [src/app/page.tsx], of [getAvailableDependencies] (the filter
    that offers dependency candidates in the editor) and of the level and
    path computations of [DependencyGraph] (the drawing of the tasks).

    Modelling conventions.
    - A JavaScript [Date] is its [getTime()] value: milliseconds since the
      epoch, an integer [Z].  [null] dates are [None]. Every date is a valid
      one: a due-date string that does not parse is outside the model.
    - The wall clock is read by [new Date()], several times in a run: once
      for every task with a due date, at every visit of a task without
      dependencies and once for the project end date. The definitions of
      the section [Engine] are the run all of whose readings return one
      instant [now] (a run that completes within a millisecond), up to the
      end of the [try] block. The module [Timed] is the run with every
      reading, [clock n] being what the [n]-th reading returns, and with
      the [catch] block; [standing_clock] relates the two.
    - In the engine local time is UTC shifted by a fixed offset [tz] (no
      daylight-saving jumps), so that [setDate(getDate() + n)] moves a date
      by [n] whole days of [msPerDay] milliseconds. The module [Zoned] has
      [calculateDuration] under a time zone whose offset changes.
    - The nested task objects in [dependencies] and [dependents] are only
      ever read through their [id] (and the length of the array), so both
      arrays are lists of ids.
    - [Map<number, _>] is a [gmap Z _], [Set<number>] used for membership is
      a [gset Z]; the [Set] whose iteration order is observed (the graph) is
      a duplicate-free list in insertion order.
    - A JavaScript number that holds a quotient (the slack, in days) is a
      rational [Q].
    - Recursive closures take a [fuel] argument that bounds the recursion
      depth; [None] means the recursion did not complete within it. In
      [Timed] a trace that does not complete is the [RangeError] that the
      [catch] block logs. *)

From Stdlib Require Import ZArith QArith Qround Qminmax Lia.
From stdpp Require Import gmap strings list fin_maps relations.

#[local] Set Warnings "-clear-no-such-hyp".

Local Open Scope Z_scope.

(** ** Data model *)

(** [interface TodoWithDependencies]; [dueDate] after [toDate]. *)
Record TodoWithDependencies := mkTodo {
  id : Z;
  title : string;
  dueDate : option Z;
  completed : bool;
  dependencies : list Z;
  dependents : list Z
}.

(** [interface TodoWithCriticalPath extends TodoWithDependencies]: the
    spread copy of the task together with the computed fields. *)
Record TodoWithCriticalPath := mkScheduled {
  todo : TodoWithDependencies;
  earliestStartDate : option Z;
  earliestFinishDate : option Z;
  latestStartDate : option Z;
  latestFinishDate : option Z;
  duration : Z;
  criticalPath : list Z;
  isCritical : bool;
  slack : Q
}.

(** ** Dates *)

(** [1000 * 60 * 60 * 24] *)
Definition msPerDay : Z := 1000 * 60 * 60 * 24.

(** [date.setHours(0, 0, 0, 0)]: midnight of the local day of [date], where
    local time is [date + tz]. *)
Definition setHours0 (tz date : Z) : Z := date - (date + tz) mod msPerDay.

(** [addDays]: [result.setDate(result.getDate() + days)]. *)
Definition addDays (date days : Z) : Z := date + days * msPerDay.

(** [Math.ceil(x / y)] on integers [x], [y]: the quotient is exact in [Q]. *)
Definition ceilDiv (x y : Z) : Z := Qceiling (inject_Z x / inject_Z y).

(** [calculateDuration]: [today] is the clock reading [now]. *)
Definition calculateDuration (now tz : Z) (dueDate : option Z) : Z :=
  match dueDate with
  | None => 1
  | Some dueDate =>
      let today := setHours0 tz now in
      let due := setHours0 tz dueDate in
      let diffTime := due - today in
      let diffDays := ceilDiv diffTime msPerDay in
      Z.max 1 diffDays
  end.

(** *** Local time under a time zone

    ECMAScript's [LocalTime(t)] is [t + LocalTZA(t, true)] and [UTC(t)] is
    [t - LocalTZA(t, false)]: a time zone gives the offset of local time
    from UTC at an instant, and the offset to take for a local time value.
    [date.setHours(0, 0, 0, 0)] is [UTC(MakeDate(Day(LocalTime(date)), 0))].
    The functions of [calculateDuration] under a time zone are in the
    module [Zoned]; with [fixedOffset tz] they are the ones above
    ([calculateDuration_fixedOffset]). *)
Record TimeZone : Type := mkZone {
  offsetAtInstant : Z → Z;
  offsetAtLocal : Z → Z
}.

Definition fixedOffset (tz : Z) : TimeZone := mkZone (λ _, tz) (λ _, tz).

Module Zoned.

Definition LocalTime (zone : TimeZone) (t : Z) : Z :=
  t + offsetAtInstant zone t.

Definition UTC (zone : TimeZone) (t : Z) : Z := t - offsetAtLocal zone t.

Definition Day (t : Z) : Z := t / msPerDay.

(** [date.setHours(0, 0, 0, 0)] *)
Definition setHours0 (zone : TimeZone) (date : Z) : Z :=
  UTC zone (Day (LocalTime zone date) * msPerDay).

(** [calculateDuration]: [today] is the clock reading [now]. *)
Definition calculateDuration (zone : TimeZone) (now : Z) (dueDate : option Z)
  : Z :=
  match dueDate with
  | None => 1
  | Some dueDate =>
      let today := setHours0 zone now in
      let due := setHours0 zone dueDate in
      let diffTime := due - today in
      let diffDays := ceilDiv diffTime msPerDay in
      Z.max 1 diffDays
  end.

End Zoned.

(** ** Field assignments on a scheduled task

    JavaScript assigns one field of the object at a time; each setter
    rebuilds the record with that field changed. *)

Definition set_earliestStartDate (d : Z) (t : TodoWithCriticalPath) :=
  mkScheduled (todo t) (Some d) (earliestFinishDate t) (latestStartDate t)
    (latestFinishDate t) (duration t) (criticalPath t) (isCritical t) (slack t).

Definition set_earliestFinishDate (d : Z) (t : TodoWithCriticalPath) :=
  mkScheduled (todo t) (earliestStartDate t) (Some d) (latestStartDate t)
    (latestFinishDate t) (duration t) (criticalPath t) (isCritical t) (slack t).

Definition set_latestStartDate (d : Z) (t : TodoWithCriticalPath) :=
  mkScheduled (todo t) (earliestStartDate t) (earliestFinishDate t) (Some d)
    (latestFinishDate t) (duration t) (criticalPath t) (isCritical t) (slack t).

Definition set_latestFinishDate (d : Z) (t : TodoWithCriticalPath) :=
  mkScheduled (todo t) (earliestStartDate t) (earliestFinishDate t)
    (latestStartDate t) (Some d) (duration t) (criticalPath t) (isCritical t)
    (slack t).

Definition set_slack (s : Q) (t : TodoWithCriticalPath) :=
  mkScheduled (todo t) (earliestStartDate t) (earliestFinishDate t)
    (latestStartDate t) (latestFinishDate t) (duration t) (criticalPath t)
    (isCritical t) s.

Definition set_critical (path : list Z) (t : TodoWithCriticalPath) :=
  mkScheduled (todo t) (earliestStartDate t) (earliestFinishDate t)
    (latestStartDate t) (latestFinishDate t) (duration t) path true (slack t).

(** ** Loops *)

(** [for (const x of l) body], and [l.forEach(body)], over a state [S];
    the body may fail to complete. *)
Fixpoint forOf {A S : Type} (body : A → S → option S) (l : list A) (s : S)
  : option S :=
  match l with
  | [] => Some s
  | x :: l => match body x s with Some s' => forOf body l s' | None => None end
  end.

(** [new Set(l)] read back with [Array.from]: insertion order, the first
    occurrence of an element wins. *)
Fixpoint newSet (l : list Z) : list Z :=
  match l with
  | [] => []
  | x :: l => x :: filter (λ y, y ≠ x) (newSet l)
  end.

(** ** The engine *)

Section Engine.

(** The instant every reading of the clock returns, and the offset of local
    time. *)
Variables now tz : Z.

(** The state the recursive passes thread: [todoMap] and the [visited] set
    of the current top-level call. *)
Definition PassState : Type := gmap Z TodoWithCriticalPath * gset Z.

(** The record [todoMap.set] stores for a task. *)
Definition initTodo (t : TodoWithDependencies) : TodoWithCriticalPath :=
  {| todo := t;
     earliestStartDate := None;
     earliestFinishDate := None;
     latestStartDate := None;
     latestFinishDate := None;
     duration := calculateDuration now tz (dueDate t);
     criticalPath := [];
     isCritical := false;
     slack := 0%Q |}.

(** "Initialize todos and build dependency graph": [todoMap] and [graph]. *)
Definition buildMaps (todos : list TodoWithDependencies)
  : gmap Z TodoWithCriticalPath * gmap Z (list Z) :=
  fold_left
    (λ '(todoMap, graph) t,
       (<[id t := initTodo t]> todoMap,
        <[id t := newSet (dependencies t)]> graph))
    todos (∅, ∅).

Definition startNodes (todos : list TodoWithDependencies) : list Z :=
  id <$> filter (λ t, dependencies t = []) todos.

Definition endNodes (todos : list TodoWithDependencies) : list Z :=
  id <$> filter (λ t, dependents t = []) todos.

(** *** Forward pass *)

(** One iteration of the loop over [dependencies]; [recur] is the recursive
    call. The loop state is [latestFinish] and the pass state. *)
Definition earliestIter (recur : Z → PassState → option PassState)
    (depId : Z) (s : Z * PassState) : option (Z * PassState) :=
  let '(latestFinish, st) := s in
  match st.1 !! depId with
  | None => Some s
  | Some dep =>
      st ← (match earliestFinishDate dep with
             | None => recur depId st
             | Some _ => Some st
             end);
      match st.1 !! depId ≫= earliestFinishDate with
      | Some f =>
          if bool_decide (latestFinish < f) then Some (f, st)
          else Some (latestFinish, st)
      | None => Some (latestFinish, st)
      end
  end.

Fixpoint calculateEarliestTimes (fuel : nat) (graph : gmap Z (list Z))
    (todoId : Z) (st : PassState) : option PassState :=
  match fuel with
  | O => None
  | S fuel =>
      let '(todoMap, visited) := st in
      if decide (todoId ∈ visited) then Some st
      else
        let visited := {[todoId]} ∪ visited in
        match todoMap !! todoId with
        | None => Some (todoMap, visited)
        | Some _ =>
            let dependencies := default [] (graph !! todoId) in
            match dependencies with
            | [] =>
                Some (alter (λ t, set_earliestFinishDate (addDays now (duration t))
                                    (set_earliestStartDate now t))
                        todoId todoMap, visited)
            | _ =>
                '(latestFinish, (todoMap, visited)) ←
                  forOf (earliestIter (calculateEarliestTimes fuel graph))
                    dependencies (0, (todoMap, visited));
                Some (alter (λ t, set_earliestFinishDate
                                    (addDays latestFinish (duration t))
                                    (set_earliestStartDate latestFinish t))
                        todoId todoMap, visited)
            end
        end
  end.

(** *** Backward pass *)

(** "Calculate slack" at the end of [calculateLatestTimes]. *)
Definition updateSlack (t : TodoWithCriticalPath) : TodoWithCriticalPath :=
  match earliestStartDate t, latestStartDate t with
  | Some es, Some ls =>
      let slackMs := ls - es in
      set_slack (Qmax 0 (inject_Z slackMs / inject_Z msPerDay)) t
  | _, _ => t
  end.

(** [todos.filter(t => t.dependencies.some(d => d.id === todoId)).map(t => t.id)] *)
Definition dependentsOf (todos : list TodoWithDependencies) (todoId : Z)
  : list Z :=
  id <$> filter (λ t, todoId ∈ dependencies t) todos.

Definition latestIter (recur : Z → PassState → option PassState)
    (depId : Z) (s : Z * PassState) : option (Z * PassState) :=
  let '(earliestDependentStart, st) := s in
  match st.1 !! depId with
  | None => Some s
  | Some dep =>
      st ← (match latestStartDate dep with
             | None => recur depId st
             | Some _ => Some st
             end);
      match st.1 !! depId ≫= latestStartDate with
      | Some f =>
          if bool_decide (f < earliestDependentStart) then Some (f, st)
          else Some (earliestDependentStart, st)
      | None => Some (earliestDependentStart, st)
      end
  end.

Fixpoint calculateLatestTimes (fuel : nat) (todos : list TodoWithDependencies)
    (todoId : Z) (projectEndDate : Z) (st : PassState) : option PassState :=
  match fuel with
  | O => None
  | S fuel =>
      let '(todoMap, visited) := st in
      if decide (todoId ∈ visited) then Some st
      else
        let visited := {[todoId]} ∪ visited in
        match todoMap !! todoId with
        | None => Some (todoMap, visited)
        | Some _ =>
            let dependents := dependentsOf todos todoId in
            match dependents with
            | [] =>
                Some (alter (λ t,
                         let latestFinish :=
                           default projectEndDate (dueDate (todo t)) in
                         updateSlack
                           (set_latestStartDate
                              (addDays latestFinish (- duration t))
                              (set_latestFinishDate latestFinish t)))
                        todoId todoMap, visited)
            | _ =>
                '(earliestDependentStart, (todoMap, visited)) ←
                  forOf (latestIter
                           (λ depId, calculateLatestTimes fuel todos depId
                                       projectEndDate))
                    dependents (projectEndDate, (todoMap, visited));
                Some (alter (λ t,
                         updateSlack
                           (set_latestStartDate
                              (addDays earliestDependentStart (- duration t))
                              (set_latestFinishDate earliestDependentStart t)))
                        todoId todoMap, visited)
            end
        end
  end.

(** *** Critical path *)

(** [node && node.slack === 0] *)
Definition zeroSlack (todoMap : gmap Z TodoWithCriticalPath) (nodeId : Z)
  : bool :=
  match todoMap !! nodeId with
  | Some node => Qeq_bool (slack node) 0
  | None => false
  end.

(** [tracePath]; [path] is the array the closure prepends to. *)
Fixpoint tracePath (fuel : nat) (todoMap : gmap Z TodoWithCriticalPath)
    (nodeId : Z) (path : list Z) : option (list Z) :=
  match fuel with
  | O => None
  | S fuel =>
      match todoMap !! nodeId with
      | None => Some path
      | Some node =>
          let path := nodeId :: path in
          match List.find (zeroSlack todoMap) (dependencies (todo node)) with
          | Some criticalDep => tracePath fuel todoMap criticalDep path
          | None => Some path
          end
      end
  end.

Definition findCriticalPath (fuel : nat) (todos : list TodoWithDependencies)
    (todoMap : gmap Z TodoWithCriticalPath) : option (list Z) :=
  let criticalEndNodes := List.filter (zeroSlack todoMap) (endNodes todos) in
  match criticalEndNodes with
  | [] => Some []
  | first :: _ => tracePath fuel todoMap first []
  end.

(** "Mark all tasks on the critical path". *)
Definition markCritical (criticalPath : list Z)
    (todoMap : gmap Z TodoWithCriticalPath) : gmap Z TodoWithCriticalPath :=
  fold_left (λ todoMap nodeId, alter (set_critical criticalPath) nodeId todoMap)
    criticalPath todoMap.

(** *** The run *)

(** [todos.forEach(todo => calculateEarliestTimes(todo.id))]: every call
    starts with a fresh [visited] set. *)
Definition forwardPass (fuel : nat) (todos : list TodoWithDependencies)
    (graph : gmap Z (list Z)) (todoMap : gmap Z TodoWithCriticalPath)
  : option (gmap Z TodoWithCriticalPath) :=
  forOf (λ t todoMap,
           fst <$> calculateEarliestTimes fuel graph (id t) (todoMap, ∅))
    todos todoMap.

(** "Find project end date (latest earliest finish)". *)
Definition projectEndDate (todos : list TodoWithDependencies)
    (todoMap : gmap Z TodoWithCriticalPath) : Z :=
  fold_left
    (λ projectEndDate t,
       match todoMap !! id t ≫= earliestFinishDate with
       | Some f => if bool_decide (projectEndDate < f) then f else projectEndDate
       | None => projectEndDate
       end)
    todos now.

Definition backwardPass (fuel : nat) (todos : list TodoWithDependencies)
    (projectEndDate : Z) (todoMap : gmap Z TodoWithCriticalPath)
  : option (gmap Z TodoWithCriticalPath) :=
  forOf (λ t todoMap,
           fst <$> calculateLatestTimes fuel todos (id t) projectEndDate
                     (todoMap, ∅))
    todos todoMap.

(** The two passes: [todoMap] as it is when [findCriticalPath] is called. *)
Definition schedule (fuel : nat) (todos : list TodoWithDependencies)
  : option (gmap Z TodoWithCriticalPath) :=
  let '(todoMap, graph) := buildMaps todos in
  todoMap ← forwardPass fuel todos graph todoMap;
  backwardPass fuel todos (projectEndDate todos todoMap) todoMap.

(** [calculateCriticalPath]: the body of the [try] block and the returned
    [todoMap]. [None] is a run whose [try] block does not complete: the
    JavaScript engine ends a recursion that is too deep with a
    [RangeError], which the [catch] block logs before the map is returned
    as it is then; [Timed.run] below has that return as well. *)
Definition calculateCriticalPath (fuel : nat)
    (todos : list TodoWithDependencies)
  : option (gmap Z TodoWithCriticalPath) :=
  todoMap ← schedule fuel todos;
  criticalPath ← findCriticalPath fuel todos todoMap;
  Some (markCritical criticalPath todoMap).

End Engine.

(** ** The engine with every reading of the clock

    The definitions above take every [new Date()] of a run to return the
    same instant, and they stop where the [try] block stops. The source
    reads the clock once for every task with a due date (in
    [calculateDuration]), at every visit of a task without dependencies
    (in [calculateEarliestTimes]) and once for the project end date, and
    its [catch] block returns the map as the [try] block left it. The
    module [Timed] models the run with both: [clock n] is what the [n]-th
    reading of the clock in a run returns, counted from 0, and the state of
    the run carries the number of readings taken so far. The backward pass,
    the trace and the marking read no clock and are the functions above.
    [standing_clock] shows that the two models agree when the clock does
    not advance during the run. *)

Module Timed.

Section Timed.

Variable clock : nat → Z.
Variable tz : Z.

(** The state of the forward pass: [todoMap], the [visited] set of the
    current top-level call, and the number of readings of the clock. *)
Definition TimedState : Type :=
  gmap Z TodoWithCriticalPath * gset Z * nat.

(** "Initialize todos and build dependency graph": [calculateDuration]
    reads the clock when the task has a due date. *)
Definition buildMaps (todos : list TodoWithDependencies)
  : gmap Z TodoWithCriticalPath * gmap Z (list Z) * nat :=
  fold_left
    (λ '(todoMap, graph, reads) t,
       (<[id t := initTodo (clock reads) tz t]> todoMap,
        <[id t := newSet (dependencies t)]> graph,
        match dueDate t with Some _ => S reads | None => reads end))
    todos (∅, ∅, 0%nat).

(** One iteration of the loop over [dependencies]. *)
Definition earliestIter (recur : Z → TimedState → option TimedState)
    (depId : Z) (s : Z * TimedState) : option (Z * TimedState) :=
  let '(latestFinish, st) := s in
  match st.1.1 !! depId with
  | None => Some s
  | Some dep =>
      st ← (match earliestFinishDate dep with
             | None => recur depId st
             | Some _ => Some st
             end);
      match st.1.1 !! depId ≫= earliestFinishDate with
      | Some f =>
          if bool_decide (latestFinish < f) then Some (f, st)
          else Some (latestFinish, st)
      | None => Some (latestFinish, st)
      end
  end.

(** [calculateEarliestTimes]: a task without dependencies starts at
    [new Date()], the next reading of the clock. *)
Fixpoint calculateEarliestTimes (fuel : nat) (graph : gmap Z (list Z))
    (todoId : Z) (st : TimedState) : option TimedState :=
  match fuel with
  | O => None
  | S fuel =>
      let '(todoMap, visited, reads) := st in
      if decide (todoId ∈ visited) then Some st
      else
        let visited := {[todoId]} ∪ visited in
        match todoMap !! todoId with
        | None => Some (todoMap, visited, reads)
        | Some _ =>
            let dependencies := default [] (graph !! todoId) in
            match dependencies with
            | [] =>
                let now := clock reads in
                Some (alter (λ t, set_earliestFinishDate
                                    (addDays now (duration t))
                                    (set_earliestStartDate now t))
                        todoId todoMap, visited, S reads)
            | _ =>
                '(latestFinish, (todoMap, visited, reads)) ←
                  forOf (earliestIter (calculateEarliestTimes fuel graph))
                    dependencies (0, (todoMap, visited, reads));
                Some (alter (λ t, set_earliestFinishDate
                                    (addDays latestFinish (duration t))
                                    (set_earliestStartDate latestFinish t))
                        todoId todoMap, visited, reads)
            end
        end
  end.

(** [todos.forEach(todo => calculateEarliestTimes(todo.id))] *)
Definition forwardPass (fuel : nat) (todos : list TodoWithDependencies)
    (graph : gmap Z (list Z)) (s : gmap Z TodoWithCriticalPath * nat)
  : option (gmap Z TodoWithCriticalPath * nat) :=
  forOf (λ t s,
           st ← calculateEarliestTimes fuel graph (id t) (s.1, ∅, s.2);
           Some (st.1.1, st.2))
    todos s.

(** The two passes. [let projectEndDate = new Date()] is one more reading
    of the clock. *)
Definition schedule (fuel : nat) (todos : list TodoWithDependencies)
  : option (gmap Z TodoWithCriticalPath * nat) :=
  let '(todoMap, graph, reads) := buildMaps todos in
  '(todoMap, reads) ← forwardPass fuel todos graph (todoMap, reads);
  todoMap ← backwardPass fuel todos (projectEndDate (clock reads) todos todoMap)
              todoMap;
  Some (todoMap, S reads).

(** [calculateCriticalPath], with the number of readings the run took. When
    the trace does not complete, the [RangeError] that ends it is caught:
    the trace has changed its local array [path] only, and the [todoMap]
    returned is the one the passes left. The passes recurse at most as deep
    as the list is long ([schedule_returns]); [None] is a run whose stack
    has no room for that, which is outside the model. *)
Definition run (fuel : nat) (todos : list TodoWithDependencies)
  : option (gmap Z TodoWithCriticalPath * nat) :=
  '(todoMap, reads) ← schedule fuel todos;
  match findCriticalPath fuel todos todoMap with
  | Some criticalPath => Some (markCritical criticalPath todoMap, reads)
  | None => Some (todoMap, reads)
  end.

Definition calculateCriticalPath (fuel : nat)
    (todos : list TodoWithDependencies)
  : option (gmap Z TodoWithCriticalPath) :=
  fst <$> run fuel todos.

End Timed.

End Timed.

(** A clock that advances by a millisecond from one reading to the next. *)
Definition ticking (start : Z) (n : nat) : Z := start + Z.of_nat n.

(** A clock that does not advance. *)
Definition standing (now : Z) (n : nat) : Z := now.

(** ** The shape shared by the two passes

    [calculateEarliestTimes] and [calculateLatestTimes] are the same
    depth-first traversal: they differ in the neighbours they loop over,
    the field they read from a neighbour, the comparison that updates the
    accumulator and the assignments they make. [traverse] abstracts these;
    [calculateEarliestTimes_traverse] and [calculateLatestTimes_traverse]
    show that both passes are instances, so that each fact about the
    traversal is proved once. *)

Section Traverse.

Variable neighbours : Z → list Z.
Variable field : TodoWithCriticalPath → option Z.
Variable better : Z → Z → bool.
Variable start : Z.
Variable leaf : TodoWithCriticalPath → TodoWithCriticalPath.
Variable finish : Z → TodoWithCriticalPath → TodoWithCriticalPath.

Definition visitIter (recur : Z → PassState → option PassState)
    (n : Z) (s : Z * PassState) : option (Z * PassState) :=
  let '(acc, st) := s in
  match st.1 !! n with
  | None => Some s
  | Some d =>
      st ← (match field d with
             | None => recur n st
             | Some _ => Some st
             end);
      match st.1 !! n ≫= field with
      | Some f => if better acc f then Some (f, st) else Some (acc, st)
      | None => Some (acc, st)
      end
  end.

Fixpoint traverse (fuel : nat) (k : Z) (st : PassState) : option PassState :=
  match fuel with
  | O => None
  | S fuel =>
      let '(m, vis) := st in
      if decide (k ∈ vis) then Some st
      else
        let vis := {[k]} ∪ vis in
        match m !! k with
        | None => Some (m, vis)
        | Some _ =>
            match neighbours k with
            | [] => Some (alter leaf k m, vis)
            | ns =>
                '(acc, (m, vis)) ← forOf (visitIter (traverse fuel)) ns
                                     (start, (m, vis));
                Some (alter (finish acc) k m, vis)
            end
        end
  end.

(** A pass over the task list: [todos.forEach(t => visit(t.id))], with a
    fresh visited set per call. *)
Definition passOver (fuel : nat) (todos : list TodoWithDependencies)
    (m : gmap Z TodoWithCriticalPath) : option (gmap Z TodoWithCriticalPath) :=
  forOf (λ t m, fst <$> traverse fuel (id t) (m, ∅)) todos m.

(** The accumulator after reading neighbour [n] in map [m]. *)
Definition pickOf (m : gmap Z TodoWithCriticalPath) (n : Z) (acc : Z) : Z :=
  match m !! n ≫= field with
  | Some f => if better acc f then f else acc
  | None => acc
  end.

(** The accumulator the loop over [ns] computes when no recursive call
    changes what it reads. *)
Definition accOf (m : gmap Z TodoWithCriticalPath) (ns : list Z) (acc : Z)
  : Z :=
  fold_left (λ acc n, pickOf m n acc) ns acc.

(** What a visit of [k] in map [m] assigns to the record [t] of [k]. *)
Definition visitOf (m : gmap Z TodoWithCriticalPath) (k : Z)
    (t : TodoWithCriticalPath) : TodoWithCriticalPath :=
  match neighbours k with
  | [] => leaf t
  | ns => finish (accOf m ns start) t
  end.

(** A map is stable when every record whose field is set has neighbours
    whose fields are set, and a new visit would assign what it holds. *)
Definition Stable (m : gmap Z TodoWithCriticalPath) : Prop :=
  ∀ k t, m !! k = Some t → is_Some (field t) →
    (∀ n d, n ∈ neighbours k → m !! n = Some d → is_Some (field d)) ∧
    visitOf m k t = t.

(** One step along the traversal: [n] is a neighbour of [k]. *)
Definition edge (k n : Z) : Prop := n ∈ neighbours k.

End Traverse.

(** ** Dependency relation of a task list *)

(** [a] depends on [b]: a supplied task with id [a] lists [b]. *)
Definition depends (todos : list TodoWithDependencies) (a b : Z) : Prop :=
  ∃ t, t ∈ todos ∧ id t = a ∧ b ∈ dependencies t.

(** No task reaches itself through one or more dependency edges. *)
Definition Acyclic (todos : list TodoWithDependencies) : Prop :=
  ∀ a, ¬ tc (depends todos) a a.

(** The dependents lists are the inverse of the dependency lists. *)
Definition Consistent (todos : list TodoWithDependencies) : Prop :=
  ∀ a b, a ∈ todos → b ∈ todos →
    (id b ∈ dependencies a ↔ id a ∈ dependents b).

(** ** The candidate filter of the editor ([src/app/page.tsx])

    The page's [Todo] has the fields of [TodoWithDependencies] and two more
    ([createdAt], [imageUrl]) that the filter never reads. *)

(** [l.some(f)] for a callback that may not complete: stops at the first
    element for which [f] is true. *)
Fixpoint someM {A : Type} (f : A → option bool) (l : list A) : option bool :=
  match l with
  | [] => Some false
  | x :: l =>
      match f x with
      | Some true => Some true
      | Some false => someM f l
      | None => None
      end
  end.

(** [l.filter(f)] for a callback that may not complete. *)
Fixpoint filterM {A : Type} (f : A → option bool) (l : list A)
  : option (list A) :=
  match l with
  | [] => Some []
  | x :: l =>
      keep ← f x;
      rest ← filterM f l;
      Some (if keep : bool then x :: rest else rest)
  end.

(** The inner closure [wouldCreateCycle(todoId, targetId)]. *)
Fixpoint wouldCreateCycle (fuel : nat) (todos : list TodoWithDependencies)
    (todoId targetId : Z) : option bool :=
  match fuel with
  | O => None
  | S fuel =>
      match List.find (λ t, bool_decide (id t = todoId)) todos with
      | None => Some false
      | Some t =>
          if bool_decide (targetId ∈ dependencies t) then Some true
          else someM (λ d, wouldCreateCycle fuel todos d targetId)
                 (dependencies t)
      end
  end.

(** [getAvailableDependencies(excludeId?)]: [None] is the omitted argument;
    a number is truthy when it is not [0]. *)
Definition getAvailableDependencies (fuel : nat)
    (todos : list TodoWithDependencies) (excludeId : option Z)
  : option (list TodoWithDependencies) :=
  filterM
    (λ t,
       match excludeId with
       | None => Some true
       | Some x =>
           if bool_decide (x ≠ 0) && bool_decide (id t = x) then Some false
           else if bool_decide (x ≠ 0) then
             cycle ← wouldCreateCycle fuel todos x (id t);
             if cycle : bool then Some true else Some true
           else Some true
       end)
    todos.

(** ** The dependency graph of the page ([DependencyGraph],
    [src/app/page.tsx]) *)

Definition nodeHeight : Z := 60.
Definition levelHeight : Z := 120.
Definition padding : Z := 40.

(** The state [calculateLevel] works on: the [levels] map of the component
    and the [visited] set of the current top-level call. *)
Definition LevelState : Type := gmap Z Z * gset Z.

(** [l.map(d => recur(d.id, visited))]: the calls are made in the order of
    the list, each on the state the previous one left. *)
Fixpoint mapLevels (recur : Z → LevelState → option (Z * LevelState))
    (l : list Z) (st : LevelState) : option (list Z * LevelState) :=
  match l with
  | [] => Some ([], st)
  | d :: l =>
      '(r, st) ← recur d st;
      '(rs, st) ← mapLevels recur l st;
      Some (r :: rs, st)
  end.

(** [calculateLevel(todoId, visited)]: the returned level and the state.
    [Math.max] is applied to the levels of the dependencies [d :: ds], a
    list of the same length, so that the default of [hd] is never taken. *)
Fixpoint calculateLevel (fuel : nat) (todos : list TodoWithDependencies)
    (todoId : Z) (st : LevelState) : option (Z * LevelState) :=
  match fuel with
  | O => None
  | S fuel =>
      if decide (todoId ∈ st.2) then Some (0, st)
      else
        let visited := {[todoId]} ∪ st.2 in
        match List.find (λ t, bool_decide (id t = todoId)) todos with
        | None => Some (0, (st.1, visited))
        | Some t =>
            match dependencies t with
            | [] => Some (0, (<[todoId := 0]> st.1, visited))
            | d :: ds =>
                '(ls, st') ← mapLevels (calculateLevel fuel todos) (d :: ds)
                               (st.1, visited);
                let maxDepLevel := fold_left Z.max (tail ls) (hd 0 ls) in
                let level := maxDepLevel + 1 in
                Some (level, (<[todoId := level]> st'.1, st'.2))
            end
        end
  end.

(** [todos.forEach(todo => calculateLevel(todo.id))]: every call starts
    with a fresh [visited] set; the result is the [levels] map. *)
Definition levelsOf (fuel : nat) (todos : list TodoWithDependencies)
  : option (gmap Z Z) :=
  forOf (λ t levels,
           '(_, st) ← calculateLevel fuel todos (id t) (levels, ∅);
           Some st.1)
    todos ∅.

(** [svgHeight]: [Math.max(...levels.values())] of an empty map is
    [-Infinity], which leaves the height at its minimum. *)
Definition svgHeight (levels : gmap Z Z) : Z :=
  match (map_to_list levels).*2 with
  | [] => 400
  | l :: ls =>
      let maxLevel := fold_left Z.max ls l in
      Z.max 400 ((maxLevel + 1) * levelHeight + padding * 2)
  end.

(** The [y] coordinate [positions] holds for a task: that of its level. *)
Definition positionY (levels : gmap Z Z) (todoId : Z) : option Z :=
  level ← levels !! todoId;
  Some (level * levelHeight + padding).





(** ** The due date the store keeps ([src/app/api/todos/route.ts])

    The routes store [new Date(`${dueDate}T23:59:59.999Z`)], where [dueDate]
    is the calendar day of the date input: the last millisecond, in UTC, of
    day number [day] counted from 1970-01-01. *)
Definition storedDueDate (day : Z) : Z := day * msPerDay + 86399999.

(** * Vocabulary of the proofs *)

(** ** The two passes as instances of the traversal *)

(** The neighbours of the forward pass: [Array.from(graph.get(k) || [])]. *)
Definition forwardNeighbours (graph : gmap Z (list Z)) (k : Z) : list Z :=
  default [] (graph !! k).

(** [dep.earliestFinishDate > latestFinish] *)
Definition laterThan (acc f : Z) : bool := bool_decide (acc < f).

(** [dep.latestStartDate < earliestDependentStart] *)
Definition earlierThan (acc f : Z) : bool := bool_decide (f < acc).

(** The two assignments of the forward pass, from the start [s]. *)
Definition earliestAssign (s : Z) (t : TodoWithCriticalPath)
  : TodoWithCriticalPath :=
  set_earliestFinishDate (addDays s (duration t)) (set_earliestStartDate s t).

(** The assignments of the backward pass, from the finish [f], and the
    slack computation that follows them. *)
Definition latestAssign (f : Z) (t : TodoWithCriticalPath)
  : TodoWithCriticalPath :=
  updateSlack
    (set_latestStartDate (addDays f (- duration t)) (set_latestFinishDate f t)).

(** The branch of the backward pass for a task without dependents:
    [todo.dueDate || projectEndDate]. *)
Definition latestLeaf (projectEnd : Z) (t : TodoWithCriticalPath)
  : TodoWithCriticalPath :=
  latestAssign (default projectEnd (dueDate (todo t))) t.

(** ** Invariants of the records *)

(** The fields no pass assigns. *)
Definition sameTask (e0 e : TodoWithCriticalPath) : Prop :=
  todo e = todo e0 ∧ duration e = duration e0 ∧
  criticalPath e = criticalPath e0 ∧ isCritical e = isCritical e0.

(** The forward pass leaves the other schedule fields alone. *)
Definition sameEarliest (e0 e : TodoWithCriticalPath) : Prop :=
  earliestStartDate e = earliestStartDate e0 ∧
  earliestFinishDate e = earliestFinishDate e0.

Definition earliestOk (e : TodoWithCriticalPath) : Prop :=
  match earliestStartDate e, earliestFinishDate e with
  | Some s, Some f => f = s + duration e * msPerDay
  | None, None => True
  | _, _ => False
  end.

Definition latestOk (e : TodoWithCriticalPath) : Prop :=
  match latestFinishDate e, latestStartDate e with
  | Some f, Some s => s = f - duration e * msPerDay
  | None, None => True
  | _, _ => False
  end.

Definition slackOk (e : TodoWithCriticalPath) : Prop :=
  match earliestStartDate e, latestStartDate e with
  | Some es, Some ls =>
      slack e = Qmax 0 (inject_Z (ls - es) / inject_Z msPerDay)
  | _, _ => slack e = 0%Q
  end.

(** What holds of a record during the forward pass. *)
Definition forwardOk (e : TodoWithCriticalPath) : Prop :=
  latestStartDate e = None ∧ latestFinishDate e = None ∧ slack e = 0%Q ∧
  earliestOk e.

(** What holds of a record from the backward pass on. *)
Definition scheduleOk (e : TodoWithCriticalPath) : Prop :=
  earliestOk e ∧ latestOk e ∧ slackOk e.

(** The record of a key stems from a supplied task with that id, the one
    whose dependencies the graph holds for the key. *)
Definition entryOf (now tz : Z) (todos : list TodoWithDependencies) (k : Z)
    (e : TodoWithCriticalPath) : Prop :=
  todo e ∈ todos ∧ id (todo e) = k ∧
  duration e = calculateDuration now tz (dueDate (todo e)) ∧
  (buildMaps now tz todos).2 !! k = Some (newSet (dependencies (todo e))).

(** A property of the fields no pass assigns. *)
Definition passive (P : Z → TodoWithCriticalPath → Prop) : Prop :=
  ∀ k e0 e, sameTask e0 e → P k e0 → P k e.

(** All four dates of a record are set. *)
Definition allSet (e : TodoWithCriticalPath) : Prop :=
  is_Some (earliestStartDate e) ∧ is_Some (earliestFinishDate e) ∧
  is_Some (latestStartDate e) ∧ is_Some (latestFinishDate e).

(** ** The path of the trace *)

(** [traced m n q]: [q] is the path [tracePath] builds from node [n], in
    the order of the array (the node [n] last). *)
Inductive traced (m : gmap Z TodoWithCriticalPath) : Z → list Z → Prop :=
  | traced_stop n e :
      m !! n = Some e →
      List.find (zeroSlack m) (dependencies (todo e)) = None →
      traced m n [n]
  | traced_step n e c q :
      m !! n = Some e →
      List.find (zeroSlack m) (dependencies (todo e)) = Some c →
      traced m c q →
      traced m n (q ++ [n]).

(** ** Further vocabulary *)


(** Every dependency of every supplied task is the id of a supplied task. *)
Definition Supplied (todos : list TodoWithDependencies) : Prop :=
  ∀ t d, t ∈ todos → d ∈ dependencies t → ∃ t', t' ∈ todos ∧ id t' = d.


(** The edges the test follows: [todos.find] takes the first task with the
    id, and the test reads the dependencies of that task. *)
Definition firstDepends (todos : list TodoWithDependencies) (a b : Z) : Prop :=
  ∃ t, List.find (λ t, bool_decide (id t = a)) todos = Some t ∧
       b ∈ dependencies t.

(** What a record of [levels] says about its task: the level is 0 for a
    task without dependencies and at least 1 otherwise, and no larger than
    the number of ids. *)
Definition levelOk (todos : list TodoWithDependencies) (k lv : Z) : Prop :=
  ∃ t, List.find (λ t, bool_decide (id t = k)) todos = Some t ∧
       (dependencies t = [] → lv = 0) ∧
       (dependencies t ≠ [] → 1 ≤ lv) ∧
       lv ≤ Z.of_nat (size (list_to_set (id <$> todos) : gset Z)).

(** What a call of [calculateLevel] does to the state: [visited] and the
    keys of [levels] grow, the returned level is bounded by the number of
    ids not yet visited, and the records of [levels] stay as [levelOk]
    says. *)
Definition callOk (todos : list TodoWithDependencies) (k : Z)
    (st : LevelState) (r : Z) (st' : LevelState) : Prop :=
  st.2 ⊆ st'.2 ∧ dom st.1 ⊆ dom st'.1 ∧
  0 ≤ r ≤ Z.of_nat (size ((list_to_set (id <$> todos) : gset Z) ∖ st.2)) ∧
  (map_Forall (levelOk todos) st.1 → map_Forall (levelOk todos) st'.1).

(** ** The forward pass under a clock *)

(** What the forward pass may do to the record of key [j] while it takes
    the readings [n], ..., [n' - 1]: nothing, or assign the earliest dates
    from a start [s], which is one of these readings when the key has no
    dependencies. *)
Definition stamped (clock : nat → Z) (graph : gmap Z (list Z)) (n n' : nat)
    (j : Z) (e e' : TodoWithCriticalPath) : Prop :=
  e' = e ∨
  ∃ s, e' = earliestAssign s e ∧
       (forwardNeighbours graph j = [] →
        ∃ i, (n ≤ i < n')%nat ∧ s = clock i).

Definition evolves (clock : nat → Z) (graph : gmap Z (list Z)) (n n' : nat)
    (m m' : gmap Z TodoWithCriticalPath) : Prop :=
  ∀ j, option_Forall2 (stamped clock graph n n' j) (m !! j) (m' !! j).

(** The loop state and the pass state without the number of readings. *)
Definition untimed (st : Timed.TimedState) : PassState := (st.1.1, st.1.2).

Definition untimedLoop (s : Z * Timed.TimedState) : Z * PassState :=
  (s.1, untimed s.2).

(** * Example data *)

(** ** Candidates of the editor *)

(** A task [x] and two tasks that depend on it: [w] directly, [y] through
    [w]. *)
Definition taskX : TodoWithDependencies := mkTodo 1 "X" None false [] [3].
Definition taskY : TodoWithDependencies := mkTodo 2 "Y" None false [3] [].
Definition taskW : TodoWithDependencies := mkTodo 3 "W" None false [1] [2].

(** ** A chain of three tasks

    The reference time is 2023-11-14 22:13:20 UTC, local time is UTC. Task
    A is due in three days and task B in five (the store keeps a due date
    as the last millisecond of its day), B depends on A, and C, without a
    due date, depends on B. *)

Definition now0 : Z := 1700000000000.
Definition midnight0 : Z := 1699920000000.

Definition taskA : TodoWithDependencies :=
  mkTodo 1 "A" (Some (midnight0 + 3 * msPerDay + 86399999)) false [] [2].
Definition taskB : TodoWithDependencies :=
  mkTodo 2 "B" (Some (midnight0 + 5 * msPerDay + 86399999)) false [1] [3].
Definition taskC : TodoWithDependencies :=
  mkTodo 3 "C" None false [2] [].
Definition chain : list TodoWithDependencies := [taskA; taskB; taskC].

Definition chainA : TodoWithCriticalPath :=
  mkScheduled taskA (Some 1700000000000) (Some 1700259200000)
    (Some 1700000000000) (Some 1700259200000) 3 [1; 2; 3] true 0%Q.
Definition chainB : TodoWithCriticalPath :=
  mkScheduled taskB (Some 1700259200000) (Some 1700691200000)
    (Some 1700259200000) (Some 1700691200000) 5 [1; 2; 3] true 0%Q.
Definition chainC : TodoWithCriticalPath :=
  mkScheduled taskC (Some 1700691200000) (Some 1700777600000)
    (Some 1700691200000) (Some 1700777600000) 1 [1; 2; 3] true 0%Q.
Definition chainMap : gmap Z TodoWithCriticalPath :=
  <[1 := chainA]> (<[2 := chainB]> (<[3 := chainC]> ∅)).

(** ** A single task due tomorrow

    No dependencies, no dependents, due at the end of the next day: the
    latest start is later than the reference time, the slack is positive
    and the task is not critical. *)



(** ** A cycle

    A and B depend on each other; A also depends on the source S, and the
    sink C depends on A. *)

Definition cycA : TodoWithDependencies := mkTodo 1 "A" None false [2; 4] [2; 3].
Definition cycB : TodoWithDependencies := mkTodo 2 "B" None false [1] [1].
Definition cycC : TodoWithDependencies := mkTodo 3 "C" None false [1] [].
Definition cycS : TodoWithDependencies := mkTodo 4 "S" None false [] [1].
Definition cyclic : list TodoWithDependencies := [cycA; cycB; cycC; cycS].

Definition cyclicA : TodoWithCriticalPath :=
  mkScheduled cycA (Some 1700086400000) (Some 1700172800000)
    (Some 1700086400000) (Some 1700172800000) 1 [] false 0%Q.
Definition cyclicB : TodoWithCriticalPath :=
  mkScheduled cycB (Some 1700172800000) (Some 1700259200000)
    (Some 1700000000000) (Some 1700086400000) 1 [] false 0%Q.
Definition cyclicC : TodoWithCriticalPath :=
  mkScheduled cycC (Some 1700172800000) (Some 1700259200000)
    (Some 1700172800000) (Some 1700259200000) 1 [] false 0%Q.
Definition cyclicS : TodoWithCriticalPath :=
  mkScheduled cycS (Some 1700000000000) (Some 1700086400000)
    (Some 1700000000000) (Some 1700086400000) 1 [] false 0%Q.
Definition cyclicMap : gmap Z TodoWithCriticalPath :=
  <[1 := cyclicA]> (<[2 := cyclicB]> (<[3 := cyclicC]> (<[4 := cyclicS]> ∅))).

(** ** A task whose dependency is not supplied

    Task O lists the id 9, which no supplied task has: it is scheduled
    from the epoch and finishes a day after it. *)



(** ** Two tasks without due dates

    B depends on A; both take a day and both are critical. *)

Definition plainA : TodoWithDependencies := mkTodo 1 "A" None false [] [2].
Definition plainB : TodoWithDependencies := mkTodo 2 "B" None false [1] [].


(** ** The levels of the chain *)

Definition chainLevels : gmap Z Z := <[1 := 0]> (<[2 := 1]> (<[3 := 2]> ∅)).

(** ** The two tasks, the dependent first

    The list of the two tasks without due dates in the order of
    [GET /api/todos], which returns the task created last first: B, which
    depends on A, precedes A. The records are those of a run whose readings
    of the clock are a millisecond apart: A is stamped at the first reading
    when B asks for it, B starts at the finish A has then, and the call for
    A itself stamps A again at the second reading. *)

Definition dependentFirst : list TodoWithDependencies := [plainB; plainA].

Definition restampedA : TodoWithCriticalPath :=
  mkScheduled plainA (Some 1700000000001) (Some 1700086400001)
    (Some 1700000000000) (Some 1700086400000) 1 [1; 2] true 0%Q.
Definition restampedB : TodoWithCriticalPath :=
  mkScheduled plainB (Some 1700086400000) (Some 1700172800000)
    (Some 1700086400000) (Some 1700172800000) 1 [1; 2] true 0%Q.
Definition restampedMap : gmap Z TodoWithCriticalPath :=
  <[1 := restampedA]> (<[2 := restampedB]> ∅).

(** ** Two independent tasks

    Neither has a due date, a dependency or a dependent. *)

Definition soloA : TodoWithDependencies := mkTodo 1 "A" None false [] [].
Definition soloB : TodoWithDependencies := mkTodo 2 "B" None false [] [].
Definition sources : list TodoWithDependencies := [soloA; soloB].

(** The records of a run whose readings are a millisecond apart. *)
Definition tickedA : TodoWithCriticalPath :=
  mkScheduled soloA (Some 1700000000000) (Some 1700086400000)
    (Some 1700000000001) (Some 1700086400001) 1 [] false
    (1 # 86400000)%Q.
Definition tickedB : TodoWithCriticalPath :=
  mkScheduled soloB (Some 1700000000001) (Some 1700086400001)
    (Some 1700000000001) (Some 1700086400001) 1 [2] true 0%Q.
Definition tickedMap : gmap Z TodoWithCriticalPath :=
  <[1 := tickedA]> (<[2 := tickedB]> ∅).



(** ** A time zone with a change of offset

    New York in the autumn of 2023: local time is four hours behind UTC
    until 2023-11-05T06:00:00Z, when the clocks go back from 02:00 to
    01:00, and five hours behind from then on. A local time that occurs
    twice is taken with the offset before the change. *)

Definition newYork : TimeZone :=
  mkZone
    (λ t, if bool_decide (t < 1699164000000) then - 14400000 else - 18000000)
    (λ t, if bool_decide (t < 1699149600000) then - 14400000 else - 18000000).

(** Noon of 2023-11-03 in New York. *)
Definition noon3Nov : Z := 1699027200000.

(** * Properties *)

(** ** Loops *)

Lemma forOf_ext {A S : Type} (f g : A → S → option S) l s :
  (∀ x s, f x s = g x s) → forOf f l s = forOf g l s.
Proof.
  intros Hfg. revert s. induction l as [|x l IH]; intros s; simpl; [done|].
  rewrite Hfg. destruct (g x s); auto.
Qed.

Lemma forOf_mono {A S : Type} (f g : A → S → option S) l s r :
  (∀ x s r, f x s = Some r → g x s = Some r) →
  forOf f l s = Some r → forOf g l s = Some r.
Proof.
  intros Hfg. revert s. induction l as [|x l IH]; intros s; simpl; [done|].
  destruct (f x s) as [s'|] eqn:E; [|done].
  rewrite (Hfg _ _ _ E). apply IH.
Qed.

(** Invariant rule for a loop: [J done s] relates the elements already
    processed to the loop state. *)
Lemma forOf_invariant {A S : Type} (f : A → S → option S)
    (J : list A → S → Prop) l :
  (∀ done x rest s s',
     l = done ++ x :: rest → J done s → f x s = Some s' → J (done ++ [x]) s') →
  ∀ s s', J [] s → forOf f l s = Some s' → J l s'.
Proof.
  intros Hstep.
  assert (∀ rest done s s', l = done ++ rest → J done s →
            forOf f rest s = Some s' → J l s') as H.
  { induction rest as [|x rest IH]; intros done s s' Hl HJ Hrun; simpl in Hrun.
    - simplify_eq. by rewrite app_nil_r.
    - destruct (f x s) as [s1|] eqn:E; [|done].
      apply (IH (done ++ [x]) s1 s'); [by rewrite <- app_assoc| |done].
      eapply Hstep; eauto. }
  intros s s' HJ Hrun. by apply (H l [] s s').
Qed.

(** The same rule when every iteration is known to complete. *)
Lemma forOf_total {A S : Type} (f : A → S → option S)
    (J : list A → S → Prop) l :
  (∀ done x rest s,
     l = done ++ x :: rest → J done s →
     ∃ s', f x s = Some s' ∧ J (done ++ [x]) s') →
  ∀ s, J [] s → ∃ s', forOf f l s = Some s' ∧ J l s'.
Proof.
  intros Hstep.
  assert (∀ rest done s, l = done ++ rest → J done s →
            ∃ s', forOf f rest s = Some s' ∧ J l s') as H.
  { induction rest as [|x rest IH]; intros done s Hl HJ; simpl.
    - exists s. split; [done|]. simplify_eq. by rewrite app_nil_r.
    - destruct (Hstep done x rest s Hl HJ) as (s1 & E & HJ1). rewrite E.
      apply (IH (done ++ [x]) s1); [by rewrite <- app_assoc|done]. }
  intros s HJ. by apply (H l [] s).
Qed.

Lemma elem_of_newSet x l : x ∈ newSet l ↔ x ∈ l.
Proof.
  induction l as [|y l IH]; simpl; [done|].
  rewrite !elem_of_cons, list_elem_of_filter, IH.
  destruct (decide (x = y)); tauto.
Qed.


(** ** The traversal *)

Section TraverseFacts.

Variable neighbours : Z → list Z.
Variable field : TodoWithCriticalPath → option Z.
Variable better : Z → Z → bool.
Variable start : Z.
Variable leaf : TodoWithCriticalPath → TodoWithCriticalPath.
Variable finish : Z → TodoWithCriticalPath → TodoWithCriticalPath.

Local Abbreviation trav :=
  (traverse neighbours field better start leaf finish).
Local Abbreviation iter := (visitIter field better).
Local Abbreviation pick := (pickOf field better).

(** What one iteration of the loop does. *)
Lemma visitIter_Some recur n acc st acc' st' :
  iter recur n (acc, st) = Some (acc', st') →
  (st.1 !! n = None ∧ st' = st ∧ acc' = acc) ∨
  (∃ d, st.1 !! n = Some d ∧
        match field d with
        | None => recur n st = Some st'
        | Some _ => st' = st
        end ∧
        acc' = pick st'.1 n acc).
Proof.
  unfold visitIter. destruct (st.1 !! n) as [d|] eqn:Hn.
  - intros H. right. exists d. split; [done|].
    destruct (field d) eqn:Hf; simpl in H.
    + unfold pickOf. destruct (st.1 !! n ≫= field) eqn:E.
      * destruct (better acc z0) eqn:Hb; simplify_eq; rewrite E, ?Hb; done.
      * simplify_eq. by rewrite E.
    + destruct (recur n st) as [st1|] eqn:Hr; simpl in H; [|done].
      unfold pickOf. destruct (st1.1 !! n ≫= field) eqn:E.
      * destruct (better acc z) eqn:Hb; simplify_eq; rewrite E, ?Hb; done.
      * simplify_eq. by rewrite E.
  - intros H. left. by simplify_eq.
Qed.

Lemma visitIter_mono (f g : Z → PassState → option PassState) n s r :
  (∀ x s r, f x s = Some r → g x s = Some r) →
  iter f n s = Some r → iter g n s = Some r.
Proof.
  intros Hfg. destruct s as [acc st]. unfold visitIter.
  destruct (st.1 !! n) as [d|]; [|done].
  destruct (field d); [done|].
  destruct (f n st) as [st1|] eqn:E; simpl; [|done].
  by rewrite (Hfg _ _ _ E).
Qed.

(** The equation of [traverse], with the loop kept folded. *)
Lemma traverse_unfold fuel k m vis :
  trav (S fuel) k (m, vis) =
  if decide (k ∈ vis) then Some (m, vis)
  else match m !! k with
       | None => Some (m, {[k]} ∪ vis)
       | Some _ =>
           if decide (neighbours k = []) then Some (alter leaf k m, {[k]} ∪ vis)
           else
             s ← forOf (iter (trav fuel)) (neighbours k) (start, (m, {[k]} ∪ vis));
             Some (alter (finish s.1) k s.2.1, s.2.2)
       end.
Proof.
  cbn [traverse]. destruct (decide (k ∈ vis)) as [Hin|Hin]; [done|].
  destruct (m !! k); [|done].
  destruct (neighbours k) as [|n ns]; [done|].
  rewrite decide_False by done.
  destruct (forOf _ (n :: ns) _) as [[acc [m1 vis1]]|]; done.
Qed.

(** More fuel does not change a result. *)
Lemma traverse_mono fuel fuel' k st r :
  (fuel ≤ fuel')%nat → trav fuel k st = Some r → trav fuel' k st = Some r.
Proof.
  revert fuel' k st r.
  induction fuel as [|fuel IH]; intros fuel' k [m vis] r Hle; [done|].
  destruct fuel' as [|fuel']; [lia|]. rewrite !traverse_unfold.
  destruct (decide (k ∈ vis)) as [Hin|Hin]; [done|].
  destruct (m !! k); [|done].
  destruct (decide (neighbours k = [])); [done|].
  destruct (forOf (iter (trav fuel)) _ _) as [s1|] eqn:E; [|done].
  intros H.
  erewrite forOf_mono; [exact H| |exact E].
  intros x s r'. apply visitIter_mono. intros y s2 r2. apply IH. lia.
Qed.

(** A call keeps the keys of the map, only adds to the visited set, and
    leaves the records of already visited keys alone. *)
Lemma traverse_frame fuel k m vis m' vis' :
  trav fuel k (m, vis) = Some (m', vis') →
  dom m' = dom m ∧ vis ⊆ vis' ∧ k ∈ vis' ∧ ∀ j, j ∈ vis → m' !! j = m !! j.
Proof.
  revert k m vis m' vis'.
  induction fuel as [|fuel IH]; intros k m vis m' vis'; [done|].
  rewrite traverse_unfold.
  destruct (decide (k ∈ vis)) as [Hin|Hin].
  { intros; simplify_eq. done. }
  destruct (m !! k) as [t0|] eqn:Hk.
  2:{ intros; simplify_eq. split_and!; [done|set_solver..|done]. }
  destruct (decide (neighbours k = [])) as [Hns|Hns].
  { intros; simplify_eq. rewrite dom_alter_L. split_and!; [done|set_solver..|].
    intros j Hj. apply lookup_alter_ne. intros ->. done. }
  destruct (forOf _ _ _) as [[acc [m1 vis1]]|] eqn:E; simpl; [|done].
  intros; simplify_eq.
  pose (J := λ (_ : list Z) (s : Z * PassState),
          dom s.2.1 = dom m ∧ {[k]} ∪ vis ⊆ s.2.2 ∧
          ∀ j, j ∈ {[k]} ∪ vis → s.2.1 !! j = m !! j).
  assert (J (neighbours k) (acc, (m1, vis'))) as (Hd & Hv & Hf).
  { apply (forOf_invariant (iter (trav fuel)) J (neighbours k))
      with (s := (start, (m, {[k]} ∪ vis))); [|by unfold J|exact E].
    intros done x rest [a [mi visi]] [a' [mj visj]] _ (Hd & Hv & Hf) Hstep.
    apply visitIter_Some in Hstep as [(_ & ? & _)|(d & _ & Hr & _)].
    { by simplify_eq. }
    destruct (field d).
    { by simplify_eq. }
    apply IH in Hr as (Hd' & Hv' & _ & Hf'). unfold J; simpl in *.
    split_and!; [congruence|set_solver|].
    intros j Hj. rewrite Hf' by set_solver. auto. }
  simpl in *. rewrite dom_alter_L. split_and!; [done|set_solver..|].
  intros j Hj. rewrite lookup_alter_ne by (intros ->; done).
  apply Hf. set_solver.
Qed.

(** A property of the records that every assignment of the traversal
    preserves is preserved by a call. *)
Lemma traverse_local (P : Z → TodoWithCriticalPath → Prop) fuel k m vis m' vis' :
  (∀ k t, neighbours k = [] → P k t → P k (leaf t)) →
  (∀ k a t, neighbours k ≠ [] → P k t → P k (finish a t)) →
  map_Forall P m →
  trav fuel k (m, vis) = Some (m', vis') →
  map_Forall P m'.
Proof.
  intros Hleaf Hfin. revert k m vis m' vis'.
  induction fuel as [|fuel IH]; intros k m vis m' vis' HP; [done|].
  rewrite traverse_unfold.
  destruct (decide (k ∈ vis)) as [Hin|Hin].
  { intros; by simplify_eq. }
  destruct (m !! k) as [t0|] eqn:Hk.
  2:{ intros; by simplify_eq. }
  assert (∀ f (m0 : gmap Z TodoWithCriticalPath),
            (∀ t, P k t → P k (f t)) → map_Forall P m0 →
            map_Forall P (alter f k m0)) as Halt.
  { intros f m0 Hf HP0 j t. rewrite lookup_alter.
    destruct (decide (k = j)) as [->|]; [|apply HP0].
    destruct (m0 !! j) as [t1|] eqn:E; simpl; [|done].
    intros; simplify_eq. apply Hf. by apply HP0. }
  destruct (decide (neighbours k = [])) as [Hns|Hns].
  { intros; simplify_eq. apply Halt; [|done]. intros t. by apply Hleaf. }
  destruct (forOf _ _ _) as [[acc [m1 vis1]]|] eqn:E; simpl; [|done].
  intros; simplify_eq.
  apply Halt.
  { intros t. by apply Hfin. }
  pose (J := λ (_ : list Z) (s : Z * PassState), map_Forall P s.2.1).
  change (J (neighbours k) (acc, (m1, vis'))).
  apply (forOf_invariant (iter (trav fuel)) J (neighbours k))
    with (s := (start, (m, {[k]} ∪ vis))); [|exact HP|exact E].
  intros done x rest [a [mi visi]] [a' [mj visj]] _ HJ Hstep.
  apply visitIter_Some in Hstep as [(_ & ? & _)|(d & _ & Hr & _)].
  { by simplify_eq. }
  destruct (field d).
  { by simplify_eq. }
  by apply IH in Hr.
Qed.

(** A call on a key that was not visited sets the field of its record. *)
Lemma traverse_settles fuel k m vis m' vis' :
  (∀ t, is_Some (field (leaf t))) →
  (∀ a t, is_Some (field (finish a t))) →
  trav fuel k (m, vis) = Some (m', vis') →
  k ∉ vis →
  ∀ t, m' !! k = Some t → is_Some (field t).
Proof.
  intros Hleaf Hfin. destruct fuel as [|fuel]; [done|].
  rewrite traverse_unfold.
  intros H Hin. rewrite decide_False in H by done.
  destruct (m !! k) as [t0|] eqn:Hk.
  2:{ simplify_eq. intros t. by rewrite Hk. }
  destruct (decide (neighbours k = [])) as [Hns|Hns].
  { simplify_eq. intros t. rewrite lookup_alter_eq, Hk. simpl.
    intros; simplify_eq. apply Hleaf. }
  destruct (forOf _ _ _) as [[acc [m1 vis1]]|] eqn:E; simpl in H; [|done].
  simplify_eq. intros t. rewrite lookup_alter_eq.
  destruct (m1 !! k); simpl; [|done]. intros; simplify_eq. apply Hfin.
Qed.

(** The recursion depth is bounded by the number of keys not yet visited:
    with that much fuel a call completes. *)
Lemma traverse_total fuel k m vis :
  (size (dom m ∖ vis) < fuel)%nat → is_Some (trav fuel k (m, vis)).
Proof.
  revert k m vis.
  induction fuel as [|fuel IH]; intros k m vis Hsz; [lia|].
  rewrite traverse_unfold.
  destruct (decide (k ∈ vis)) as [Hin|Hin]; [done|].
  destruct (m !! k) as [t0|] eqn:Hk; [|done].
  destruct (decide (neighbours k = [])) as [Hns|Hns]; [done|].
  assert (size (dom m ∖ ({[k]} ∪ vis)) < fuel)%nat as Hsz'.
  { assert (dom m ∖ ({[k]} ∪ vis) ⊂ dom m ∖ vis) as Hsub.
    { assert (k ∈ dom m) by (apply elem_of_dom; eauto). set_solver. }
    apply subset_size in Hsub. lia. }
  pose (J := λ (_ : list Z) (s : Z * PassState),
          dom s.2.1 = dom m ∧ {[k]} ∪ vis ⊆ s.2.2).
  destruct (forOf_total (iter (trav fuel)) J (neighbours k)) with
    (s := (start, (m, {[k]} ∪ vis))) as ([acc [m1 vis1]] & E & _).
  - intros done x rest [a [mi visi]] _ [Hd Hv]. simpl in Hd, Hv.
    unfold visitIter. simpl.
    destruct (mi !! x) as [d|] eqn:Hx.
    2:{ eexists. split; [done|]. done. }
    destruct (field d).
    { simpl. rewrite Hx. simpl.
      destruct (field d); [destruct (better a z0)|]; eexists; (split; [done|done]). }
    destruct (IH x mi visi) as [[mj visj] Hr].
    { assert (dom mi ∖ visi ⊆ dom m ∖ ({[k]} ∪ vis)) as Hsub by set_solver.
      apply subseteq_size in Hsub. lia. }
    rewrite Hr. simpl.
    apply traverse_frame in Hr as (Hd' & Hv' & _).
    assert (J (done ++ [x]) (a, (mj, visj))) as HJ.
    { split; simpl; [congruence|set_solver]. }
    destruct (mj !! x ≫= field); [destruct (better a z)|];
      eexists; (split; [done|exact HJ]).
  - done.
  - rewrite E. done.
Qed.

End TraverseFacts.

(** ** The traversal of an acyclic graph

    When no key reaches itself, the records whose field is set are closed
    under neighbours and never change again: a second visit assigns what the
    first one did. *)

Section StableFacts.

Variable neighbours : Z → list Z.
Variable field : TodoWithCriticalPath → option Z.
Variable better : Z → Z → bool.
Variable start : Z.
Variable leaf : TodoWithCriticalPath → TodoWithCriticalPath.
Variable finish : Z → TodoWithCriticalPath → TodoWithCriticalPath.

Hypothesis leaf_sets : ∀ t, is_Some (field (leaf t)).
Hypothesis finish_sets : ∀ a t, is_Some (field (finish a t)).
Hypothesis leaf_idem : ∀ t, leaf (leaf t) = leaf t.
Hypothesis finish_idem : ∀ a t, finish a (finish a t) = finish a t.
Hypothesis acyclic : ∀ x, ¬ tc (edge neighbours) x x.

Local Abbreviation trav :=
  (traverse neighbours field better start leaf finish).
Local Abbreviation iter := (visitIter field better).
Local Abbreviation acc_of := (accOf field better).
Local Abbreviation visit := (visitOf neighbours field better start leaf finish).
Local Abbreviation stable := (Stable neighbours field better start leaf finish).

Lemma accOf_ext m1 m2 ns a :
  (∀ n, n ∈ ns → m1 !! n = m2 !! n) → acc_of m1 ns a = acc_of m2 ns a.
Proof.
  revert a. induction ns as [|n ns IH]; intros a Hext; [done|].
  unfold accOf in *. simpl. unfold pickOf at 2 4.
  rewrite (Hext n) by left. apply IH. intros; apply Hext. by right.
Qed.

Lemma accOf_snoc m ns n a :
  acc_of m (ns ++ [n]) a = pickOf field better m n (acc_of m ns a).
Proof. unfold accOf. by rewrite fold_left_app. Qed.

Lemma visitOf_ext m1 m2 k t :
  (∀ n, n ∈ neighbours k → m1 !! n = m2 !! n) → visit m1 k t = visit m2 k t.
Proof.
  intros Hext. unfold visitOf. destruct (neighbours k) as [|n ns]; [done|].
  by rewrite (accOf_ext m1 m2).
Qed.

Lemma visitOf_sets m k t : is_Some (field (visit m k t)).
Proof. unfold visitOf. destruct (neighbours k); auto. Qed.

Lemma visitOf_idem m k t : visit m k (visit m k t) = visit m k t.
Proof. unfold visitOf. destruct (neighbours k); auto. Qed.

Lemma not_self_neighbour k : k ∉ neighbours k.
Proof. intros Hk. apply (acyclic k). by apply tc_once. Qed.

(** Visiting [k] when all its neighbours are set keeps the map stable. *)
Lemma Stable_visit m k t0 :
  stable m → m !! k = Some t0 →
  (∀ n d, n ∈ neighbours k → m !! n = Some d → is_Some (field d)) →
  stable (alter (visit m k) k m).
Proof.
  intros Hst Hk Hcl.
  destruct (field t0) as [f0|] eqn:Hf0.
  { rewrite alter_id; [done|]. intros t Ht. simplify_eq.
    apply (Hst k t0 Hk). by rewrite Hf0. }
  assert (∀ j t, m !! j = Some t → is_Some (field t) → k ∉ neighbours j) as Hnot.
  { intros j t Hj Hset Hin.
    destruct (Hst j t Hj Hset) as [Hc _].
    destruct (Hc k t0 Hin Hk) as [? ?]. congruence. }
  intros j t. rewrite lookup_alter.
  destruct (decide (k = j)) as [<-|Hne].
  - rewrite Hk. simpl. intros ? _; simplify_eq. split.
    + intros n d Hn. rewrite lookup_alter_ne.
      * by apply Hcl.
      * intros ->. by apply not_self_neighbour in Hn.
    + rewrite (visitOf_ext _ m); [apply visitOf_idem|].
      intros n Hn. apply lookup_alter_ne. intros ->.
      by apply not_self_neighbour in Hn.
  - intros Hj Hset. destruct (Hst j t Hj Hset) as [Hc Hv]. split.
    + intros n d Hn. rewrite lookup_alter.
      destruct (decide (k = n)) as [<-|]; [|by apply Hc].
      rewrite Hk. simpl. intros; simplify_eq. apply visitOf_sets.
    + rewrite <- Hv at 2. apply visitOf_ext. intros n Hn.
      apply lookup_alter_ne. intros ->. by apply (Hnot j t).
Qed.

(** The invariant of a call: [anc] are the keys whose visit is in progress;
    each of them reaches the key being visited. *)
Lemma traverse_stable fuel k m vis (anc : gset Z) m' vis' :
  stable m →
  (∀ v t, v ∈ vis → m !! v = Some t → is_Some (field t) ∨ v ∈ anc) →
  (∀ a, a ∈ anc → tc (edge neighbours) a k) →
  trav fuel k (m, vis) = Some (m', vis') →
  stable m' ∧
  (∀ v t, v ∈ vis' → m' !! v = Some t → is_Some (field t) ∨ v ∈ anc) ∧
  (∀ t, m' !! k = Some t → is_Some (field t)) ∧
  (∀ j t, m !! j = Some t → is_Some (field t) → m' !! j = Some t).
Proof.
  revert k m vis anc m' vis'.
  induction fuel as [|fuel IH]; intros k m vis anc m' vis' Hst Hvis Hanc;
    [done|].
  rewrite traverse_unfold.
  destruct (decide (k ∈ vis)) as [Hin|Hin].
  { intros; simplify_eq. split_and!; [done..| |done].
    intros t Ht. destruct (Hvis k t Hin Ht) as [|Ha]; [done|].
    destruct (acyclic k). by apply Hanc. }
  destruct (m !! k) as [t0|] eqn:Hk.
  2:{ intros; simplify_eq. split_and!; [done| |by rewrite Hk|done].
      intros v t Hv Ht. apply (Hvis v t); [|done].
      apply elem_of_union in Hv as [Hv|]; [|done].
      apply elem_of_singleton in Hv. congruence. }
  (* what the final assignment gives, once the neighbours are set *)
  assert (∀ (m1 : gmap Z TodoWithCriticalPath) (vis1 : gset Z),
            stable m1 → m1 !! k = Some t0 →
            (∀ n d, n ∈ neighbours k → m1 !! n = Some d → is_Some (field d)) →
            (∀ v t, v ∈ vis1 → m1 !! v = Some t →
                    is_Some (field t) ∨ v ∈ {[k]} ∪ anc) →
            (∀ j t, m !! j = Some t → is_Some (field t) → m1 !! j = Some t) →
            let m2 := alter (visit m1 k) k m1 in
            stable m2 ∧
            (∀ v t, v ∈ vis1 → m2 !! v = Some t → is_Some (field t) ∨ v ∈ anc) ∧
            (∀ t, m2 !! k = Some t → is_Some (field t)) ∧
            (∀ j t, m !! j = Some t → is_Some (field t) → m2 !! j = Some t))
    as Hfinal.
  { intros m1 vis1 Hst1 Hk1 Hcl Hvis1 Hfr m2. subst m2. split_and!.
    - by apply (Stable_visit m1 k t0).
    - intros v t Hv. rewrite lookup_alter.
      destruct (decide (k = v)) as [<-|Hne].
      + rewrite Hk1. simpl. intros; simplify_eq. left. apply visitOf_sets.
      + intros Ht. destruct (Hvis1 v t Hv Ht) as [|Ha]; [by left|].
        right. set_solver.
    - intros t. rewrite lookup_alter_eq, Hk1. simpl. intros; simplify_eq.
      apply visitOf_sets.
    - intros j t Hj Hset. rewrite lookup_alter.
      destruct (decide (k = j)) as [<-|Hne]; [|by apply Hfr].
      rewrite Hk1. simpl. f_equal. simplify_eq.
      by apply (Hst1 k t0 Hk1). }
  assert (∀ v t, v ∈ {[k]} ∪ vis → m !! v = Some t →
                 is_Some (field t) ∨ v ∈ {[k]} ∪ anc) as Hvis0.
  { intros v t Hv Ht. apply elem_of_union in Hv as [Hv|Hv]; [right; set_solver|].
    destruct (Hvis v t Hv Ht); [by left|right; set_solver]. }
  destruct (decide (neighbours k = [])) as [Hns|Hns].
  { intros; simplify_eq.
    assert (alter leaf k m = alter (visit m k) k m) as ->.
    { apply alter_ext. intros. unfold visitOf. by rewrite Hns. }
    apply Hfinal; try done. intros n d. rewrite Hns. by intros ?%elem_of_nil. }
  destruct (forOf _ _ _) as [[acc [m1 vis1]]|] eqn:E; simpl; [|done].
  intros; simplify_eq.
  pose (J := λ (done : list Z) (s : Z * PassState),
          stable s.2.1 ∧
          (∀ v t, v ∈ s.2.2 → s.2.1 !! v = Some t →
                  is_Some (field t) ∨ v ∈ {[k]} ∪ anc) ∧
          (∀ j t, m !! j = Some t → is_Some (field t) → s.2.1 !! j = Some t) ∧
          (∀ n d, n ∈ done → s.2.1 !! n = Some d → is_Some (field d)) ∧
          s.1 = acc_of s.2.1 done start ∧
          s.2.1 !! k = Some t0 ∧ k ∈ s.2.2).
  assert (J (neighbours k) (acc, (m1, vis'))) as (H1 & H2 & H3 & H4 & H5 & H6 & _).
  { apply (forOf_invariant (iter (trav fuel)) J (neighbours k))
      with (s := (start, (m, {[k]} ∪ vis))); [| |exact E].
    2:{ unfold J; simpl. split_and!; try done.
        - by intros n d ?%elem_of_nil.
        - set_solver. }
    intros done x rest [a [mi visi]] [a' [mj visj]] Hl
      (Hsti & Hvi & Hfi & Hdi & Hai & Hki & Hkv) Hstep.
    simpl in Hsti, Hvi, Hfi, Hdi, Hai, Hki, Hkv.
    assert (x ∈ neighbours k) as Hx by (rewrite Hl; set_solver).
    apply visitIter_Some in Hstep as [(Hnone & ? & ?)|(d & Hd & Hr & Ha')];
      simpl in *.
    { simplify_eq. unfold J; simpl. split_and!; try done.
      - intros n d' [Hn|Hn%list_elem_of_singleton]%elem_of_app; [by apply Hdi|].
        subst n. congruence.
      - rewrite accOf_snoc. unfold pickOf. by rewrite Hnone. }
    destruct (field d) as [fd|] eqn:Hfd.
    { simplify_eq. unfold J; simpl. split_and!; try done.
      - intros n d' [Hn|Hn%list_elem_of_singleton]%elem_of_app; [by apply Hdi|].
        subst n. intros; simplify_eq. by rewrite Hfd.
      - by rewrite accOf_snoc. }
    pose proof (traverse_frame _ _ _ _ _ _ _ _ _ _ _ _ Hr)
      as (Hdom & Hsub & _ & Hframe).
    apply (IH x mi visi ({[k]} ∪ anc)) in Hr as (Hstj & Hvj & Hxj & Hfj);
      [|done|done|].
    2:{ intros b [Hb%elem_of_singleton|Hb]%elem_of_union.
        - subst b. by apply tc_once.
        - eapply tc_r; [by apply Hanc|done]. }
    assert (∀ n, n ∈ done → mi !! n = mj !! n) as Hsame.
    { intros n Hn. destruct (mi !! n) as [d0|] eqn:Hn0.
      - symmetry. apply Hfj; [done|]. by apply (Hdi n).
      - symmetry. apply not_elem_of_dom. rewrite Hdom.
        by apply not_elem_of_dom. }
    unfold J; simpl. split_and!; try done.
    - intros j t Hj Hset. apply Hfj; [|done]. by apply Hfi.
    - intros n d' [Hn|Hn%list_elem_of_singleton]%elem_of_app.
      + rewrite <- Hsame by done. by apply Hdi.
      + subst n. apply Hxj.
    - rewrite accOf_snoc, Ha', Hai. f_equal. by apply accOf_ext.
    - rewrite Hframe by done. done.
    - set_solver. }
  simpl in *.
  assert (alter (finish acc) k m1 = alter (visit m1 k) k m1) as ->.
  { apply alter_ext. intros. unfold visitOf.
    destruct (neighbours k); [done|]. by rewrite H5. }
  by apply Hfinal.
Qed.

End StableFacts.

(** ** The two passes as traversals *)

Lemma calculateEarliestTimes_traverse now fuel graph k st :
  calculateEarliestTimes now fuel graph k st =
  traverse (forwardNeighbours graph) earliestFinishDate laterThan 0
    (earliestAssign now) earliestAssign fuel k st.
Proof.
  revert k st. induction fuel as [|fuel IH]; intros k [m vis]; [done|].
  cbn [calculateEarliestTimes traverse].
  destruct (decide (k ∈ vis)) as [Hin|Hin]; [done|].
  destruct (m !! k); [|done].
  unfold forwardNeighbours at 1. destruct (default [] (graph !! k)); [done|].
  erewrite forOf_ext; [reflexivity|].
  intros x [a st]. unfold earliestIter, visitIter.
  destruct (st.1 !! x) as [d|]; [|done]. destruct (earliestFinishDate d); [done|].
  by rewrite IH.
Qed.

Lemma calculateLatestTimes_traverse fuel todos k projectEnd st :
  calculateLatestTimes fuel todos k projectEnd st =
  traverse (dependentsOf todos) latestStartDate earlierThan projectEnd
    (latestLeaf projectEnd) latestAssign fuel k st.
Proof.
  revert k st. induction fuel as [|fuel IH]; intros k [m vis]; [done|].
  cbn [calculateLatestTimes traverse].
  destruct (decide (k ∈ vis)) as [Hin|Hin]; [done|].
  destruct (m !! k); [|done].
  destruct (dependentsOf todos k); [done|].
  erewrite forOf_ext; [reflexivity|].
  intros x [a st]. unfold latestIter, visitIter.
  destruct (st.1 !! x) as [d|]; [|done]. destruct (latestStartDate d); [done|].
  by rewrite IH.
Qed.

(** ** A pass over the task list

    [todos.forEach(t => visit(t.id))] with a fresh visited set per call. *)

Section PassFacts.

Variable neighbours : Z → list Z.
Variable field : TodoWithCriticalPath → option Z.
Variable better : Z → Z → bool.
Variable start : Z.
Variable leaf : TodoWithCriticalPath → TodoWithCriticalPath.
Variable finish : Z → TodoWithCriticalPath → TodoWithCriticalPath.

Local Abbreviation trav :=
  (traverse neighbours field better start leaf finish).
Local Abbreviation stable := (Stable neighbours field better start leaf finish).
Local Abbreviation pass :=
  (passOver neighbours field better start leaf finish).

Lemma passOver_mono fuel fuel' todos m r :
  (fuel ≤ fuel')%nat →
  pass fuel todos m = Some r → pass fuel' todos m = Some r.
Proof.
  intros Hle. apply forOf_mono. intros t m1 r1.
  destruct (trav fuel (id t) (m1, ∅)) as [s|] eqn:E; [|done].
  by rewrite (traverse_mono _ _ _ _ _ _ fuel fuel' _ _ _ Hle E).
Qed.

(** Rule for a pass: a property preserved by each top-level call. *)
Lemma passOver_invariant (J : list TodoWithDependencies →
                              gmap Z TodoWithCriticalPath → Prop)
    fuel todos m m' :
  (∀ done t rest m1 m2 vis2,
     todos = done ++ t :: rest → J done m1 →
     trav fuel (id t) (m1, ∅) = Some (m2, vis2) → J (done ++ [t]) m2) →
  J [] m → pass fuel todos m = Some m' → J todos m'.
Proof.
  intros Hstep. apply forOf_invariant.
  intros done t rest m1 m2 Hl HJ Hcall.
  destruct (trav fuel (id t) (m1, ∅)) as [[m3 vis3]|] eqn:E; [|done].
  simpl in Hcall. simplify_eq. eapply Hstep; eauto.
Qed.

Lemma passOver_dom fuel todos m m' :
  pass fuel todos m = Some m' → dom m' = dom m.
Proof.
  apply (passOver_invariant (λ _ m1, dom m1 = dom m)); [|done].
  intros done t rest m1 m2 vis2 _ Hd Hcall.
  apply traverse_frame in Hcall as (Hd' & _). congruence.
Qed.

Lemma passOver_local (P : Z → TodoWithCriticalPath → Prop) fuel todos m m' :
  (∀ k t, neighbours k = [] → P k t → P k (leaf t)) →
  (∀ k a t, neighbours k ≠ [] → P k t → P k (finish a t)) →
  map_Forall P m →
  pass fuel todos m = Some m' →
  map_Forall P m'.
Proof.
  intros Hleaf Hfin.
  apply (passOver_invariant (λ _ m1, map_Forall P m1)).
  intros done t rest m1 m2 vis2 _ HP Hcall.
  by apply (traverse_local _ _ _ _ _ _ P _ _ _ _ _ _ Hleaf Hfin HP Hcall).
Qed.

(** With fuel beyond the number of keys, a pass completes. *)
Lemma passOver_total fuel todos m :
  (size (dom m) < fuel)%nat → is_Some (pass fuel todos m).
Proof.
  intros Hsz.
  destruct (forOf_total (λ t m, fst <$> trav fuel (id t) (m, ∅))
              (λ _ m1, dom m1 = dom m) todos) with (s := m)
    as (m' & E & _); [|done|unfold passOver; by rewrite E].
  intros done t rest m1 _ Hd.
  destruct (traverse_total neighbours field better start leaf finish
              fuel (id t) m1 ∅) as [[m2 vis2] Hcall].
  { rewrite Hd. replace (dom m ∖ ∅) with (dom m) by set_solver. done. }
  rewrite Hcall. exists m2. split; [done|].
  apply traverse_frame in Hcall as (Hd' & _). congruence.
Qed.

(** After a pass, the field of every task of the list is set. *)
Lemma passOver_settles fuel todos m m' :
  (∀ t, is_Some (field (leaf t))) →
  (∀ a t, is_Some (field (finish a t))) →
  pass fuel todos m = Some m' →
  ∀ t e, t ∈ todos → m' !! id t = Some e → is_Some (field e).
Proof.
  intros Hleaf Hfin Hrun.
  cut (∀ t, t ∈ todos → ∀ e, m' !! id t = Some e → is_Some (field e)).
  { intros H t e Ht. by apply H. }
  revert Hrun.
  apply (passOver_invariant
    (λ done m1, ∀ t, t ∈ done → ∀ e, m1 !! id t = Some e → is_Some (field e))).
  2:{ by intros t ?%elem_of_nil. }
  intros done t rest m1 m2 vis2 _ HJ Hcall t' Ht' e He.
  apply elem_of_app in Ht' as [Ht'|Ht'%list_elem_of_singleton].
  - assert (map_Forall (λ k e, k = id t' → is_Some (field e)) m2) as HP.
    { eapply (traverse_local _ _ _ _ _ _ (λ k e, k = id t' → is_Some (field e)));
        [by auto|by auto| |exact Hcall].
      intros k e1 He1 ->. by apply (HJ t'). }
    by apply (HP (id t') e).
  - subst t'.
    apply (traverse_settles _ _ _ _ _ _ _ _ _ _ _ _ Hleaf Hfin Hcall); [|done].
    set_solver.
Qed.

(** On an acyclic graph a pass keeps the map stable. *)
Lemma passOver_stable fuel todos m m' :
  (∀ t, is_Some (field (leaf t))) →
  (∀ a t, is_Some (field (finish a t))) →
  (∀ t, leaf (leaf t) = leaf t) →
  (∀ a t, finish a (finish a t) = finish a t) →
  (∀ x, ¬ tc (edge neighbours) x x) →
  stable m →
  pass fuel todos m = Some m' →
  stable m'.
Proof.
  intros H1 H2 H3 H4 H5.
  apply (passOver_invariant (λ _ m1, stable m1)).
  intros done t rest m1 m2 vis2 _ Hst Hcall.
  eapply (traverse_stable _ _ _ _ _ _ H1 H2 H3 H4 H5 _ _ _ _ ∅) in Hcall
    as (? & _); [done|done|set_solver|set_solver].
Qed.

End PassFacts.

(** ** Record invariants *)

Lemma sameTask_refl e : sameTask e e.
Proof. done. Qed.

Lemma sameTask_earliestAssign e0 s e :
  sameTask e0 e → sameTask e0 (earliestAssign s e).
Proof. by intros (? & ? & ? & ?). Qed.

Lemma sameTask_latestAssign e0 f e :
  sameTask e0 e → sameTask e0 (latestAssign f e).
Proof.
  intros (? & ? & ? & ?). unfold latestAssign, updateSlack. simpl.
  destruct (earliestStartDate e); done.
Qed.

Lemma sameEarliest_latestAssign e0 f e :
  sameEarliest e0 e → sameEarliest e0 (latestAssign f e).
Proof.
  intros (? & ?). unfold latestAssign, updateSlack. simpl.
  destruct (earliestStartDate e) eqn:E; split; simpl; congruence.
Qed.

Lemma forwardOk_earliestAssign s e : forwardOk e → forwardOk (earliestAssign s e).
Proof. intros (? & ? & ? & ?). split_and!; try done. Qed.

Lemma forwardOk_scheduleOk e : forwardOk e → scheduleOk e.
Proof.
  intros (Hls & Hlf & Hsl & He). unfold scheduleOk, latestOk, slackOk.
  rewrite Hls, Hlf. split_and!; [done..|].
  by destruct (earliestStartDate e).
Qed.

Lemma scheduleOk_latestAssign f e : scheduleOk e → scheduleOk (latestAssign f e).
Proof.
  intros (He & _ & Hs). unfold latestAssign, updateSlack. simpl.
  unfold scheduleOk, earliestOk, latestOk, slackOk in *.
  destruct (earliestStartDate e) as [es|] eqn:E; simpl; rewrite ?E.
  - split_and!; [done| |done]. unfold addDays. lia.
  - split_and!; [done| |done]. unfold addDays. lia.
Qed.


Lemma earliestAssign_sets s e : is_Some (earliestFinishDate (earliestAssign s e)).
Proof. by eexists. Qed.

Lemma latestAssign_sets f e : is_Some (latestStartDate (latestAssign f e)).
Proof.
  unfold latestAssign, updateSlack. simpl.
  destruct (earliestStartDate e); by eexists.
Qed.

Lemma earliestAssign_idem s e :
  earliestAssign s (earliestAssign s e) = earliestAssign s e.
Proof. done. Qed.

Lemma latestAssign_idem f e :
  latestAssign f (latestAssign f e) = latestAssign f e.
Proof.
  unfold latestAssign, updateSlack. simpl.
  destruct (earliestStartDate e) eqn:E; simpl; rewrite ?E; done.
Qed.

Lemma latestLeaf_idem p e : latestLeaf p (latestLeaf p e) = latestLeaf p e.
Proof.
  unfold latestLeaf at 1.
  assert (todo (latestLeaf p e) = todo e) as ->.
  { unfold latestLeaf. by destruct (sameTask_latestAssign e
      (default p (dueDate (todo e))) e (sameTask_refl e)). }
  apply latestAssign_idem.
Qed.

(** ** The engine *)

Section EngineFacts.

Variables now tz : Z.

Local Abbreviation initOf := (initTodo now tz).

Lemma forwardPass_passOver fuel todos graph m :
  forwardPass now fuel todos graph m =
  passOver (forwardNeighbours graph) earliestFinishDate laterThan 0
    (earliestAssign now) earliestAssign fuel todos m.
Proof.
  unfold forwardPass, passOver. apply forOf_ext. intros t m1.
  by rewrite calculateEarliestTimes_traverse.
Qed.

Lemma backwardPass_passOver fuel todos projectEnd m :
  backwardPass fuel todos projectEnd m =
  passOver (dependentsOf todos) latestStartDate earlierThan projectEnd
    (latestLeaf projectEnd) latestAssign fuel todos m.
Proof.
  unfold backwardPass, passOver. apply forOf_ext. intros t m1.
  by rewrite calculateLatestTimes_traverse.
Qed.

(** *** Initialisation *)

Lemma buildMaps_snoc todos t :
  buildMaps now tz (todos ++ [t]) =
  (<[id t := initOf t]> (buildMaps now tz todos).1,
   <[id t := newSet (dependencies t)]> (buildMaps now tz todos).2).
Proof.
  unfold buildMaps. rewrite fold_left_app. simpl.
  by destruct (fold_left _ todos _).
Qed.

(** Each key holds the record and the dependency set of one supplied task
    with that id (the last one, should ids repeat). *)
Lemma buildMaps_lookup todos k :
  ((buildMaps now tz todos).1 !! k = None ∧
   (buildMaps now tz todos).2 !! k = None ∧
   ∀ t, t ∈ todos → id t ≠ k) ∨
  (∃ t, t ∈ todos ∧ id t = k ∧
        (buildMaps now tz todos).1 !! k = Some (initOf t) ∧
        (buildMaps now tz todos).2 !! k = Some (newSet (dependencies t))).
Proof.
  induction todos as [|t todos IH] using rev_ind.
  { left. split_and!; [done..|]. by intros t ?%elem_of_nil. }
  rewrite buildMaps_snoc. simpl.
  destruct (decide (id t = k)) as [<-|Hne].
  { right. exists t. rewrite !lookup_insert_eq. split_and!; [set_solver|done..]. }
  rewrite !lookup_insert_ne by done.
  destruct IH as [(H1 & H2 & H3)|(t' & Ht' & Hid & H1 & H2)].
  - left. split_and!; [done..|].
    intros t' [?|Hs%list_elem_of_singleton]%elem_of_app; [auto|by subst].
  - right. exists t'. split_and!; [set_solver|done..].
Qed.

Lemma buildMaps_size todos :
  (size (dom (buildMaps now tz todos).1) ≤ length todos)%nat.
Proof.
  induction todos as [|t todos IH] using rev_ind; [done|].
  rewrite buildMaps_snoc, length_app. simpl. rewrite dom_insert_L.
  rewrite size_union_alt, size_singleton.
  assert (size (dom (buildMaps now tz todos).1 ∖ {[id t]})
          ≤ size (dom (buildMaps now tz todos).1))%nat.
  { apply subseteq_size. set_solver. }
  lia.
Qed.

Lemma buildMaps_forwardOk todos :
  map_Forall (λ _ e, forwardOk e) (buildMaps now tz todos).1.
Proof.
  intros k e He.
  destruct (buildMaps_lookup todos k) as [(H & _)|(t & _ & _ & H & _)];
    rewrite H in He; [done|]. by simplify_eq.
Qed.

Lemma buildMaps_entryOf todos :
  map_Forall (entryOf now tz todos) (buildMaps now tz todos).1.
Proof.
  intros k e He.
  destruct (buildMaps_lookup todos k) as [(H & _)|(t & ? & ? & H & ?)];
    rewrite H in He; [done|]. by simplify_eq.
Qed.

Lemma buildMaps_unmarked todos :
  map_Forall (λ _ e, isCritical e = false ∧ criticalPath e = [])
    (buildMaps now tz todos).1.
Proof.
  intros k e He.
  destruct (buildMaps_lookup todos k) as [(H & _)|(t & ? & ? & H & _)];
    rewrite H in He; [done|]. by simplify_eq.
Qed.

(** *** The passes *)

Lemma passive_entryOf todos : passive (entryOf now tz todos).
Proof.
  intros k e0 e (Ht & Hd & _) (? & ? & ? & ?). unfold entryOf.
  rewrite Ht, Hd. done.
Qed.

Lemma passive_unmarked :
  passive (λ _ e, isCritical e = false ∧ criticalPath e = []).
Proof. intros k e0 e (_ & _ & Hc & Hi) [? ?]. split; congruence. Qed.

Lemma forwardPass_facts fuel todos graph m0 m1 :
  forwardPass now fuel todos graph m0 = Some m1 →
  dom m1 = dom m0 ∧
  (map_Forall (λ _ e, forwardOk e) m0 → map_Forall (λ _ e, forwardOk e) m1) ∧
  (∀ P, passive P → map_Forall P m0 → map_Forall P m1) ∧
  (∀ t e, t ∈ todos → m1 !! id t = Some e → is_Some (earliestFinishDate e)).
Proof.
  rewrite forwardPass_passOver. intros Hrun. split_and!.
  - by apply passOver_dom in Hrun.
  - intros H0. revert Hrun. apply passOver_local; [| |done].
    + intros. by apply forwardOk_earliestAssign.
    + intros. by apply forwardOk_earliestAssign.
  - intros P HP H0. revert Hrun. apply passOver_local; [| |done].
    + intros k e _. apply HP. apply sameTask_earliestAssign, sameTask_refl.
    + intros k a e _. apply HP. apply sameTask_earliestAssign, sameTask_refl.
  - apply (passOver_settles _ _ _ _ _ _ _ _ _ _
             (earliestAssign_sets now) earliestAssign_sets Hrun).
Qed.

Lemma backwardPass_facts fuel todos projectEnd m1 m2 :
  backwardPass fuel todos projectEnd m1 = Some m2 →
  dom m2 = dom m1 ∧
  (map_Forall (λ _ e, scheduleOk e) m1 → map_Forall (λ _ e, scheduleOk e) m2) ∧
  (∀ P, passive P → map_Forall P m1 → map_Forall P m2) ∧
  (∀ k e, m2 !! k = Some e → ∃ e1, m1 !! k = Some e1 ∧ sameEarliest e1 e) ∧
  (∀ t e, t ∈ todos → m2 !! id t = Some e → is_Some (latestStartDate e)).
Proof.
  rewrite backwardPass_passOver. intros Hrun. split_and!.
  - by apply passOver_dom in Hrun.
  - intros H0. revert Hrun. apply passOver_local; [| |done].
    + intros. by apply scheduleOk_latestAssign.
    + intros. by apply scheduleOk_latestAssign.
  - intros P HP H0. revert Hrun. apply passOver_local; [| |done].
    + intros k e _. apply HP. apply sameTask_latestAssign, sameTask_refl.
    + intros k a e _. apply HP. apply sameTask_latestAssign, sameTask_refl.
  - assert (map_Forall (λ k e, ∃ e1, m1 !! k = Some e1 ∧ sameEarliest e1 e) m2)
      as H; [|exact H].
    revert Hrun. apply passOver_local.
    + intros k e _ (e1 & ? & ?). exists e1. split; [done|].
      by apply sameEarliest_latestAssign.
    + intros k a e _ (e1 & ? & ?). exists e1. split; [done|].
      by apply sameEarliest_latestAssign.
    + intros k e He. by exists e.
  - apply (passOver_settles _ _ _ _ _ _ _ _ _ _
             (λ e, latestAssign_sets _ e) latestAssign_sets Hrun).
Qed.

(** The two runs inside [schedule]. *)
Lemma schedule_Some fuel todos m2 :
  schedule now tz fuel todos = Some m2 ↔
  ∃ m1, forwardPass now fuel todos (buildMaps now tz todos).2
          (buildMaps now tz todos).1 = Some m1 ∧
        backwardPass fuel todos (projectEndDate now todos m1) m1 = Some m2.
Proof.
  unfold schedule. destruct (buildMaps now tz todos) as [m0 graph]. simpl.
  destruct (forwardPass now fuel todos graph m0) as [m1|]; simpl.
  - split; [by exists m1|]. by intros (? & ? & ?); simplify_eq.
  - split; [done|]. by intros (? & ? & ?).
Qed.

End EngineFacts.

(** ** The critical-path trace *)

Lemma zeroSlack_is_Some m n : zeroSlack m n = true → is_Some (m !! n).
Proof. unfold zeroSlack. destruct (m !! n); [by eexists|done]. Qed.

Lemma tracePath_mono fuel fuel' m n p r :
  (fuel ≤ fuel')%nat →
  tracePath fuel m n p = Some r → tracePath fuel' m n p = Some r.
Proof.
  revert fuel' n p. induction fuel as [|fuel IH]; intros fuel' n p Hle; [done|].
  destruct fuel' as [|fuel']; [lia|]. simpl.
  destruct (m !! n) as [e|]; [|done].
  destruct (List.find _ _); [|done]. apply IH. lia.
Qed.

Lemma tracePath_traced fuel m n p r :
  tracePath fuel m n p = Some r → is_Some (m !! n) →
  ∃ q, r = q ++ p ∧ traced m n q.
Proof.
  revert n p. induction fuel as [|fuel IH]; intros n p; [done|]. simpl.
  intros Hrun [e He]. rewrite He in Hrun.
  destruct (List.find _ _) as [c|] eqn:Hfind.
  - destruct (find_some _ _ Hfind) as [_ Hz].
    destruct (IH c (n :: p) Hrun (zeroSlack_is_Some _ _ Hz)) as (q & -> & Hq).
    exists (q ++ [n]). split; [by rewrite <- app_assoc|].
    by apply (traced_step m n e c).
  - simplify_eq. exists [n]. split; [done|]. by apply (traced_stop m n e).
Qed.

Lemma traced_last m n q : traced m n q → last q = Some n.
Proof. induction 1; [done|]. by rewrite last_snoc. Qed.

Lemma traced_zeroSlack m n q x :
  traced m n q → x ∈ q → x = n ∨ zeroSlack m x = true.
Proof.
  induction 1 as [n e He Hf|n e c q He Hf Hq IH].
  - intros ->%list_elem_of_singleton. by left.
  - intros [Hx|Hx%list_elem_of_singleton]%elem_of_app; [|by left].
    right. destruct (IH Hx) as [->|]; [|done].
    by destruct (find_some _ _ Hf).
Qed.


(** Consecutive nodes of the path: the first is a dependency of the second. *)
Lemma traced_edges m n q i a b :
  traced m n q → q !! i = Some a → q !! S i = Some b →
  ∃ e, m !! b = Some e ∧ a ∈ dependencies (todo e).
Proof.
  intros Hq. revert i a b.
  induction Hq as [n e He Hf|n e c q He Hf Hq IH]; intros i a b Ha Hb.
  { by destruct i. }
  destruct (decide (S i < length q)%nat) as [Hlt|Hge].
  - rewrite lookup_app_l in Ha by lia. rewrite lookup_app_l in Hb by lia.
    by apply (IH i).
  - assert (S i = length q) as Hi.
    { apply lookup_lt_Some in Hb. rewrite length_app in Hb. simpl in Hb. lia. }
    rewrite lookup_app_l in Ha by lia.
    rewrite lookup_app_r in Hb by lia.
    rewrite Hi, Nat.sub_diag in Hb. simpl in Hb. simplify_eq.
    exists e. split; [done|].
    apply traced_last in Hq. rewrite last_lookup in Hq.
    assert (i = pred (length q)) as -> by lia.
    rewrite Hq in Ha. simplify_eq.
    destruct (find_some _ _ Hf) as [Hin _]. by apply list_elem_of_In.
Qed.

(** On an acyclic graph the trace completes: it never returns to a node. *)
Lemma tracePath_total todos fuel m n p (seen : gset Z) :
  Acyclic todos →
  (∀ k e, m !! k = Some e → todo e ∈ todos ∧ id (todo e) = k) →
  (∀ a, a ∈ seen → tc (depends todos) a n) →
  (size (dom m ∖ seen) < fuel)%nat →
  is_Some (tracePath fuel m n p).
Proof.
  intros Hacyc Hentry. revert n p seen.
  induction fuel as [|fuel IH]; intros n p seen Hseen Hsz; [lia|]. simpl.
  destruct (m !! n) as [e|] eqn:He; [|done].
  destruct (List.find _ _) as [c|] eqn:Hfind; [|done].
  destruct (find_some _ _ Hfind) as [Hin%list_elem_of_In _].
  assert (depends todos n c) as Hdep.
  { destruct (Hentry n e He) as [? ?]. by exists (todo e). }
  assert (n ∉ seen) as Hn.
  { intros H. by apply (Hacyc n), Hseen. }
  apply (IH c (n :: p) ({[n]} ∪ seen)).
  - intros a [->%elem_of_singleton|Ha]%elem_of_union; [by apply tc_once|].
    eapply tc_r; [by apply Hseen|done].
  - assert (dom m ∖ ({[n]} ∪ seen) ⊂ dom m ∖ seen) as Hsub.
    { assert (n ∈ dom m) by (apply elem_of_dom; eauto). set_solver. }
    apply subset_size in Hsub. lia.
Qed.

(** What [findCriticalPath] returns. *)
Lemma findCriticalPath_Some fuel todos m path :
  findCriticalPath fuel todos m = Some path →
  (List.filter (zeroSlack m) (endNodes todos) = [] ∧ path = []) ∨
  (∃ first rest,
     List.filter (zeroSlack m) (endNodes todos) = first :: rest ∧
     traced m first path).
Proof.
  unfold findCriticalPath.
  destruct (List.filter _ _) as [|first rest] eqn:Hf.
  - intros; simplify_eq. by left.
  - intros Hrun. right. exists first, rest. split; [done|].
    assert (zeroSlack m first = true) as Hz.
    { assert (In first (List.filter (zeroSlack m) (endNodes todos))) as Hin
        by (rewrite Hf; by left).
      by apply filter_In in Hin as [_ ?]. }
    destruct (tracePath_traced _ _ _ _ _ Hrun (zeroSlack_is_Some _ _ Hz))
      as (q & -> & Hq).
    by rewrite app_nil_r.
Qed.

Lemma findCriticalPath_mono fuel fuel' todos m r :
  (fuel ≤ fuel')%nat →
  findCriticalPath fuel todos m = Some r →
  findCriticalPath fuel' todos m = Some r.
Proof.
  intros Hle. unfold findCriticalPath.
  destruct (List.filter _ _); [done|]. by apply tracePath_mono.
Qed.

(** There is a zero-slack sink iff the filter of [findCriticalPath] keeps
    a node. *)
Lemma criticalEndNodes_nil todos m :
  List.filter (zeroSlack m) (endNodes todos) = [] ↔
  ∀ t, t ∈ todos → dependents t = [] → zeroSlack m (id t) = false.
Proof.
  split.
  - intros Hnil t Ht Hd.
    destruct (zeroSlack m (id t)) eqn:Hz; [|done].
    assert (In (id t) (List.filter (zeroSlack m) (endNodes todos))) as Hin.
    { apply filter_In. split; [|done]. apply list_elem_of_In.
      unfold endNodes. apply list_elem_of_fmap_2.
      by apply list_elem_of_filter. }
    by rewrite Hnil in Hin.
  - intros H. destruct (List.filter _ _) as [|x l] eqn:Hf; [done|].
    assert (In x (List.filter (zeroSlack m) (endNodes todos))) as Hin
      by (rewrite Hf; by left).
    apply filter_In in Hin as [Hin%list_elem_of_In Hz].
    unfold endNodes in Hin.
    apply list_elem_of_fmap in Hin as (t & -> & [Hd Ht]%list_elem_of_filter).
    by rewrite (H t Ht Hd) in Hz.
Qed.

(** *** Marking *)

Lemma markCritical_fold p l (m : gmap Z TodoWithCriticalPath) k :
  fold_left (λ m n, alter (set_critical p) n m) l m !! k =
  if decide (k ∈ l) then set_critical p <$> m !! k else m !! k.
Proof.
  revert m. induction l as [|n l IH]; intros m; simpl; [done|].
  rewrite IH, lookup_alter.
  destruct (decide (n = k)) as [->|Hne].
  - rewrite (decide_True (P := k ∈ k :: l)) by left.
    destruct (decide (k ∈ l)); [|done].
    destruct (m !! k); [|done]. done.
  - destruct (decide (k ∈ l)) as [Hin|Hin].
    + rewrite decide_True; [done|]. by right.
    + rewrite decide_False; [done|].
      intros [?|?]%elem_of_cons; [congruence|done].
Qed.

Lemma markCritical_lookup path m k :
  markCritical path m !! k =
  if decide (k ∈ path) then set_critical path <$> m !! k else m !! k.
Proof. apply markCritical_fold. Qed.

(** ** Durations *)

Lemma msPerDay_pos : 0 < msPerDay.
Proof. done. Qed.

(** [Math.ceil] of the quotient is integer ceiling division. *)
Lemma ceilDiv_msPerDay x : ceilDiv x msPerDay = - ((- x) / msPerDay).
Proof.
  unfold ceilDiv, Qceiling, Qfloor. change msPerDay with 86400000. simpl.
  by rewrite Z.mul_1_r.
Qed.

(** The ceiling [c] of [x] days: [c - 1 < x / msPerDay ≤ c]. *)
Lemma ceilDiv_bounds x :
  (ceilDiv x msPerDay - 1) * msPerDay < x ≤ ceilDiv x msPerDay * msPerDay.
Proof.
  rewrite ceilDiv_msPerDay. pose proof msPerDay_pos as Hpos.
  pose proof (Z.div_mod (- x) msPerDay) as Hdm.
  pose proof (Z.mod_pos_bound (- x) msPerDay Hpos). lia.
Qed.

(** Local midnight is the start of the local day. *)
Lemma setHours0_floor tz t :
  setHours0 tz t = (t + tz) / msPerDay * msPerDay - tz.
Proof.
  unfold setHours0. pose proof msPerDay_pos.
  pose proof (Z.div_mod (t + tz) msPerDay). lia.
Qed.

Lemma setHours0_mono tz a b : a ≤ b → setHours0 tz a ≤ setHours0 tz b.
Proof.
  intros Hab. rewrite !setHours0_floor. pose proof msPerDay_pos.
  assert ((a + tz) / msPerDay ≤ (b + tz) / msPerDay)
    by (apply Z.div_le_mono; lia).
  nia.
Qed.

Lemma calculateDuration_pos now tz d : 1 ≤ calculateDuration now tz d.
Proof. destruct d; simpl; lia. Qed.

(** Local midnight: the start of the day of local time that holds the
    date. *)
Lemma setHours0_midnight tz x :
  setHours0 tz x ≤ x < setHours0 tz x + msPerDay ∧
  (setHours0 tz x + tz) mod msPerDay = 0.
Proof.
  unfold setHours0. pose proof msPerDay_pos as Hpos.
  pose proof (Z.mod_pos_bound (x + tz) msPerDay Hpos).
  split; [lia|].
  replace (x - (x + tz) mod msPerDay + tz)
    with ((x + tz) - (x + tz) mod msPerDay) by lia.
  rewrite Zminus_mod_idemp_r, Z.sub_diag. done.
Qed.

(** It is the only such instant. *)
Lemma setHours0_unique tz x m :
  m ≤ x < m + msPerDay → (m + tz) mod msPerDay = 0 → m = setHours0 tz x.
Proof.
  intros Hm Hmod. rewrite setHours0_floor. pose proof msPerDay_pos as Hpos.
  apply Z.mod_divide in Hmod as [q Hq]; [|lia].
  assert ((x + tz) / msPerDay = q) as ->; [|lia].
  symmetry. apply Z.div_unique_pos with (r := x - m); lia.
Qed.

(** C5. [calculateDuration] returns 1 for an absent due date. For a due
    date [d] it takes the local midnights of [d] and of today, [setHours0],
    which is the instant at or before the date, less than a day before it,
    at which local time is a whole number of days; whatever instants [md]
    and [mn] are these midnights, the result is the ceiling [c] of the
    number of days from [mn] to [md], raised to at least 1. Hence a due date
    in the past ([d ≤ now]) or on today's date yields 1, and the result is
    never zero or negative. *)
Theorem calculateDuration_spec now tz :
  calculateDuration now tz None = 1 ∧
  (∀ x, setHours0 tz x ≤ x < setHours0 tz x + msPerDay ∧
        (setHours0 tz x + tz) mod msPerDay = 0) ∧
  (∀ d md mn c,
     md ≤ d < md + msPerDay → (md + tz) mod msPerDay = 0 →
     mn ≤ now < mn + msPerDay → (mn + tz) mod msPerDay = 0 →
     (c - 1) * msPerDay < md - mn ≤ c * msPerDay →
     calculateDuration now tz (Some d) = Z.max 1 c) ∧
  (∀ d, ∃ c,
     calculateDuration now tz (Some d) = Z.max 1 c ∧
     (c - 1) * msPerDay < setHours0 tz d - setHours0 tz now ≤ c * msPerDay) ∧
  (∀ d, d ≤ now → calculateDuration now tz (Some d) = 1) ∧
  (∀ d, setHours0 tz d = setHours0 tz now →
        calculateDuration now tz (Some d) = 1) ∧
  (∀ d, 1 ≤ calculateDuration now tz d).
Proof.
  split_and!.
  - done.
  - apply setHours0_midnight.
  - intros d md mn c Hd Hdm Hn Hnm Hc. simpl.
    rewrite <- (setHours0_unique tz d md), <- (setHours0_unique tz now mn)
      by done.
    pose proof (ceilDiv_bounds (md - mn)). pose proof msPerDay_pos.
    f_equal. nia.
  - intros d. exists (ceilDiv (setHours0 tz d - setHours0 tz now) msPerDay).
    split; [done|]. apply ceilDiv_bounds.
  - intros d Hd. simpl. apply (setHours0_mono tz) in Hd.
    pose proof (ceilDiv_bounds (setHours0 tz d - setHours0 tz now)).
    pose proof msPerDay_pos. nia.
  - intros d Hd. simpl. rewrite Hd, Z.sub_diag. done.
  - apply calculateDuration_pos.
Qed.

(** ** The candidate filter *)

(** Both branches of the cycle test keep the candidate: with an id to
    exclude, the filter removes that task and nothing else. *)
Lemma getAvailableDependencies_keeps fuel todos x r :
  x ≠ 0 →
  getAvailableDependencies fuel todos (Some x) = Some r →
  r = filter (λ t, id t ≠ x) todos.
Proof.
  intros Hx. unfold getAvailableDependencies.
  rewrite (bool_decide_eq_true_2 (x ≠ 0)) by done. simpl.
  generalize (wouldCreateCycle fuel todos x) as test. intros test.
  revert r. induction todos as [|t todos IH]; intros r; simpl.
  { by intros; simplify_eq. }
  destruct (filterM _ todos) as [rest|]; simpl.
  2:{ destruct (bool_decide (id t = x)); simpl; [done|].
      by destruct (test (id t)) as [[|]|]. }
  specialize (IH rest eq_refl). subst rest.
  destruct (decide (id t = x)) as [He|Hne].
  - rewrite (bool_decide_eq_true_2 _ He). simpl.
    intros; simplify_eq. by rewrite filter_cons_False by tauto.
  - rewrite (bool_decide_eq_false_2 _ Hne). simpl.
    destruct (test (id t)) as [[|]|]; simpl; [| |done].
    + intros; simplify_eq. by rewrite filter_cons_True by done.
    + intros; simplify_eq. by rewrite filter_cons_True by done.
Qed.

(** C1, evaluated on the code. [taskW] depends on [taskX] directly and
    [taskY] depends on it through [taskW], so adding either to the
    dependencies of [taskX] closes a cycle; the list offered for [taskX]
    contains both. The cycle test itself, asked about [taskX] and the
    candidate [taskY], follows the dependencies of [taskX] and answers
    false. *)
Theorem getAvailableDependencies_offers_cycle :
  tc (depends [taskX; taskY; taskW]) (id taskW) (id taskX) ∧
  tc (depends [taskX; taskY; taskW]) (id taskY) (id taskX) ∧
  getAvailableDependencies 4 [taskX; taskY; taskW] (Some (id taskX))
  = Some [taskY; taskW] ∧
  wouldCreateCycle 4 [taskX; taskY; taskW] (id taskX) (id taskY) = Some false.
Proof.
  assert (depends [taskX; taskY; taskW] 3 1) as Hw.
  { exists taskW. split_and!; [|done|]; by repeat constructor. }
  assert (depends [taskX; taskY; taskW] 2 3) as Hy.
  { exists taskY. split_and!; [|done|]; by repeat constructor. }
  split_and!; [by apply tc_once| |reflexivity..].
  eapply tc_l; [exact Hy|by apply tc_once].
Qed.

(** ** The schedule *)

Section ScheduleFacts.

Variables now tz : Z.

Lemma calculateCriticalPath_Some fuel todos m :
  calculateCriticalPath now tz fuel todos = Some m ↔
  ∃ m2 path, schedule now tz fuel todos = Some m2 ∧
             findCriticalPath fuel todos m2 = Some path ∧
             m = markCritical path m2.
Proof.
  unfold calculateCriticalPath.
  destruct (schedule now tz fuel todos) as [m2|]; simpl.
  2:{ split; [done|]. by intros (? & ? & ? & _). }
  destruct (findCriticalPath fuel todos m2) as [path|] eqn:Hf; simpl.
  - split.
    + intros; simplify_eq. by exists m2, path.
    + intros (m0 & p0 & ? & ? & ->). by simplify_eq.
  - split; [done|]. intros (m0 & p0 & ? & ? & _). by simplify_eq.
Qed.

(** What holds of every record when the two passes are done. *)
Lemma schedule_facts fuel todos m2 k e :
  schedule now tz fuel todos = Some m2 →
  m2 !! k = Some e →
  scheduleOk e ∧ entryOf now tz todos k e ∧
  isCritical e = false ∧ criticalPath e = [] ∧ allSet e.
Proof.
  intros (m1 & Hfwd & Hbwd)%schedule_Some He.
  apply forwardPass_facts in Hfwd as (Hd1 & Hok1 & Hp1 & Hs1).
  apply backwardPass_facts in Hbwd as (Hd2 & Hok2 & Hp2 & He2 & Hs2).
  specialize (Hok1 (buildMaps_forwardOk now tz todos)).
  assert (map_Forall (λ _ e, scheduleOk e) m1) as Hok1'.
  { intros j e1 Hj. by apply forwardOk_scheduleOk, (Hok1 j). }
  assert (scheduleOk e) as Hok by (by apply (Hok2 Hok1' k)).
  assert (entryOf now tz todos k e) as Hent.
  { apply (Hp2 _ (passive_entryOf now tz todos)); [|done].
    apply (Hp1 _ (passive_entryOf now tz todos)), buildMaps_entryOf. }
  assert (isCritical e = false ∧ criticalPath e = []) as [Hc1 Hc2].
  { apply (Hp2 _ passive_unmarked) with (i := k); [|done].
    apply (Hp1 _ passive_unmarked), buildMaps_unmarked. }
  split_and!; try done.
  destruct Hent as (Ht & Hid & _). subst k.
  destruct (He2 _ _ He) as (e1 & He1 & Hes & Hef).
  pose proof (Hs1 _ _ Ht He1) as Hef1.
  pose proof (Hs2 _ _ Ht He) as Hls.
  destruct Hok as (Hea & Hla & _). unfold earliestOk, latestOk in *.
  rewrite <- Hef in Hef1. destruct Hef1 as [ef Hef1], Hls as [ls Hls].
  rewrite Hef1 in Hea. rewrite Hls in Hla.
  unfold allSet. rewrite Hef1, Hls.
  destruct (earliestStartDate e); [|done]. destruct (latestFinishDate e); [|done].
  split_and!; by eexists.
Qed.

(** With fuel beyond the number of tasks the two passes complete, on every
    task list. *)
Lemma schedule_total fuel todos :
  (length todos < fuel)%nat → is_Some (schedule now tz fuel todos).
Proof.
  intros Hfuel.
  pose proof (buildMaps_size now tz todos) as Hsz.
  destruct (passOver_total (forwardNeighbours (buildMaps now tz todos).2)
              earliestFinishDate laterThan 0 (earliestAssign now)
              earliestAssign fuel todos (buildMaps now tz todos).1)
    as [m1 Hfwd]; [lia|].
  rewrite <- forwardPass_passOver in Hfwd.
  destruct (passOver_total (dependentsOf todos) latestStartDate earlierThan
              (projectEndDate now todos m1)
              (latestLeaf (projectEndDate now todos m1)) latestAssign
              fuel todos m1) as [m2 Hbwd].
  { apply forwardPass_facts in Hfwd as (-> & _). lia. }
  rewrite <- backwardPass_passOver in Hbwd.
  exists m2. apply schedule_Some. by exists m1.
Qed.

Lemma schedule_mono fuel fuel' todos m2 :
  (fuel ≤ fuel')%nat →
  schedule now tz fuel todos = Some m2 → schedule now tz fuel' todos = Some m2.
Proof.
  intros Hle (m1 & Hfwd & Hbwd)%schedule_Some.
  apply schedule_Some. exists m1. split.
  - rewrite forwardPass_passOver in *. by apply (passOver_mono _ _ _ _ _ _ fuel).
  - rewrite backwardPass_passOver in *. by apply (passOver_mono _ _ _ _ _ _ fuel).
Qed.

Lemma calculateCriticalPath_mono fuel fuel' todos m :
  (fuel ≤ fuel')%nat →
  calculateCriticalPath now tz fuel todos = Some m →
  calculateCriticalPath now tz fuel' todos = Some m.
Proof.
  intros Hle (m2 & path & Hs & Hf & ->)%calculateCriticalPath_Some.
  apply calculateCriticalPath_Some. exists m2, path. split_and!; [| |done].
  - by apply (schedule_mono fuel).
  - by apply (findCriticalPath_mono fuel).
Qed.


End ScheduleFacts.

(** ** The critical path and its marks *)

Section CriticalPathFacts.

Variables now tz : Z.

Lemma schedule_dom fuel todos m2 :
  schedule now tz fuel todos = Some m2 →
  dom m2 = dom (buildMaps now tz todos).1.
Proof.
  intros (m1 & Hfwd & Hbwd)%schedule_Some.
  apply forwardPass_facts in Hfwd as (Hd1 & _).
  apply backwardPass_facts in Hbwd as (Hd2 & _). congruence.
Qed.

Lemma zeroSlack_markCritical path m k :
  zeroSlack (markCritical path m) k = zeroSlack m k.
Proof.
  unfold zeroSlack. rewrite markCritical_lookup.
  destruct (decide (k ∈ path)); [|done]. by destruct (m !! k).
Qed.

Lemma zeroSlack_Qeq m k :
  zeroSlack m k = true ↔ ∃ e, m !! k = Some e ∧ (slack e == 0)%Q.
Proof.
  unfold zeroSlack. destruct (m !! k) as [e|].
  - rewrite Qeq_bool_iff. split; [by exists e|]. by intros (? & ? & ?); simplify_eq.
  - split; [done|]. by intros (? & ? & _).
Qed.

(** On an acyclic task list, with fuel beyond the number of tasks, the whole
    run completes. *)
Lemma calculateCriticalPath_total fuel todos :
  Acyclic todos → (length todos < fuel)%nat →
  is_Some (calculateCriticalPath now tz fuel todos).
Proof.
  intros Hacyc Hfuel.
  destruct (schedule_total now tz fuel todos Hfuel) as [m2 Hs].
  assert (is_Some (findCriticalPath fuel todos m2)) as [path Hp].
  { unfold findCriticalPath. destruct (List.filter _ _) as [|first rest]; [done|].
    apply (tracePath_total todos _ _ _ _ ∅); [done| | |].
    - intros k e He.
      by destruct (schedule_facts _ _ _ _ _ _ _ Hs He) as (_ & (? & ? & _) & _).
    - set_solver.
    - rewrite (schedule_dom _ _ _ Hs).
      pose proof (buildMaps_size now tz todos).
      replace (dom (buildMaps now tz todos).1 ∖ ∅)
        with (dom (buildMaps now tz todos).1) by set_solver.
      lia. }
  eexists. apply calculateCriticalPath_Some. by exists m2, path.
Qed.

(** When the trace completes, [findCriticalPath] has returned a path on the
    scheduled map. If no task with an empty dependents list has slack 0,
    the path is empty and no task is marked critical. Otherwise the path is
    not empty, each node in it is a direct dependency of the next, every
    node in it has slack 0, and the tasks with [isCritical = true] are
    exactly those of the path, each with [criticalPath] set to the whole
    path. On an acyclic task list the trace does complete. *)
Lemma completed_trace_spec fuel todos :
  (∀ m, calculateCriticalPath now tz fuel todos = Some m →
     ∃ m2 path,
       schedule now tz fuel todos = Some m2 ∧
       findCriticalPath fuel todos m2 = Some path ∧
       ((∀ t, t ∈ todos → dependents t = [] → zeroSlack m (id t) = false) →
        path = [] ∧ ∀ k e, m !! k = Some e → isCritical e = false) ∧
       ((∃ t, t ∈ todos ∧ dependents t = [] ∧ zeroSlack m (id t) = true) →
        path ≠ [] ∧
        (∀ i a b, path !! i = Some a → path !! S i = Some b →
                  depends todos b a) ∧
        (∀ k, k ∈ path → ∃ e, m !! k = Some e ∧ (slack e == 0)%Q) ∧
        (∀ k e, m !! k = Some e →
                (isCritical e = true ↔ k ∈ path) ∧
                (k ∈ path → criticalPath e = path)))) ∧
  (Acyclic todos → (length todos < fuel)%nat →
   is_Some (calculateCriticalPath now tz fuel todos)).
Proof.
  split; [|apply calculateCriticalPath_total].
  intros m (m2 & path & Hs & Hp & ->)%calculateCriticalPath_Some.
  exists m2, path. split_and!; [done..| |].
  - intros Hnone.
    assert (path = []) as ->.
    { apply findCriticalPath_Some in Hp as [[_ ->]|(first & rest & Hf & _)];
        [done|].
      assert (List.filter (zeroSlack m2) (endNodes todos) = []) as Hnil.
      { apply criticalEndNodes_nil. intros t Ht Hd.
        rewrite <- (zeroSlack_markCritical path). by apply Hnone. }
      congruence. }
    split; [done|]. intros k e He. unfold markCritical in He. simpl in He.
    by destruct (schedule_facts _ _ _ _ _ _ _ Hs He) as (_ & _ & ? & _).
  - intros (t & Ht & Hd & Hz). rewrite zeroSlack_markCritical in Hz.
    apply findCriticalPath_Some in Hp as [[Hnil _]|(first & rest & Hf & Htr)].
    { rewrite criticalEndNodes_nil in Hnil. by rewrite (Hnil t Ht Hd) in Hz. }
    assert (zeroSlack m2 first = true) as Hz1.
    { assert (In first (List.filter (zeroSlack m2) (endNodes todos))) as Hin
        by (rewrite Hf; by left).
      by apply filter_In in Hin as [_ ?]. }
    split_and!.
    + apply traced_last in Htr. by destruct path.
    + intros i a b Ha Hb.
      destruct (traced_edges _ _ _ _ _ _ Htr Ha Hb) as (e & He & Hin).
      destruct (schedule_facts _ _ _ _ _ _ _ Hs He) as (_ & (? & ? & _) & _).
      by exists (todo e).
    + intros k Hk. apply zeroSlack_Qeq. rewrite zeroSlack_markCritical.
      by destruct (traced_zeroSlack _ _ _ _ Htr Hk) as [->|].
    + intros k e. rewrite markCritical_lookup.
      destruct (decide (k ∈ path)) as [Hin|Hin].
      * destruct (m2 !! k); simpl; [|done]. intros; simplify_eq. done.
      * intros He.
        destruct (schedule_facts _ _ _ _ _ _ _ Hs He) as (_ & _ & Hc & _).
        rewrite Hc. split; [|done]. split; [done|]. intros; done.
Qed.


End CriticalPathFacts.

(** ** Every supplied task is scheduled *)

Section RunFacts.

Variables now tz : Z.

Lemma schedule_lookup fuel todos m2 t :
  schedule now tz fuel todos = Some m2 → t ∈ todos →
  ∃ e, m2 !! id t = Some e ∧ allSet e.
Proof.
  intros Hs Ht.
  assert (is_Some (m2 !! id t)) as [e He].
  { apply elem_of_dom. rewrite (schedule_dom _ _ _ _ _ Hs). apply elem_of_dom.
    destruct (buildMaps_lookup now tz todos (id t))
      as [(_ & _ & H)|(t' & _ & _ & -> & _)]; [|by eexists].
    by destruct (H t Ht). }
  exists e. split; [done|].
  by destruct (schedule_facts _ _ _ _ _ _ _ Hs He) as (_ & _ & _ & _ & ?).
Qed.

End RunFacts.

(** ** Degenerate inputs *)

Section Degenerate.

Variables now tz : Z.







End Degenerate.


(** ** Sources, sinks and precedence *)

Lemma tc_flip {A : Type} (R R' : relation A) x y :
  (∀ a b, R a b → R' b a) → tc R x y → tc R' y x.
Proof.
  intros HR. induction 1 as [x y Hxy|x y z Hxy _ IH].
  - by apply tc_once, HR.
  - eapply tc_r; [exact IH|by apply HR].
Qed.

Lemma dependentsOf_depends todos k n :
  n ∈ dependentsOf todos k ↔ depends todos n k.
Proof.
  unfold dependentsOf, depends. rewrite list_elem_of_fmap. split.
  - intros (t & -> & [? ?]%list_elem_of_filter). exists t. by split_and!.
  - intros (t & ? & <- & ?). exists t. split; [done|].
    by apply list_elem_of_filter.
Qed.

Lemma accOf_cons field better m n ns a :
  accOf field better m (n :: ns) a
  = accOf field better m ns (pickOf field better m n a).
Proof. done. Qed.

(** The accumulator of the forward loop is the maximum of its start value
    and the finish dates it reads. *)
Lemma accOf_laterThan m ns a :
  a ≤ accOf earliestFinishDate laterThan m ns a ∧
  ∀ n f, n ∈ ns → m !! n ≫= earliestFinishDate = Some f →
         f ≤ accOf earliestFinishDate laterThan m ns a.
Proof.
  revert a. induction ns as [|n ns IH]; intros a.
  { split; [done|]. by intros n f ?%elem_of_nil. }
  rewrite accOf_cons.
  destruct (IH (pickOf earliestFinishDate laterThan m n a)) as [H1 H2].
  assert (a ≤ pickOf earliestFinishDate laterThan m n a ∧
          ∀ f, m !! n ≫= earliestFinishDate = Some f →
               f ≤ pickOf earliestFinishDate laterThan m n a) as [H3 H4].
  { unfold pickOf, laterThan. destruct (m !! n ≫= earliestFinishDate) as [f|].
    - case_bool_decide; split; try lia; intros; simplify_eq; lia.
    - split; [lia|done]. }
  split; [lia|].
  intros n' f [->|Hin]%elem_of_cons Hf.
  - specialize (H4 f Hf). lia.
  - by apply (H2 n').
Qed.

(** The accumulator of the backward loop is the minimum of its start value
    and the start dates it reads. *)
Lemma accOf_earlierThan m ns a :
  accOf latestStartDate earlierThan m ns a ≤ a ∧
  ∀ n f, n ∈ ns → m !! n ≫= latestStartDate = Some f →
         accOf latestStartDate earlierThan m ns a ≤ f.
Proof.
  revert a. induction ns as [|n ns IH]; intros a.
  { split; [done|]. by intros n f ?%elem_of_nil. }
  rewrite accOf_cons.
  destruct (IH (pickOf latestStartDate earlierThan m n a)) as [H1 H2].
  assert (pickOf latestStartDate earlierThan m n a ≤ a ∧
          ∀ f, m !! n ≫= latestStartDate = Some f →
               pickOf latestStartDate earlierThan m n a ≤ f) as [H3 H4].
  { unfold pickOf, earlierThan. destruct (m !! n ≫= latestStartDate) as [f|].
    - case_bool_decide; split; try lia; intros; simplify_eq; lia.
    - split; [lia|done]. }
  split; [lia|].
  intros n' f [->|Hin]%elem_of_cons Hf.
  - specialize (H4 f Hf). lia.
  - by apply (H2 n').
Qed.

Section BoundaryFacts.

Variables now tz : Z.

Lemma projectEndDate_ext todos m m' :
  (∀ t, t ∈ todos →
        m !! id t ≫= earliestFinishDate = m' !! id t ≫= earliestFinishDate) →
  projectEndDate now todos m = projectEndDate now todos m'.
Proof.
  unfold projectEndDate. generalize now as acc.
  induction todos as [|t todos IH]; intros acc Hext; simpl; [done|].
  rewrite (Hext t) by left. apply IH. intros; apply Hext. by right.
Qed.

(** The record a marked map holds differs from the scheduled one in the two
    marks only. *)
Lemma markCritical_fields path m2 k e :
  markCritical path m2 !! k = Some e →
  ∃ e2, m2 !! k = Some e2 ∧ todo e = todo e2 ∧ duration e = duration e2 ∧
        earliestStartDate e = earliestStartDate e2 ∧
        earliestFinishDate e = earliestFinishDate e2 ∧
        latestStartDate e = latestStartDate e2 ∧
        latestFinishDate e = latestFinishDate e2 ∧ slack e = slack e2.
Proof.
  rewrite markCritical_lookup. destruct (decide (k ∈ path)).
  - destruct (m2 !! k) as [e2|]; simpl; [|done]. intros; simplify_eq.
    by exists e2.
  - intros. by exists e.
Qed.

Lemma markCritical_finish path m2 k :
  markCritical path m2 !! k ≫= earliestFinishDate
  = m2 !! k ≫= earliestFinishDate.
Proof.
  rewrite markCritical_lookup. destruct (decide (k ∈ path)); [|done].
  by destruct (m2 !! k).
Qed.

Lemma acyclic_forward todos :
  Acyclic todos →
  ∀ x, ¬ tc (edge (forwardNeighbours (buildMaps now tz todos).2)) x x.
Proof.
  intros Hacyc x Hx. apply (Hacyc x).
  apply (tc_congruence (λ z, z) (depends todos)) in Hx; [done|].
  intros k n. unfold edge, forwardNeighbours.
  destruct (buildMaps_lookup now tz todos k)
    as [(_ & -> & _)|(t & Ht & Hid & _ & ->)]; simpl.
  - by intros ?%elem_of_nil.
  - rewrite elem_of_newSet. intros Hn. exists t. by split_and!.
Qed.

Lemma acyclic_backward todos :
  Acyclic todos → ∀ x, ¬ tc (edge (dependentsOf todos)) x x.
Proof.
  intros Hacyc x Hx. apply (Hacyc x).
  apply (tc_flip _ (depends todos)) in Hx; [done|].
  intros k n. unfold edge. by rewrite dependentsOf_depends.
Qed.

(** After the forward pass a task without dependencies starts at the
    reference time; on an acyclic list, no task starts before a dependency
    has finished. *)
Lemma forwardPass_schedule fuel todos m1 :
  forwardPass now fuel todos (buildMaps now tz todos).2
    (buildMaps now tz todos).1 = Some m1 →
  ∀ k e, m1 !! k = Some e →
    (dependencies (todo e) = [] → earliestStartDate e = Some now) ∧
    (Acyclic todos →
     ∀ kb eb, kb ∈ dependencies (todo e) → m1 !! kb = Some eb →
       ∃ es ef, earliestStartDate e = Some es ∧
                earliestFinishDate eb = Some ef ∧ ef ≤ es).
Proof.
  intros Hfwd k e He.
  pose proof (forwardPass_facts _ _ _ _ _ _ Hfwd) as (Hd1 & _ & Hp1 & Hs1).
  destruct (Hp1 _ (passive_entryOf now tz todos)
              (buildMaps_entryOf now tz todos) k e He) as (Ht & Hid & _ & Hg).
  assert (is_Some (earliestFinishDate e)) as Hset.
  { apply (Hs1 (todo e) e Ht). by rewrite Hid. }
  assert (∀ j e0, (buildMaps now tz todos).1 !! j = Some e0 →
                  earliestFinishDate e0 = None) as Hinit.
  { intros j e0 He0.
    destruct (buildMaps_lookup now tz todos j) as [(H & _)|(t' & _ & _ & H & _)];
      rewrite H in He0; [done|]. by simplify_eq. }
  rewrite forwardPass_passOver in Hfwd. split.
  - intros Hdeps.
    assert (map_Forall (λ j e, j = k → is_Some (earliestFinishDate e) →
                               earliestStartDate e = Some now) m1) as HP.
    { revert Hfwd. apply passOver_local.
      - done.
      - intros j a e1 Hj _ ->. destruct Hj. unfold forwardNeighbours.
        by rewrite Hg, Hdeps.
      - intros j e0 He0 _ [? Hsome]. rewrite (Hinit j e0 He0) in Hsome. done. }
    by apply (HP k e).
  - intros Hacyc kb eb Hkb Heb.
    assert (Stable (forwardNeighbours (buildMaps now tz todos).2)
              earliestFinishDate laterThan 0 (earliestAssign now)
              earliestAssign m1) as Hst.
    { revert Hfwd. apply passOver_stable;
        [apply earliestAssign_sets|apply earliestAssign_sets|
         apply earliestAssign_idem|apply earliestAssign_idem|
         by apply acyclic_forward|].
      intros j e0 He0 [? Hsome]. rewrite (Hinit j e0 He0) in Hsome. done. }
    destruct (Hst k e He Hset) as [Hcl Hfix].
    assert (kb ∈ forwardNeighbours (buildMaps now tz todos).2 k) as Hin.
    { unfold forwardNeighbours. rewrite Hg. simpl. by apply elem_of_newSet. }
    destruct (Hcl kb eb Hin Heb) as [ef Hef].
    unfold visitOf in Hfix.
    destruct (forwardNeighbours (buildMaps now tz todos).2 k)
      as [|n ns] eqn:Hns; [by apply elem_of_nil in Hin|].
    exists (accOf earliestFinishDate laterThan m1 (n :: ns) 0), ef.
    split_and!; [by rewrite <- Hfix|done|].
    apply (proj2 (accOf_laterThan m1 (n :: ns) 0) kb); [done|].
    by rewrite Heb.
Qed.

(** After the backward pass a task without dependents finishes at its due
    date, or at the project end; on an acyclic list, every task finishes
    before any task that depends on it has to start. *)
Lemma backwardPass_schedule fuel todos projectEnd m1 m2 :
  backwardPass fuel todos projectEnd m1 = Some m2 →
  (∀ k e, m1 !! k = Some e → latestStartDate e = None) →
  ∀ t e, t ∈ todos → m2 !! id t = Some e →
    (dependentsOf todos (id t) = [] →
     latestFinishDate e = Some (default projectEnd (dueDate (todo e)))) ∧
    (Acyclic todos → ∀ kb eb, kb ∈ dependencies t → m2 !! kb = Some eb →
       is_Some (latestStartDate eb) →
       ∃ ls lf, latestStartDate e = Some ls ∧
                latestFinishDate eb = Some lf ∧ lf ≤ ls).
Proof.
  intros Hbwd Hinit t e Ht He.
  pose proof (backwardPass_facts _ _ _ _ _ Hbwd) as (Hd2 & _ & Hp2 & _ & Hs2).
  pose proof (Hs2 t e Ht He) as Hset.
  rewrite backwardPass_passOver in Hbwd. split.
  - intros Hnone.
    assert (map_Forall (λ k e, k = id t → is_Some (latestStartDate e) →
              latestFinishDate e
              = Some (default projectEnd (dueDate (todo e)))) m2) as HP.
    { revert Hbwd. apply passOver_local.
      - intros k e1 _ _ _ _. unfold latestLeaf, latestAssign, updateSlack.
        simpl. by destruct (earliestStartDate e1).
      - intros k a e1 Hk _ ->. by destruct Hk.
      - intros k e0 He0 _ [? Hsome]. rewrite (Hinit k e0 He0) in Hsome. done. }
    by apply (HP (id t) e).
  - intros Hacyc kb eb Hkb Heb Hsetb.
    assert (Stable (dependentsOf todos) latestStartDate earlierThan projectEnd
              (latestLeaf projectEnd) latestAssign m2) as Hst.
    { revert Hbwd. apply passOver_stable;
        [intros; apply latestAssign_sets|apply latestAssign_sets|
         apply latestLeaf_idem|apply latestAssign_idem|
         by apply acyclic_backward|].
      intros k e0 He0 [? Hsome]. rewrite (Hinit k e0 He0) in Hsome. done. }
    destruct (Hst kb eb Heb Hsetb) as [_ Hfix].
    assert (id t ∈ dependentsOf todos kb) as Hin.
    { apply dependentsOf_depends. exists t. by split_and!. }
    destruct Hset as [ls Hls].
    unfold visitOf in Hfix.
    destruct (dependentsOf todos kb) as [|n ns] eqn:Hns;
      [by apply elem_of_nil in Hin|].
    exists ls, (accOf latestStartDate earlierThan m2 (n :: ns) projectEnd).
    split_and!; [done| |].
    + rewrite <- Hfix. unfold latestAssign, updateSlack. simpl.
      by destruct (earliestStartDate eb).
    + apply (proj2 (accOf_earlierThan m2 (n :: ns) projectEnd) (id t));
        [done|]. by rewrite He.
Qed.

End BoundaryFacts.

Section PrecedenceFacts.

Variables now tz : Z.


End PrecedenceFacts.

(** * Further properties *)

Section MoreEngineFacts.

Variables now tz : Z.

(** ** The records of the returned map *)






(** ** The project end date *)

Lemma projectEndDate_fold todos (m : gmap Z TodoWithCriticalPath) a :
  let p :=
    fold_left
      (λ projectEndDate t,
         match m !! id t ≫= earliestFinishDate with
         | Some f => if bool_decide (projectEndDate < f) then f
                     else projectEndDate
         | None => projectEndDate
         end)
      todos a in
  a ≤ p ∧
  (∀ t f, t ∈ todos → m !! id t ≫= earliestFinishDate = Some f → f ≤ p) ∧
  (p = a ∨ ∃ t, t ∈ todos ∧ m !! id t ≫= earliestFinishDate = Some p).
Proof.
  revert a. induction todos as [|t todos IH]; intros a; simpl.
  { split_and!; [done| |by left]. by intros t f ?%elem_of_nil. }
  set (a' := match m !! id t ≫= earliestFinishDate with
             | Some f => if bool_decide (a < f) then f else a
             | None => a
             end).
  destruct (IH a') as (H1 & H2 & H3).
  assert (a ≤ a' ∧
          (∀ f, m !! id t ≫= earliestFinishDate = Some f → f ≤ a') ∧
          (a' = a ∨ m !! id t ≫= earliestFinishDate = Some a'))
    as (Ha & Hf & Hor).
  { subst a'. destruct (m !! id t ≫= earliestFinishDate) as [f|].
    - case_bool_decide; split_and!; try lia; try (by right); try (by left);
        intros; simplify_eq; lia.
    - split_and!; [lia|done|by left]. }
  split_and!.
  - lia.
  - intros t' f [->|Hin]%elem_of_cons Hl.
    + specialize (Hf f Hl). lia.
    + by apply (H2 t').
  - destruct H3 as [->|(t' & Ht' & Hp)].
    + destruct Hor as [->|Hor]; [by left|].
      right. exists t. split; [by left|done].
    + right. exists t'. split; [by right|done].
Qed.

(** X2. The project end date is the latest of the reference time and the
    earliest finish dates of the tasks: it is not before the reference time,
    no task of the list finishes after it, and it is the reference time
    itself or the earliest finish of one of the tasks. *)
Theorem projectEndDate_latest todos (m : gmap Z TodoWithCriticalPath) :
  now ≤ projectEndDate now todos m ∧
  (∀ t e f, t ∈ todos → m !! id t = Some e → earliestFinishDate e = Some f →
            f ≤ projectEndDate now todos m) ∧
  (projectEndDate now todos m = now ∨
   ∃ t e, t ∈ todos ∧ m !! id t = Some e ∧
          earliestFinishDate e = Some (projectEndDate now todos m)).
Proof.
  destruct (projectEndDate_fold todos m now) as (H1 & H2 & H3).
  split_and!; [done| |].
  - intros t e f Ht He Hf. apply (H2 t f Ht). by rewrite He.
  - destruct H3 as [?|(t & Ht & Hp)]; [by left|]. right.
    destruct (m !! id t) as [e|] eqn:He; [|done]. by exists t, e.
Qed.

(** ** Slack *)



End MoreEngineFacts.

(** ** The traced path *)




Section PathFacts.

Variables now tz : Z.



End PathFacts.

(** ** Durations under a time zone *)

Lemma setHours0_fixedOffset tz date :
  Zoned.setHours0 (fixedOffset tz) date = setHours0 tz date.
Proof. by rewrite setHours0_floor. Qed.

(** With a fixed offset the functions under a time zone are the ones of the
    engine. *)
Lemma calculateDuration_fixedOffset tz now d :
  Zoned.calculateDuration (fixedOffset tz) now d = calculateDuration now tz d.
Proof. destruct d; [|done]. simpl. by rewrite !setHours0_fixedOffset. Qed.

(** X6. When the local midnights of the due date and of today have the same
    offset from UTC, the duration of a task with a due date is the number of
    local calendar days from today to the day of the due date, and one day
    when that number is smaller than one. *)
Theorem calculateDuration_days zone now d :
  offsetAtLocal zone (Zoned.Day (Zoned.LocalTime zone d) * msPerDay)
  = offsetAtLocal zone (Zoned.Day (Zoned.LocalTime zone now) * msPerDay) →
  Zoned.calculateDuration zone now (Some d)
  = Z.max 1 (Zoned.Day (Zoned.LocalTime zone d)
             - Zoned.Day (Zoned.LocalTime zone now)).
Proof.
  intros Hoff. simpl. unfold Zoned.setHours0, Zoned.UTC. rewrite Hoff.
  rewrite ceilDiv_msPerDay. f_equal.
  set (a := Zoned.Day (Zoned.LocalTime zone d)).
  set (b := Zoned.Day (Zoned.LocalTime zone now)).
  set (o := offsetAtLocal zone (b * msPerDay)).
  pose proof msPerDay_pos.
  replace (- (a * msPerDay - o - (b * msPerDay - o)))
    with ((b - a) * msPerDay) by lia.
  rewrite Z.div_mul by lia. lia.
Qed.

(** Across the change of offset the count is one more than the number of
    calendar days: from noon of 3 November to the end of 6 November 2023
    in New York the duration is 4. *)
Lemma calculateDuration_across_change :
  Zoned.Day (Zoned.LocalTime newYork (storedDueDate 19667))
  - Zoned.Day (Zoned.LocalTime newYork noon3Nov) = 3 ∧
  Zoned.calculateDuration newYork noon3Nov (Some (storedDueDate 19667)) = 4.
Proof. split; by vm_compute. Qed.

(** ** What the loop of a visit accumulates *)

Section AccumulatorFacts.

Variable neighbours : Z → list Z.
Variable field : TodoWithCriticalPath → option Z.
Variable better : Z → Z → bool.
Variable start : Z.
Variable leaf : TodoWithCriticalPath → TodoWithCriticalPath.
Variable finish : Z → TodoWithCriticalPath → TodoWithCriticalPath.

Local Abbreviation trav :=
  (traverse neighbours field better start leaf finish).
Local Abbreviation iter := (visitIter field better).
Local Abbreviation pass :=
  (passOver neighbours field better start leaf finish).



End AccumulatorFacts.


(** The accumulator of a loop is its start value or a field it has read. *)
Lemma accOf_attained field better (m : gmap Z TodoWithCriticalPath) ns a :
  accOf field better m ns a = a ∨
  ∃ n f, n ∈ ns ∧ m !! n ≫= field = Some f ∧ accOf field better m ns a = f.
Proof.
  revert a. induction ns as [|n ns IH]; intros a; [by left|].
  rewrite accOf_cons.
  assert (pickOf field better m n a = a ∨
          m !! n ≫= field = Some (pickOf field better m n a)) as Hpick.
  { unfold pickOf. destruct (m !! n ≫= field) as [f|]; [|by left].
    destruct (better a f); [by right|by left]. }
  destruct (IH (pickOf field better m n a)) as [->|(n' & f & Hn' & Hf & ->)].
  - destruct Hpick as [->|Hf]; [by left|]. right.
    exists n, (pickOf field better m n a). split_and!; [by left|done|done].
  - right. exists n', f. split_and!; [by right|done|done].
Qed.

Lemma accOf_agree field better (m1 m2 : gmap Z TodoWithCriticalPath) ns a :
  (∀ n, n ∈ ns → m1 !! n ≫= field = m2 !! n ≫= field) →
  accOf field better m1 ns a = accOf field better m2 ns a.
Proof.
  revert a. induction ns as [|n ns IH]; intros a Hext; [done|].
  rewrite !accOf_cons.
  assert (pickOf field better m1 n a = pickOf field better m2 n a) as ->.
  { unfold pickOf. by rewrite (Hext n) by left. }
  apply IH. intros; apply Hext. by right.
Qed.

Lemma newSet_nil l : newSet l = [] ↔ l = [].
Proof. destruct l; [done|]. split; intros; simplify_eq. Qed.

Section RunRecords.

Variables now tz : Z.

Local Abbreviation graphOf todos := ((buildMaps now tz todos).2).


Lemma buildMaps_unset todos j e0 :
  (buildMaps now tz todos).1 !! j = Some e0 →
  earliestFinishDate e0 = None ∧ latestStartDate e0 = None ∧
  ∃ t, t ∈ todos ∧ id t = j.
Proof.
  intros He0.
  destruct (buildMaps_lookup now tz todos j)
    as [(H & _)|(t' & ? & ? & H & _)]; rewrite H in He0; [done|].
  simplify_eq. split_and!; [done|done|by exists t'].
Qed.


End RunRecords.

(** ** Exact values on acyclic input *)



Section ExactFacts.

Variables now tz : Z.

Local Abbreviation graphOf todos := ((buildMaps now tz todos).2).


Lemma forwardPass_fixpoint fuel todos m1 k e :
  forwardPass now fuel todos (graphOf todos) (buildMaps now tz todos).1
    = Some m1 →
  Acyclic todos → m1 !! k = Some e →
  forwardNeighbours (graphOf todos) k ≠ [] →
  earliestStartDate e
  = Some (accOf earliestFinishDate laterThan m1
            (forwardNeighbours (graphOf todos) k) 0).
Proof.
  intros Hfwd Hacyc He Hne.
  pose proof (forwardPass_facts _ _ _ _ _ _ Hfwd) as (Hd1 & _ & Hp1 & Hs1).
  destruct (Hp1 _ (passive_entryOf now tz todos)
              (buildMaps_entryOf now tz todos) k e He) as (Ht & Hid & _ & Hg).
  assert (is_Some (earliestFinishDate e)) as Hset.
  { apply (Hs1 (todo e) e Ht). by rewrite Hid. }
  rewrite forwardPass_passOver in Hfwd.
  assert (Stable (forwardNeighbours (graphOf todos))
            earliestFinishDate laterThan 0 (earliestAssign now)
            earliestAssign m1) as Hst.
  { revert Hfwd. apply passOver_stable;
      [apply earliestAssign_sets|apply earliestAssign_sets|
       apply earliestAssign_idem|apply earliestAssign_idem|
       by apply acyclic_forward|].
    intros j e0 He0 [? Hsome].
    apply buildMaps_unset in He0 as (Hnone & _). congruence. }
  destruct (Hst k e He Hset) as [_ Hfix].
  unfold visitOf in Hfix.
  destruct (forwardNeighbours (graphOf todos) k) as [|n ns]; [done|].
  by rewrite <- Hfix.
Qed.





End ExactFacts.

(** ** The cycle test of the editor *)


Lemma someM_true {A : Type} (f : A → option bool) l :
  someM f l = Some true → ∃ x, x ∈ l ∧ f x = Some true.
Proof.
  induction l as [|x l IH]; simpl; [done|].
  destruct (f x) as [[|]|] eqn:Hx; [|intros H|done].
  - intros _. exists x. split; [by left|done].
  - destruct (IH H) as (y & ? & ?). exists y. split; [by right|done].
Qed.

Lemma someM_false {A : Type} (f : A → option bool) l :
  someM f l = Some false ↔ ∀ x, x ∈ l → f x = Some false.
Proof.
  induction l as [|x l IH]; simpl.
  { split; [by intros _ x ?%elem_of_nil|done]. }
  destruct (f x) as [[|]|] eqn:Hx.
  - split; [done|]. intros H. specialize (H x). rewrite Hx in H.
    assert (Some true = Some false) by (apply H; by left). done.
  - rewrite IH. split.
    + intros H y [->|Hy]%elem_of_cons; [done|by apply H].
    + intros H y Hy. apply H. by right.
  - split; [done|]. intros H. specialize (H x). rewrite Hx in H.
    assert (None = Some false) by (apply H; by left). done.
Qed.

Lemma someM_total {A : Type} (f : A → option bool) l :
  (∀ x, x ∈ l → is_Some (f x)) → is_Some (someM f l).
Proof.
  induction l as [|x l IH]; simpl; intros H; [by eexists|].
  destruct (H x) as [[|] ->]; [by left|by eexists|].
  apply IH. intros y Hy. apply H. by right.
Qed.

Lemma filterM_Some {A : Type} (f : A → option bool) l r :
  filterM f l = Some r → ∀ x, x ∈ l → is_Some (f x).
Proof.
  revert r. induction l as [|x l IH]; intros r; simpl.
  { by intros _ y ?%elem_of_nil. }
  destruct (f x) as [b|] eqn:Hx; simpl; [|done].
  destruct (filterM f l) as [rest|]; simpl; [|done].
  intros _ y [->|Hy]%elem_of_cons; [by rewrite Hx|by apply (IH rest)].
Qed.

Lemma find_id_Some todos a t :
  List.find (λ t, bool_decide (id t = a)) todos = Some t →
  t ∈ todos ∧ id t = a.
Proof.
  intros [Hin Hid]%find_some. split; [by apply list_elem_of_In|].
  by apply bool_decide_eq_true in Hid.
Qed.

Lemma firstDepends_depends todos a b :
  firstDepends todos a b → depends todos a b.
Proof.
  intros (t & [Ht Hid]%find_id_Some & Hb). exists t. by split_and!.
Qed.

Lemma firstDepends_acyclic todos :
  Acyclic todos → ∀ x, ¬ tc (firstDepends todos) x x.
Proof.
  intros Hacyc x Hx. apply (Hacyc x).
  apply (tc_congruence (λ z, z) (depends todos)) in Hx; [done|].
  apply firstDepends_depends.
Qed.

Section CycleTest.

Variable todos : list TodoWithDependencies.

Local Abbreviation findTask a :=
  (List.find (λ t, bool_decide (id t = a)) todos).

Lemma wouldCreateCycle_unfold fuel a b :
  wouldCreateCycle (S fuel) todos a b =
  match findTask a with
  | None => Some false
  | Some t =>
      if bool_decide (b ∈ dependencies t) then Some true
      else someM (λ d, wouldCreateCycle fuel todos d b) (dependencies t)
  end.
Proof. done. Qed.

Lemma wouldCreateCycle_true fuel a b :
  wouldCreateCycle fuel todos a b = Some true → tc (firstDepends todos) a b.
Proof.
  revert a. induction fuel as [|fuel IH]; intros a; [done|].
  rewrite wouldCreateCycle_unfold.
  destruct (findTask a) as [t|] eqn:Hf; [|done].
  case_bool_decide as Hb.
  - intros _. apply tc_once. by exists t.
  - intros (d & Hd & Hr)%someM_true.
    eapply tc_l; [|by apply IH]. by exists t.
Qed.

Lemma wouldCreateCycle_false_step fuel a b d :
  wouldCreateCycle (S fuel) todos a b = Some false →
  firstDepends todos a d →
  d ≠ b ∧ wouldCreateCycle fuel todos d b = Some false.
Proof.
  rewrite wouldCreateCycle_unfold. intros Hr (t & Hf & Hd).
  rewrite Hf in Hr. case_bool_decide as Hb; [done|].
  split; [by intros ->|].
  by apply (proj1 (someM_false _ _) Hr).
Qed.

Lemma wouldCreateCycle_mono fuel a b r :
  wouldCreateCycle fuel todos a b = Some r →
  wouldCreateCycle (S fuel) todos a b = Some r.
Proof.
  revert a r. induction fuel as [|fuel IH]; intros a r; [done|].
  rewrite (wouldCreateCycle_unfold (S fuel)), (wouldCreateCycle_unfold fuel).
  destruct (findTask a) as [t|]; [|done].
  case_bool_decide; [done|].
  generalize (dependencies t) as l.
  induction l as [|d l IHl]; cbn [someM]; [done|].
  destruct (wouldCreateCycle fuel todos d b) as [[|]|] eqn:Hd; [| |done].
  - by rewrite (IH d true Hd).
  - rewrite (IH d false Hd). apply IHl.
Qed.

Lemma wouldCreateCycle_false fuel a b :
  wouldCreateCycle fuel todos a b = Some false →
  ¬ tc (firstDepends todos) a b.
Proof.
  revert a. induction fuel as [|fuel IH]; intros a; [done|].
  intros Hr Htc. destruct Htc as [a b Hab|a d b Had Hdb].
  - by destruct (wouldCreateCycle_false_step _ _ _ _ Hr Hab).
  - destruct (wouldCreateCycle_false_step _ _ _ _ Hr Had) as [_ Hd].
    by apply (IH d).
Qed.

(** A test that answers false has visited everything that can be reached,
    each time with less fuel. *)
Lemma wouldCreateCycle_false_reach fuel a b c :
  wouldCreateCycle fuel todos a b = Some false →
  tc (firstDepends todos) a c →
  ∃ fuel', (fuel' < fuel)%nat ∧ wouldCreateCycle fuel' todos c b = Some false.
Proof.
  intros Hr Htc. revert fuel Hr.
  induction Htc as [a c Hac|a d c Had _ IH]; intros [|fuel] Hr; try done.
  - exists fuel. split; [lia|].
    by destruct (wouldCreateCycle_false_step _ _ _ _ Hr Hac).
  - destruct (wouldCreateCycle_false_step _ _ _ _ Hr Had) as [_ Hd].
    destruct (IH fuel Hd) as (fuel' & ? & ?). exists fuel'. split; [lia|done].
Qed.

Lemma wouldCreateCycle_never_false fuel a b :
  tc (firstDepends todos) a a →
  wouldCreateCycle fuel todos a b ≠ Some false.
Proof.
  intros Hcyc. induction fuel as [fuel IH] using lt_wf_ind. intros Hr.
  destruct (wouldCreateCycle_false_reach _ _ _ _ Hr Hcyc) as (fuel' & Hlt & Hr').
  by apply (IH fuel' Hlt).
Qed.

Lemma wouldCreateCycle_total_seen fuel a b (seen : gset Z) :
  (∀ x, ¬ tc (firstDepends todos) x x) →
  (∀ x, x ∈ seen → tc (firstDepends todos) x a) →
  (size (list_to_set (id <$> todos) ∖ seen : gset Z) < fuel)%nat →
  is_Some (wouldCreateCycle fuel todos a b).
Proof.
  intros Hacyc. revert a seen.
  induction fuel as [|fuel IH]; intros a seen Hseen Hsize; [lia|].
  rewrite wouldCreateCycle_unfold.
  destruct (findTask a) as [t|] eqn:Hf; [|by eexists].
  case_bool_decide; [by eexists|].
  apply someM_total. intros d Hd.
  apply (IH d ({[a]} ∪ seen)).
  - intros x [->%elem_of_singleton|Hx]%elem_of_union.
    + apply tc_once. by exists t.
    + eapply tc_r; [by apply Hseen|]. by exists t.
  - assert (a ∉ seen) as Hnot.
    { intros Hin. by apply (Hacyc a), Hseen. }
    assert (a ∈ (list_to_set (id <$> todos) : gset Z)) as Hin.
    { apply find_id_Some in Hf as [Ht <-].
      apply elem_of_list_to_set, list_elem_of_fmap. by exists t. }
    assert (size (list_to_set (id <$> todos) ∖ ({[a]} ∪ seen) : gset Z)
            < size (list_to_set (id <$> todos) ∖ seen : gset Z))%nat; [|lia].
    apply subset_size. apply strict_spec_alt. split; [set_solver|].
    intros Heq. assert (a ∈ (list_to_set (id <$> todos) ∖ seen : gset Z))
      as Ha by set_solver.
    rewrite <- Heq in Ha. set_solver.
Qed.

Lemma size_ids_le :
  (size (list_to_set (id <$> todos) : gset Z) ≤ length todos)%nat.
Proof.
  clear. induction todos as [|t l IH].
  { by vm_compute. }
  rewrite fmap_cons, list_to_set_cons, size_union_alt, size_singleton.
  pose proof (subseteq_size (list_to_set (id <$> l) ∖ {[id t]} : gset Z)
                (list_to_set (id <$> l))) as Hle.
  specialize (Hle ltac:(set_solver)). simpl. lia.
Qed.

(** X12. When the cycle test returns, its answer is reachability: it is
    true exactly when the target can be reached from the task through one or
    more dependency edges, each read from the first task with the id. *)
Theorem wouldCreateCycle_reachability fuel a b r :
  wouldCreateCycle fuel todos a b = Some r →
  (r = true ↔ tc (firstDepends todos) a b).
Proof.
  intros Hr. destruct r.
  - split; [intros _|done]. by apply (wouldCreateCycle_true fuel).
  - split; [done|]. intros Htc.
    by destruct (wouldCreateCycle_false _ _ _ Hr).
Qed.

(** X13. On an acyclic list the cycle test returns for every pair of ids,
    within a recursion depth of the number of tasks. *)
Theorem wouldCreateCycle_terminates fuel a b :
  Acyclic todos → (length todos < fuel)%nat →
  is_Some (wouldCreateCycle fuel todos a b).
Proof.
  intros Hacyc Hfuel.
  apply (wouldCreateCycle_total_seen fuel a b ∅).
  - by apply firstDepends_acyclic.
  - set_solver.
  - rewrite difference_empty_L. pose proof size_ids_le. lia.
Qed.

(** X14. From a task that lies on a dependency cycle the cycle test never
    answers false: whatever the recursion depth allowed, it answers true or
    does not return. *)
Theorem wouldCreateCycle_on_cycle fuel a b :
  tc (firstDepends todos) a a →
  wouldCreateCycle fuel todos a b = Some true ∨
  wouldCreateCycle fuel todos a b = None.
Proof.
  intros Hcyc. pose proof (wouldCreateCycle_never_false fuel a b Hcyc).
  destruct (wouldCreateCycle fuel todos a b) as [[|]|]; [by left|done|by right].
Qed.

Lemma getAvailableDependencies_filter fuel x r :
  x ≠ 0 →
  getAvailableDependencies fuel todos (Some x) = Some r →
  r = filter (λ t, id t ≠ x) todos ∧
  ∀ t, t ∈ todos → id t ≠ x → is_Some (wouldCreateCycle fuel todos x (id t)).
Proof.
  intros Hx Hr. split; [by apply (getAvailableDependencies_keeps fuel)|].
  intros t Ht Hne. unfold getAvailableDependencies in Hr.
  apply filterM_Some with (x := t) in Hr; [|done].
  rewrite (bool_decide_eq_true_2 (x ≠ 0)) in Hr by done.
  rewrite (bool_decide_eq_false_2 (id t = x)) in Hr by done. simpl in Hr.
  destruct (wouldCreateCycle fuel todos x (id t)); [by eexists|].
  by destruct Hr.
Qed.

Lemma filterM_total {A : Type} (f : A → option bool) l :
  (∀ x, x ∈ l → is_Some (f x)) → is_Some (filterM f l).
Proof.
  induction l as [|x l IH]; simpl; intros H; [by eexists|].
  destruct (H x) as [b ->]; [by left|]. simpl.
  destruct IH as [rest ->]; [|by eexists].
  intros y Hy. apply H. by right.
Qed.

(** X15. On an acyclic list, the candidates offered for a task with a
    non-zero id are all the other tasks, in the order of the list: the
    filter returns and removes the task itself only. *)
Theorem getAvailableDependencies_acyclic fuel x :
  Acyclic todos → (length todos < fuel)%nat → x ≠ 0 →
  getAvailableDependencies fuel todos (Some x)
  = Some (filter (λ t, id t ≠ x) todos).
Proof.
  intros Hacyc Hfuel Hx.
  destruct (filterM_total
    (λ t, if bool_decide (x ≠ 0) && bool_decide (id t = x) then Some false
          else if bool_decide (x ≠ 0) then
            cycle ← wouldCreateCycle fuel todos x (id t);
            if cycle : bool then Some true else Some true
          else Some true) todos) as [r Hr].
  { intros t _. destruct (_ && _); [by eexists|].
    destruct (bool_decide (x ≠ 0)); [|by eexists].
    destruct (wouldCreateCycle_total_seen fuel x (id t) ∅) as [c ->].
    - by apply firstDepends_acyclic.
    - set_solver.
    - rewrite difference_empty_L. pose proof size_ids_le. lia.
    - simpl. destruct c; by eexists. }
  change (getAvailableDependencies fuel todos (Some x) = Some r) in Hr.
  rewrite Hr. f_equal. by apply (getAvailableDependencies_keeps fuel).
Qed.

(** X16. For a task that lies on a dependency cycle, the candidate list is
    not produced as soon as one other task cannot be reached from it: the
    cycle test asked about that task does not return. *)
Theorem getAvailableDependencies_on_cycle fuel x t :
  x ≠ 0 →
  tc (firstDepends todos) x x →
  t ∈ todos → id t ≠ x → ¬ tc (firstDepends todos) x (id t) →
  getAvailableDependencies fuel todos (Some x) = None.
Proof.
  intros Hx Hcyc Ht Hne Hunreach.
  destruct (getAvailableDependencies fuel todos (Some x)) as [r|] eqn:Hr;
    [|done].
  destruct (getAvailableDependencies_filter _ _ _ Hx Hr) as [_ Hall].
  destruct (Hall t Ht Hne) as [[|] Hc].
  - by apply wouldCreateCycle_true in Hc.
  - by apply wouldCreateCycle_never_false in Hc.
Qed.

End CycleTest.

(** ** The levels of the graph *)

Section LevelFacts.

Variable todos : list TodoWithDependencies.

Local Abbreviation findTask a :=
  (List.find (λ t, bool_decide (id t = a)) todos).
Local Abbreviation ids := (list_to_set (id <$> todos) : gset Z).

Lemma calculateLevel_unfold fuel k st :
  calculateLevel (S fuel) todos k st =
  if decide (k ∈ st.2) then Some (0, st)
  else
    match findTask k with
    | None => Some (0, (st.1, {[k]} ∪ st.2))
    | Some t =>
        match dependencies t with
        | [] => Some (0, (<[k := 0]> st.1, {[k]} ∪ st.2))
        | d :: ds =>
            '(ls, st') ← mapLevels (calculateLevel fuel todos) (d :: ds)
                           (st.1, {[k]} ∪ st.2);
            Some (fold_left Z.max (tail ls) (hd 0 ls) + 1,
                  (<[k := fold_left Z.max (tail ls) (hd 0 ls) + 1]> st'.1,
                   st'.2))
        end
    end.
Proof. done. Qed.

Lemma mapLevels_cons recur d l st :
  mapLevels recur (d :: l) st =
  '(r, st) ← recur d st; '(rs, st) ← mapLevels recur l st; Some (r :: rs, st).
Proof. done. Qed.

Lemma find_id_ids k t : findTask k = Some t → k ∈ ids.
Proof.
  intros [Ht <-]%find_id_Some.
  apply elem_of_list_to_set, list_elem_of_fmap. by exists t.
Qed.

Lemma find_id_is_Some k : k ∈ ids → is_Some (findTask k).
Proof.
  rewrite elem_of_list_to_set, list_elem_of_fmap. intros (t & -> & Ht).
  destruct (findTask (id t)) as [t'|] eqn:Hf; [by eexists|].
  apply list_elem_of_In in Ht.
  pose proof (find_none _ _ Hf t Ht) as Hn. simpl in Hn.
  by rewrite bool_decide_eq_true_2 in Hn.
Qed.

Lemma fold_max_bounds (x : Z) l lo hi :
  lo ≤ x ≤ hi → Forall (λ r, lo ≤ r ≤ hi) l →
  lo ≤ fold_left Z.max l x ≤ hi.
Proof.
  intros Hx Hl. revert x Hx. induction Hl as [|y l Hy _ IH]; intros x Hx; [done|].
  simpl. apply IH. lia.
Qed.

Lemma fold_max_ge (x : Z) l :
  x ≤ fold_left Z.max l x ∧ ∀ y, y ∈ l → y ≤ fold_left Z.max l x.
Proof.
  revert x. induction l as [|z l IH]; intros x; simpl.
  { split; [done|]. by intros y ?%elem_of_nil. }
  destruct (IH (Z.max x z)) as [H1 H2]. split; [lia|].
  intros y [->|Hy]%elem_of_cons; [lia|by apply H2].
Qed.


Lemma size_diff_le (X : gset Z) : (size (ids ∖ X) ≤ size ids)%nat.
Proof. apply subseteq_size. set_solver. Qed.

Lemma size_diff_mono (X Y : gset Z) :
  X ⊆ Y → (size (ids ∖ Y) ≤ size (ids ∖ X))%nat.
Proof. intros. apply subseteq_size. set_solver. Qed.

Lemma size_diff_lt k (X : gset Z) :
  k ∈ ids → k ∉ X → (size (ids ∖ ({[k]} ∪ X)) < size (ids ∖ X))%nat.
Proof. intros. apply subset_size. set_solver. Qed.

Lemma mapLevels_ok recur l st rs st' :
  (∀ d st r st', recur d st = Some (r, st') → callOk todos d st r st') →
  mapLevels recur l st = Some (rs, st') →
  st.2 ⊆ st'.2 ∧ dom st.1 ⊆ dom st'.1 ∧
  Forall (λ r, 0 ≤ r ≤ Z.of_nat (size (ids ∖ st.2))) rs ∧
  length rs = length l ∧
  (map_Forall (levelOk todos) st.1 → map_Forall (levelOk todos) st'.1).
Proof.
  intros Hrec. revert st rs st'.
  induction l as [|d l IH]; intros st rs st'.
  { simpl. intros; simplify_eq. by split_and!. }
  rewrite mapLevels_cons.
  destruct (recur d st) as [[r st1]|] eqn:Hd; simpl; [|done].
  destruct (mapLevels recur l st1) as [[rs' st2]|] eqn:Hl; simpl; [|done].
  intros; simplify_eq.
  destruct (Hrec _ _ _ _ Hd) as (Hv1 & Hd1 & Hr1 & Hok1).
  destruct (IH _ _ _ Hl) as (Hv2 & Hd2 & Hr2 & Hlen & Hok2).
  split_and!.
  - set_solver.
  - set_solver.
  - constructor; [done|].
    eapply Forall_impl; [exact Hr2|]. simpl. intros x Hx.
    pose proof (size_diff_mono _ _ Hv1). lia.
  - simpl. by rewrite Hlen.
  - auto.
Qed.

Lemma calculateLevel_ok fuel k st r st' :
  calculateLevel fuel todos k st = Some (r, st') → callOk todos k st r st'.
Proof.
  revert k st r st'. induction fuel as [|fuel IH]; intros k st r st'; [done|].
  rewrite calculateLevel_unfold.
  destruct (decide (k ∈ st.2)) as [Hin|Hin].
  { intros; simplify_eq. unfold callOk. split_and!; try done; lia. }
  assert (∀ lv (m : gmap Z Z), levelOk todos k lv → map_Forall (levelOk todos) m →
                               map_Forall (levelOk todos) (<[k := lv]> m)) as Hins.
  { intros lv m Hlv Hm j l. rewrite lookup_insert_Some.
    intros [[<- <-]|[_ Hj]]; [done|by apply Hm]. }
  destruct (findTask k) as [t|] eqn:Hf.
  2:{ intros; simplify_eq. unfold callOk. simpl.
      split_and!; try done; try set_solver; lia. }
  pose proof (find_id_ids _ _ Hf) as Hk.
  destruct (dependencies t) as [|d ds] eqn:Hdeps.
  { intros; simplify_eq. unfold callOk. simpl.
    split_and!; try set_solver; try lia.
    intros Hgood. apply Hins; [|done]. exists t. rewrite Hdeps. split_and!; try done. lia. }
  destruct (mapLevels _ _ _) as [[ls st1]|] eqn:Hmap; simpl; [|done].
  intros; simplify_eq.
  destruct (mapLevels_ok _ _ _ _ _ IH Hmap)
    as (Hv & Hd & Hr & Hlen & Hok). simpl in *.
  pose proof (size_diff_lt k st.2 Hk Hin) as Hlt.
  destruct ls as [|l0 ls]; [done|]. simpl.
  apply Forall_cons in Hr as [Hr0 Hr].
  pose proof (fold_max_bounds l0 ls 0 _ Hr0 Hr) as Hmax.
  unfold callOk. simpl. split_and!.
  - set_solver.
  - set_solver.
  - lia.
  - lia.
  - intros Hgood. apply Hins; [|by apply Hok].
    exists t. rewrite Hdeps. split_and!; try done; [lia|].
    pose proof (size_diff_le st.2). lia.
Qed.

Lemma calculateLevel_sets fuel k lv r st' :
  calculateLevel fuel todos k (lv, ∅) = Some (r, st') →
  is_Some (findTask k) → k ∈ dom st'.1.
Proof.
  destruct fuel as [|fuel]; [done|]. rewrite calculateLevel_unfold.
  destruct (decide (k ∈ (lv, ∅).2)) as [Hin|_]; [simpl in Hin; set_solver|].
  intros Hr [t Hf]. rewrite Hf in Hr.
  destruct (dependencies t) as [|d ds].
  { simplify_eq. simpl. set_solver. }
  destruct (mapLevels _ _ _) as [[ls st1]|]; simpl in Hr; [|done].
  simplify_eq. simpl. set_solver.
Qed.

Lemma mapLevels_total recur l st (n : nat) :
  (∀ d st r st', recur d st = Some (r, st') → callOk todos d st r st') →
  (∀ d st, (size (ids ∖ st.2) < n)%nat → is_Some (recur d st)) →
  (size (ids ∖ st.2) < n)%nat →
  is_Some (mapLevels recur l st).
Proof.
  intros Hok Htot. revert st. induction l as [|d l IH]; intros st Hsz.
  { by eexists. }
  rewrite mapLevels_cons.
  destruct (Htot d st Hsz) as [[r st1] Hd]. rewrite Hd. simpl.
  destruct (Hok _ _ _ _ Hd) as (Hv & _).
  destruct (IH st1) as [[rs st2] ->]; [|by eexists].
  pose proof (size_diff_mono _ _ Hv). lia.
Qed.

Lemma calculateLevel_total fuel k st :
  (size (ids ∖ st.2) < fuel)%nat → is_Some (calculateLevel fuel todos k st).
Proof.
  revert k st. induction fuel as [|fuel IH]; intros k st Hsz; [lia|].
  rewrite calculateLevel_unfold.
  destruct (decide (k ∈ st.2)) as [Hin|Hin]; [by eexists|].
  destruct (findTask k) as [t|] eqn:Hf; [|by eexists].
  destruct (dependencies t) as [|d ds]; [by eexists|].
  pose proof (size_diff_lt k st.2 (find_id_ids _ _ Hf) Hin) as Hlt.
  destruct (mapLevels_total (calculateLevel fuel todos) (d :: ds)
              (st.1, {[k]} ∪ st.2) fuel) as [[ls st1] ->].
  - intros. by eapply calculateLevel_ok.
  - intros. by apply IH.
  - simpl. lia.
  - by eexists.
Qed.

(** The levels after the loop over the tasks. *)
Lemma levelsOf_facts fuel levels :
  levelsOf fuel todos = Some levels →
  map_Forall (levelOk todos) levels ∧
  ∀ t, t ∈ todos → id t ∈ dom levels.
Proof.
  unfold levelsOf. intros Hrun.
  pose (J := λ (done : list TodoWithDependencies) (lv : gmap Z Z),
          map_Forall (levelOk todos) lv ∧ ∀ t, t ∈ done → id t ∈ dom lv).
  apply (forOf_invariant _ J todos) in Hrun; [done| |].
  - intros done t rest lv lv' Hl [Hgood Hdom].
    destruct (calculateLevel fuel todos (id t) (lv, ∅))
      as [[r st']|] eqn:Hc; simpl; [|done].
    intros [= <-].
    destruct (calculateLevel_ok _ _ _ _ _ Hc) as (_ & Hd & _ & Hok).
    split; [by apply Hok|].
    intros t' [Ht'|Hs%list_elem_of_singleton]%elem_of_app.
    + apply Hd, Hdom, Ht'.
    + subst t'. apply (calculateLevel_sets _ _ _ _ _ Hc).
      apply find_id_is_Some, elem_of_list_to_set, list_elem_of_fmap.
      exists t. split; [done|]. rewrite Hl. set_solver.
  - split; [apply map_Forall_empty|]. by intros t ?%elem_of_nil.
Qed.

(** X17. The loop that assigns the levels returns on every list, cyclic
    ones included, within a recursion depth of the number of tasks. *)
Theorem levelsOf_terminates fuel :
  (length todos < fuel)%nat → is_Some (levelsOf fuel todos).
Proof.
  intros Hfuel. unfold levelsOf.
  destruct (forOf_total
    (λ t levels, '(_, st) ← calculateLevel fuel todos (id t) (levels, ∅);
                 Some st.1)
    (λ _ _, True) todos) with (s := (∅ : gmap Z Z)) as (lv & -> & _);
    [|done|by eexists].
  intros done t rest lv _ _.
  destruct (calculateLevel_total fuel (id t) (lv, ∅)) as [[r st] ->].
  - simpl. pose proof (size_diff_le ∅). pose proof (size_ids_le todos). lia.
  - simpl. by eexists.
Qed.

(** X18. The tasks that get a level are the supplied ones. The level is 0
    when the first task with the id has no dependencies; otherwise it is at
    least 1 and at most the number of tasks. *)
Theorem levelsOf_levels fuel levels :
  levelsOf fuel todos = Some levels →
  (∀ k, is_Some (levels !! k) ↔ ∃ t, t ∈ todos ∧ id t = k) ∧
  (∀ k lv, levels !! k = Some lv →
     ∃ t, findTask k = Some t ∧
          (dependencies t = [] → lv = 0) ∧
          (dependencies t ≠ [] → 1 ≤ lv ≤ Z.of_nat (length todos))).
Proof.
  intros [Hgood Hdom]%levelsOf_facts. split.
  - intros k. split.
    + intros [lv Hlv]. destruct (Hgood k lv Hlv) as (t & Hf & _).
      apply find_id_Some in Hf as [? ?]. by exists t.
    + intros (t & Ht & <-). apply elem_of_dom. by apply Hdom.
  - intros k lv Hlv. destruct (Hgood k lv Hlv) as (t & Hf & H0 & H1 & Hle).
    exists t. split_and!; try done. intros Hne.
    pose proof (size_ids_le todos). specialize (H1 Hne). lia.
Qed.

(** X19. Every supplied task is drawn inside the canvas vertically: its
    rectangle starts at least [padding] below the top and ends at least
    [padding] above the bottom. *)
Theorem node_fits_vertically fuel levels t :
  levelsOf fuel todos = Some levels →
  t ∈ todos →
  ∃ y, positionY levels (id t) = Some y ∧
       padding ≤ y ∧ y + nodeHeight + padding ≤ svgHeight levels.
Proof.
  intros Hrun Ht. destruct (levelsOf_facts _ _ Hrun) as [Hgood Hdom].
  destruct (proj1 (elem_of_dom _ _) (Hdom t Ht)) as [lv Hlv].
  unfold positionY. rewrite Hlv. simpl. eexists. split; [done|].
  destruct (Hgood _ _ Hlv) as (t' & _ & H0 & H1 & _).
  assert (0 ≤ lv) as Hpos.
  { destruct (dependencies t'); [rewrite H0 by done; lia|].
    specialize (H1 ltac:(done)). lia. }
  unfold levelHeight, padding, nodeHeight. split; [lia|].
  assert (lv ∈ (map_to_list levels).*2) as Hin.
  { apply list_elem_of_fmap. exists (id t, lv). split; [done|].
    by apply elem_of_map_to_list. }
  unfold svgHeight, levelHeight, padding.
  destruct ((map_to_list levels).*2) as [|l ls]; [by apply elem_of_nil in Hin|].
  destruct (fold_max_ge l ls) as [Hl Hls].
  assert (lv ≤ fold_left Z.max ls l) as Hle.
  { apply elem_of_cons in Hin as [->|Hin]; [done|by apply Hls]. }
  lia.
Qed.

End LevelFacts.

(** ** The highlighted path of the graph *)





Section GraphFacts.

Variables now tz : Z.







End GraphFacts.

(** ** Lists without due dates *)



Section NoDueDates.

Variables now tz : Z.

Local Abbreviation graphOf todos := ((buildMaps now tz todos).2).


End NoDueDates.

(** ** Stored due dates and sinks *)

(** X23. For a due date as the routes store it, when the local midnights of
    the due date and of today have the same offset from UTC, the duration
    counts the days from today's local day to the day entered when local
    time is UTC or behind it at the due date, and to the day after the one
    entered when local time is ahead of UTC. *)
Theorem storedDueDate_duration zone now day :
  - msPerDay < offsetAtInstant zone (storedDueDate day) < msPerDay →
  offsetAtLocal zone
    (Zoned.Day (Zoned.LocalTime zone (storedDueDate day)) * msPerDay)
  = offsetAtLocal zone (Zoned.Day (Zoned.LocalTime zone now) * msPerDay) →
  Zoned.calculateDuration zone now (Some (storedDueDate day))
  = Z.max 1 (day
             + (if bool_decide (0 < offsetAtInstant zone (storedDueDate day))
                then 1 else 0)
             - Zoned.Day (Zoned.LocalTime zone now)).
Proof.
  intros Htz Hoff. simpl. unfold Zoned.setHours0, Zoned.UTC. rewrite Hoff.
  rewrite ceilDiv_msPerDay. pose proof msPerDay_pos as Hms.
  set (tz := offsetAtInstant zone (storedDueDate day)) in *.
  assert (Zoned.Day (Zoned.LocalTime zone (storedDueDate day))
          = day + (if bool_decide (0 < tz) then 1 else 0)) as ->.
  { unfold Zoned.Day, Zoned.LocalTime. fold tz.
    unfold storedDueDate. symmetry. apply Z.div_unique_pos
      with (r := 86399999 + tz - (if bool_decide (0 < tz) then msPerDay else 0)).
    - revert Htz. change msPerDay with 86400000. case_bool_decide; lia.
    - case_bool_decide; lia. }
  f_equal.
  set (a := day + (if bool_decide (0 < tz) then 1 else 0)).
  set (b := Zoned.Day (Zoned.LocalTime zone now)).
  set (o := offsetAtLocal zone (b * msPerDay)).
  replace (- (a * msPerDay - o - (b * msPerDay - o)))
    with ((b - a) * msPerDay) by lia.
  rewrite Z.div_mul by lia. lia.
Qed.

Section StoredFacts.

Variables now tz : Z.


End StoredFacts.

(** * Properties of the engine with every reading of the clock *)

(** ** Loops on related states *)

Lemma forOf_sim {A S S' : Type} (f : A → S → option S)
    (g : A → S' → option S') (π : S → S') l s :
  (∀ x s, π <$> f x s = g x (π s)) →
  π <$> forOf f l s = forOf g l (π s).
Proof.
  intros H. revert s. induction l as [|x l IH]; intros s; [done|].
  cbn [forOf]. rewrite <- H. destruct (f x s) as [s1|]; simpl; [apply IH|done].
Qed.

(** A loop that reaches a state on which [Q] holds can be replayed with a
    body that agrees with the first on steps ending in [Q]. *)
Lemma forOf_transfer {A S : Type} (f g : A → S → option S) (Q : S → Prop)
    l s s' :
  (∀ x s1 s2, f x s1 = Some s2 → Q s2 → g x s1 = Some s2 ∧ Q s1) →
  forOf f l s = Some s' → Q s' →
  forOf g l s = Some s' ∧ Q s.
Proof.
  intros H. revert s. induction l as [|x l IH]; intros s; cbn [forOf].
  { intros; by simplify_eq. }
  destruct (f x s) as [s1|] eqn:E; [|done]. intros Hl HQ.
  destruct (IH s1 Hl HQ) as [Hg HQ1].
  destruct (H x s s1 E HQ1) as [-> HQs]. done.
Qed.

Section TimedFacts.

Variable clock : nat → Z.
Variable tz : Z.

Local Abbreviation visit := (Timed.calculateEarliestTimes clock).
Local Abbreviation iterT := Timed.earliestIter.

(** *** Records under the forward pass *)

Lemma earliestAssign_again s s' e :
  earliestAssign s' (earliestAssign s e) = earliestAssign s' e.
Proof. done. Qed.

Lemma stamped_refl graph n n' j e : stamped clock graph n n' j e e.
Proof. by left. Qed.

Lemma stamped_mono graph n0 n n' n1 j e e' :
  (n0 ≤ n)%nat → (n' ≤ n1)%nat →
  stamped clock graph n n' j e e' → stamped clock graph n0 n1 j e e'.
Proof.
  intros H0 H1 [->|(s & -> & Hs)]; [by left|right].
  exists s. split; [done|]. intros Hj.
  destruct (Hs Hj) as (i & Hi & ->). exists i. split; [lia|done].
Qed.

Lemma stamped_trans graph n n' j e1 e2 e3 :
  stamped clock graph n n' j e1 e2 → stamped clock graph n n' j e2 e3 →
  stamped clock graph n n' j e1 e3.
Proof.
  intros [->|(s & -> & Hs)]; [done|].
  intros [->|(s' & -> & Hs')]; [right; by exists s|].
  right. exists s'. by rewrite earliestAssign_again.
Qed.

Lemma evolves_refl graph n n' m : evolves clock graph n n' m m.
Proof.
  intros j. destruct (m !! j); constructor. apply stamped_refl.
Qed.

Lemma evolves_mono graph n0 n n' n1 m m' :
  (n0 ≤ n)%nat → (n' ≤ n1)%nat →
  evolves clock graph n n' m m' → evolves clock graph n0 n1 m m'.
Proof.
  intros H0 H1 H j. specialize (H j).
  destruct H as [e e' H|]; constructor. by eapply stamped_mono.
Qed.

Lemma evolves_trans graph n n' n'' m1 m2 m3 :
  (n ≤ n')%nat → (n' ≤ n'')%nat →
  evolves clock graph n n' m1 m2 → evolves clock graph n' n'' m2 m3 →
  evolves clock graph n n'' m1 m3.
Proof.
  intros H0 H1 H12 H23 j. specialize (H12 j). specialize (H23 j).
  destruct H12 as [e1 e2 H12|]; inversion H23; simplify_eq; constructor.
  apply (stamped_trans _ _ _ _ _ e2).
  - by apply (stamped_mono _ n n n' n'').
  - by apply (stamped_mono _ n n' n'' n'').
Qed.

Lemma evolves_alter graph n n' m k s :
  (forwardNeighbours graph k = [] → ∃ i, (n ≤ i < n')%nat ∧ s = clock i) →
  evolves clock graph n n' m (alter (earliestAssign s) k m).
Proof.
  intros Hs j. rewrite lookup_alter.
  destruct (decide (k = j)) as [->|Hne].
  - destruct (m !! j); constructor. right. by exists s.
  - destruct (m !! j); constructor. apply stamped_refl.
Qed.

Lemma evolves_dom graph n n' m m' :
  evolves clock graph n n' m m' → dom m' = dom m.
Proof.
  intros H. apply set_eq. intros j. rewrite !elem_of_dom.
  specialize (H j). destruct H; split; intros [? ?]; by eauto.
Qed.

Lemma evolves_lookup graph n n' m m' j e' :
  evolves clock graph n n' m m' → m' !! j = Some e' →
  ∃ e, m !! j = Some e ∧ stamped clock graph n n' j e e'.
Proof.
  intros H Hj. specialize (H j). rewrite Hj in H. inversion H; simplify_eq.
  by eexists.
Qed.

Lemma stamped_set graph n n' j e e' :
  stamped clock graph n n' j e e' →
  is_Some (earliestFinishDate e) → is_Some (earliestFinishDate e').
Proof. intros [->|(s & -> & _)] H; [done|by eexists]. Qed.

Lemma stamped_sameTask graph n n' j e e' :
  stamped clock graph n n' j e e' → sameTask e e'.
Proof.
  intros [->|(s & -> & _)]; [apply sameTask_refl|].
  apply sameTask_earliestAssign, sameTask_refl.
Qed.

Lemma stamped_forwardOk graph n n' j e e' :
  stamped clock graph n n' j e e' → forwardOk e → forwardOk e'.
Proof.
  intros [->|(s & -> & _)]; [done|]. apply forwardOk_earliestAssign.
Qed.

(** *** One call *)

Lemma calculateEarliestTimes_unfold fuel graph k m vis n :
  visit (S fuel) graph k (m, vis, n) =
  if decide (k ∈ vis) then Some (m, vis, n)
  else match m !! k with
       | None => Some (m, {[k]} ∪ vis, n)
       | Some _ =>
           if decide (forwardNeighbours graph k = [])
           then Some (alter (earliestAssign (clock n)) k m, {[k]} ∪ vis, S n)
           else
             s ← forOf (iterT (visit fuel graph)) (forwardNeighbours graph k)
                   (0, (m, {[k]} ∪ vis, n));
             Some (alter (earliestAssign s.1) k s.2.1.1, s.2.1.2, s.2.2)
       end.
Proof.
  cbn [Timed.calculateEarliestTimes].
  destruct (decide (k ∈ vis)) as [Hin|Hin]; [done|].
  destruct (m !! k); [|done].
  unfold forwardNeighbours. destruct (default [] (graph !! k)) as [|x ns]; [done|].
  rewrite decide_False by done.
  destruct (forOf _ (x :: ns) _) as [[acc [[m1 vis1] n1]]|]; done.
Qed.

(** A step of the loop leaves the state alone or is a recursive call. *)
Lemma earliestIter_Some recur x a st a' st' :
  iterT recur x (a, st) = Some (a', st') →
  st' = st ∨ recur x st = Some st'.
Proof.
  unfold Timed.earliestIter. destruct (st.1.1 !! x) as [d|].
  2:{ intros; simplify_eq. by left. }
  destruct (earliestFinishDate d); simpl.
  - intros H. left.
    destruct (st.1.1 !! x ≫= earliestFinishDate); [case_bool_decide|];
      by simplify_eq.
  - destruct (recur x st) as [st1|]; simpl; [|done]. intros H. right.
    destruct (st1.1.1 !! x ≫= earliestFinishDate); [case_bool_decide|];
      by simplify_eq.
Qed.

Lemma earliestIter_total recur x a st :
  is_Some (recur x st) → is_Some (iterT recur x (a, st)).
Proof.
  intros [st1 Hr]. unfold Timed.earliestIter.
  destruct (st.1.1 !! x) as [d|]; [|by eexists].
  destruct (earliestFinishDate d); simpl.
  - destruct (st.1.1 !! x ≫= earliestFinishDate); [case_bool_decide|];
      by eexists.
  - rewrite Hr. simpl.
    destruct (st1.1.1 !! x ≫= earliestFinishDate); [case_bool_decide|];
      by eexists.
Qed.

(** A call takes readings, extends the visited set and changes the
    records as [stamped] says; a call on a key not yet visited sets the
    dates of its record. *)
Lemma calculateEarliestTimes_spec fuel graph k m vis n m' vis' n' :
  visit fuel graph k (m, vis, n) = Some (m', vis', n') →
  (n ≤ n')%nat ∧ vis ⊆ vis' ∧ evolves clock graph n n' m m' ∧
  (k ∉ vis → ∀ e', m' !! k = Some e' → is_Some (earliestFinishDate e')).
Proof.
  revert k m vis n m' vis' n'.
  induction fuel as [|fuel IH]; intros k m vis n m' vis' n'; [done|].
  rewrite calculateEarliestTimes_unfold.
  destruct (decide (k ∈ vis)) as [Hin|Hin].
  { intros; simplify_eq. split_and!; [done|done|apply evolves_refl|done]. }
  destruct (m !! k) as [t0|] eqn:Hk.
  2:{ intros; simplify_eq.
      split_and!; [done|set_solver|apply evolves_refl|congruence]. }
  destruct (decide (forwardNeighbours graph k = [])) as [Hns|Hns].
  { intros; simplify_eq. split_and!; [lia|set_solver| |].
    - apply evolves_alter. intros _. exists n. split; [lia|done].
    - intros _ e'. rewrite lookup_alter_eq, Hk. simpl.
      intros; simplify_eq. by eexists. }
  destruct (forOf _ _ _) as [[acc [[m1 vis1] n1]]|] eqn:E; simpl; [|done].
  intros; simplify_eq.
  pose (J := λ (_ : list Z) (s : Z * Timed.TimedState),
          (n ≤ s.2.2)%nat ∧ {[k]} ∪ vis ⊆ s.2.1.2 ∧
          evolves clock graph n s.2.2 m s.2.1.1).
  assert (J (forwardNeighbours graph k) (acc, (m1, vis', n'))) as (Hn & Hv & He).
  { apply (forOf_invariant (iterT (visit fuel graph)) J
             (forwardNeighbours graph k))
      with (s := (0, (m, {[k]} ∪ vis, n))); [| |exact E].
    - intros done x rest [a [[mi visi] ni]] [a' [[mj visj] nj]] _
        (Hn & Hv & He) Hstep. simpl in Hn, Hv, He.
      apply earliestIter_Some in Hstep as [?|Hr]; [by simplify_eq|].
      apply IH in Hr as (Hn' & Hv' & He' & _). unfold J. simpl.
      split_and!; [lia|set_solver|].
      by apply (evolves_trans _ n ni nj m mi mj).
    - unfold J. simpl. split_and!; [done|done|apply evolves_refl]. }
  simpl in *. split_and!; [done|set_solver| |].
  - apply (evolves_trans _ n n' n' m m1); [done|done|done|].
    apply evolves_alter. by intros ?.
  - intros _ e'. rewrite lookup_alter_eq.
    destruct (m1 !! k); simpl; [|done]. intros; simplify_eq. by eexists.
Qed.

Lemma calculateEarliestTimes_total fuel graph k m vis n :
  (size (dom m ∖ vis) < fuel)%nat → is_Some (visit fuel graph k (m, vis, n)).
Proof.
  revert k m vis n.
  induction fuel as [|fuel IH]; intros k m vis n Hsz; [lia|].
  rewrite calculateEarliestTimes_unfold.
  destruct (decide (k ∈ vis)) as [Hin|Hin]; [done|].
  destruct (m !! k) as [t0|] eqn:Hk; [|done].
  destruct (decide (forwardNeighbours graph k = [])) as [Hns|Hns]; [done|].
  assert (size (dom m ∖ ({[k]} ∪ vis)) < fuel)%nat as Hsz'.
  { assert (dom m ∖ ({[k]} ∪ vis) ⊂ dom m ∖ vis) as Hsub.
    { assert (k ∈ dom m) by (apply elem_of_dom; eauto). set_solver. }
    apply subset_size in Hsub. lia. }
  pose (J := λ (_ : list Z) (s : Z * Timed.TimedState),
          dom s.2.1.1 = dom m ∧ {[k]} ∪ vis ⊆ s.2.1.2).
  destruct (forOf_total (iterT (visit fuel graph)) J
              (forwardNeighbours graph k))
    with (s := (0, (m, {[k]} ∪ vis, n))) as ([acc [[m1 vis1] n1]] & E & _).
  - intros done x rest [a [[mi visi] ni]] _ [Hd Hv]. simpl in Hd, Hv.
    destruct (earliestIter_total (visit fuel graph) x a (mi, visi, ni))
      as [[a' [[mj visj] nj]] Hstep].
    { apply IH.
      assert (dom mi ∖ visi ⊆ dom m ∖ ({[k]} ∪ vis)) as Hsub by set_solver.
      apply subseteq_size in Hsub. lia. }
    eexists. split; [exact Hstep|].
    apply earliestIter_Some in Hstep as [?|Hr]; [by simplify_eq|].
    apply calculateEarliestTimes_spec in Hr as (_ & Hv' & He' & _).
    apply evolves_dom in He'. unfold J. simpl. split; [congruence|set_solver].
  - done.
  - rewrite E. done.
Qed.

(** *** The forward pass *)

Lemma forwardPass_spec fuel todos graph m n m' n' :
  Timed.forwardPass clock fuel todos graph (m, n) = Some (m', n') →
  (n ≤ n')%nat ∧ evolves clock graph n n' m m' ∧
  ∀ t e', t ∈ todos → m' !! id t = Some e' →
          is_Some (earliestFinishDate e').
Proof.
  unfold Timed.forwardPass. intros Hrun.
  pose (J := λ (done : list TodoWithDependencies)
               (s : gmap Z TodoWithCriticalPath * nat),
          (n ≤ s.2)%nat ∧ evolves clock graph n s.2 m s.1 ∧
          ∀ t e', t ∈ done → s.1 !! id t = Some e' →
                  is_Some (earliestFinishDate e')).
  apply (forOf_invariant _ J todos) in Hrun; [done| |].
  - intros done t rest [mi ni] [mj nj] _ (Hn & He & Hset). simpl in *.
    destruct (visit fuel graph (id t) (mi, ∅, ni))
      as [[[mj' visj] nj']|] eqn:Hc; simpl; [|done].
    intros [= <- <-].
    apply calculateEarliestTimes_spec in Hc as (Hn' & _ & He' & Hown).
    unfold J. simpl. split_and!; [lia|by eapply evolves_trans|].
    intros t' e' [Ht'|Hs%list_elem_of_singleton]%elem_of_app Hl.
    + destruct (evolves_lookup _ _ _ _ _ _ _ He' Hl) as (e & Hle & Hst).
      eapply stamped_set; [exact Hst|]. by apply (Hset t').
    + subst t'. apply Hown; [set_solver|done].
  - unfold J. simpl. split_and!; [done|apply evolves_refl|].
    by intros t e' ?%elem_of_nil.
Qed.

Lemma forwardPass_total fuel todos graph m n :
  (size (dom m) < fuel)%nat →
  is_Some (Timed.forwardPass clock fuel todos graph (m, n)).
Proof.
  intros Hsz. unfold Timed.forwardPass.
  destruct (forOf_total
    (λ t (s : gmap Z TodoWithCriticalPath * nat),
       st ← visit fuel graph (id t) (s.1, ∅, s.2); Some (st.1.1, st.2))
    (λ _ s, dom s.1 = dom m) todos) with (s := (m, n))
    as (s' & -> & _); [|done|by eexists].
  intros done t rest [mi ni] _ Hd. simpl in Hd.
  destruct (calculateEarliestTimes_total fuel graph (id t) mi ∅ ni)
    as [[[mj visj] nj] Hc].
  { rewrite Hd. replace (dom m ∖ ∅) with (dom m) by set_solver. done. }
  simpl. rewrite Hc. simpl. eexists. split; [done|]. simpl.
  apply calculateEarliestTimes_spec in Hc as (_ & _ & He & _).
  apply evolves_dom in He. congruence.
Qed.

End TimedFacts.

Section TimedRun.

Variable clock : nat → Z.
Variable tz : Z.

(** *** Initialisation *)

Lemma timed_buildMaps_snoc todos t :
  Timed.buildMaps clock tz (todos ++ [t]) =
  (<[id t := initTodo (clock (Timed.buildMaps clock tz todos).2) tz t]>
     (Timed.buildMaps clock tz todos).1.1,
   <[id t := newSet (dependencies t)]> (Timed.buildMaps clock tz todos).1.2,
   match dueDate t with
   | Some _ => S (Timed.buildMaps clock tz todos).2
   | None => (Timed.buildMaps clock tz todos).2
   end).
Proof.
  unfold Timed.buildMaps. rewrite fold_left_app. simpl.
  by destruct (fold_left _ todos _) as [[m g] n].
Qed.

(** The record and the dependency set of a key stem from one supplied
    task with that id; the duration was computed from a reading of the
    clock when the task has a due date. *)
Lemma timed_buildMaps_lookup todos k e0 :
  (Timed.buildMaps clock tz todos).1.1 !! k = Some e0 →
  ∃ t i, t ∈ todos ∧ id t = k ∧ e0 = initTodo (clock i) tz t ∧
         (is_Some (dueDate t) → (i < (Timed.buildMaps clock tz todos).2)%nat) ∧
         (Timed.buildMaps clock tz todos).1.2 !! k
         = Some (newSet (dependencies t)).
Proof.
  induction todos as [|t todos IH] using rev_ind; [done|].
  rewrite timed_buildMaps_snoc. simpl.
  destruct (decide (id t = k)) as [<-|Hne].
  - rewrite !lookup_insert_eq. intros; simplify_eq.
    exists t, (Timed.buildMaps clock tz todos).2.
    split_and!; [set_solver|done|done| |done].
    intros [d Hd]. rewrite Hd. lia.
  - rewrite !lookup_insert_ne by done. intros He0.
    destruct (IH He0) as (t' & i & Ht' & Hid & -> & Hi & Hg).
    exists t', i. split_and!; [set_solver|done|done| |done].
    intros Hd. specialize (Hi Hd). destruct (dueDate t); lia.
Qed.

Lemma timed_buildMaps_dom todos :
  ∀ k, k ∈ dom (Timed.buildMaps clock tz todos).1.1 ↔
       ∃ t, t ∈ todos ∧ id t = k.
Proof.
  induction todos as [|t todos IH] using rev_ind; intros k.
  { split; [set_solver|]. intros (t & Ht & _). by apply elem_of_nil in Ht. }
  rewrite timed_buildMaps_snoc. simpl. rewrite dom_insert, elem_of_union, IH.
  rewrite elem_of_singleton. split.
  - intros [->|(t' & Ht' & Hid)]; [exists t|exists t']; set_solver.
  - intros (t' & [Ht'|Hs%list_elem_of_singleton]%elem_of_app & Hid).
    + right. by exists t'.
    + left. by subst.
Qed.

Lemma timed_buildMaps_size todos :
  (size (dom (Timed.buildMaps clock tz todos).1.1) ≤ length todos)%nat.
Proof.
  induction todos as [|t todos IH] using rev_ind; [done|].
  rewrite timed_buildMaps_snoc, length_app. simpl. rewrite dom_insert_L.
  rewrite size_union_alt, size_singleton.
  assert (size (dom (Timed.buildMaps clock tz todos).1.1 ∖ {[id t]})
          ≤ size (dom (Timed.buildMaps clock tz todos).1.1))%nat.
  { apply subseteq_size. set_solver. }
  lia.
Qed.

(** *** The run *)

Lemma timed_schedule_Some fuel todos m2 r :
  Timed.schedule clock tz fuel todos = Some (m2, r) ↔
  ∃ m1 n1,
    Timed.forwardPass clock fuel todos (Timed.buildMaps clock tz todos).1.2
      ((Timed.buildMaps clock tz todos).1.1,
       (Timed.buildMaps clock tz todos).2) = Some (m1, n1) ∧
    backwardPass fuel todos (projectEndDate (clock n1) todos m1) m1 = Some m2 ∧
    r = S n1.
Proof.
  unfold Timed.schedule.
  destruct (Timed.buildMaps clock tz todos) as [[m0 g] n0]. simpl.
  destruct (Timed.forwardPass _ _ _ _ _) as [[m1 n1]|] eqn:Hf; simpl.
  2:{ split; [done|]. by intros (? & ? & ? & _). }
  destruct (backwardPass _ _ _ _) as [m2'|] eqn:Hb; simpl.
  - split.
    + intros; simplify_eq. exists m1, n1. by split_and!.
    + intros (? & ? & ? & ? & ?). by simplify_eq.
  - split; [done|]. intros (? & ? & ? & ? & ?). by simplify_eq.
Qed.

(** The map of a run is the scheduled map with the marks of a path, which
    is the traced path, or empty when the trace did not complete. *)
Lemma run_Some fuel todos m r :
  Timed.run clock tz fuel todos = Some (m, r) ↔
  ∃ m2 path,
    Timed.schedule clock tz fuel todos = Some (m2, r) ∧
    m = markCritical path m2 ∧
    (findCriticalPath fuel todos m2 = Some path ∨
     findCriticalPath fuel todos m2 = None ∧ path = []).
Proof.
  unfold Timed.run.
  destruct (Timed.schedule clock tz fuel todos) as [[m2 r2]|]; simpl.
  2:{ split; [done|]. by intros (? & ? & ? & _). }
  destruct (findCriticalPath fuel todos m2) as [p|] eqn:Hp.
  - split.
    + intros; simplify_eq. exists m2, p. split_and!; [done|done|by left].
    + intros (? & ? & ? & -> & [?|[? _]]); by simplify_eq.
  - split.
    + intros; simplify_eq. exists m, []. split_and!; [done|done|by right].
    + intros (? & ? & ? & -> & [?|[_ ->]]); by simplify_eq.
Qed.

(** With a recursion depth above the number of tasks the two passes
    complete, and the run returns. *)
Lemma schedule_returns fuel todos :
  (length todos < fuel)%nat →
  is_Some (Timed.schedule clock tz fuel todos).
Proof.
  intros Hfuel. pose proof (timed_buildMaps_size todos) as Hsz.
  destruct (forwardPass_total clock fuel todos
              (Timed.buildMaps clock tz todos).1.2
              (Timed.buildMaps clock tz todos).1.1
              (Timed.buildMaps clock tz todos).2) as [[m1 n1] Hfwd]; [lia|].
  destruct (passOver_total (dependentsOf todos) latestStartDate earlierThan
              (projectEndDate (clock n1) todos m1)
              (latestLeaf (projectEndDate (clock n1) todos m1)) latestAssign
              fuel todos m1) as [m2 Hbwd].
  { apply forwardPass_spec in Hfwd as (_ & He & _).
    apply evolves_dom in He. rewrite He. lia. }
  rewrite <- backwardPass_passOver in Hbwd.
  exists (m2, S n1). apply timed_schedule_Some. by exists m1, n1.
Qed.

Lemma run_returns fuel todos :
  (length todos < fuel)%nat → is_Some (Timed.run clock tz fuel todos).
Proof.
  intros [[m2 r] Hs]%schedule_returns. unfold Timed.run. rewrite Hs. simpl.
  by destruct (findCriticalPath fuel todos m2).
Qed.

(** The records of the maps of a run, for one key of the result. *)
Lemma run_records_timed fuel todos m r k e :
  Timed.run clock tz fuel todos = Some (m, r) →
  m !! k = Some e →
  ∃ m1 n1 m2 e0 e1 e2,
    Timed.forwardPass clock fuel todos (Timed.buildMaps clock tz todos).1.2
      ((Timed.buildMaps clock tz todos).1.1,
       (Timed.buildMaps clock tz todos).2) = Some (m1, n1) ∧
    backwardPass fuel todos (projectEndDate (clock n1) todos m1) m1 = Some m2 ∧
    r = S n1 ∧
    (∀ seed, projectEndDate seed todos m = projectEndDate seed todos m1) ∧
    (∀ j e', m1 !! j = Some e' → forwardOk e') ∧
    (Timed.buildMaps clock tz todos).1.1 !! k = Some e0 ∧
    m1 !! k = Some e1 ∧ m2 !! k = Some e2 ∧
    stamped clock (Timed.buildMaps clock tz todos).1.2
      (Timed.buildMaps clock tz todos).2 n1 k e0 e1 ∧
    is_Some (earliestFinishDate e1) ∧
    sameEarliest e1 e2 ∧ sameTask e0 e2 ∧
    todo e = todo e2 ∧ duration e = duration e2 ∧
    earliestStartDate e = earliestStartDate e2 ∧
    earliestFinishDate e = earliestFinishDate e2 ∧
    latestStartDate e = latestStartDate e2 ∧
    latestFinishDate e = latestFinishDate e2 ∧
    slack e = slack e2 ∧
    scheduleOk e2 ∧ allSet e2 ∧
    todo e ∈ todos ∧ id (todo e) = k ∧
    forwardNeighbours (Timed.buildMaps clock tz todos).1.2 k
    = newSet (dependencies (todo e)).
Proof.
  intros (m2 & path & Hs & -> & _)%run_Some He.
  apply timed_schedule_Some in Hs as (m1 & n1 & Hfwd & Hbwd & ->).
  apply markCritical_fields in He
    as (e2 & He2 & Htodo & Hdur & Hes & Hef & Hls & Hlf & Hsl).
  pose proof (forwardPass_spec _ _ _ _ _ _ _ _ Hfwd) as (Hn & Hev & Hset1).
  pose proof (backwardPass_facts _ _ _ _ _ Hbwd)
    as (Hd2 & Hok2 & Hp2 & He21 & Hset2).
  destruct (He21 k e2 He2) as (e1 & He1 & Hsame).
  destruct (evolves_lookup _ _ _ _ _ _ _ _ Hev He1) as (e0 & He0 & Hst).
  destruct (timed_buildMaps_lookup _ _ _ He0)
    as (t & i & Ht & Hid & He0' & _ & Hg).
  assert (∀ j e', m1 !! j = Some e' → forwardOk e') as Hok1.
  { intros j e' Hj.
    destruct (evolves_lookup _ _ _ _ _ _ _ _ Hev Hj) as (e'0 & Hj0 & Hst').
    apply (stamped_forwardOk _ _ _ _ _ _ _ Hst').
    destruct (timed_buildMaps_lookup _ _ _ Hj0) as (t' & i' & _ & _ & -> & _).
    by split_and!. }
  assert (sameTask e0 e2) as Hsame02.
  { assert (passive (λ j e', j = k → sameTask e0 e')) as Hpas.
    { intros j ea eb (H1 & H2 & H3 & H4) H0 Hj.
      destruct (H0 Hj) as (H1' & H2' & H3' & H4').
      split_and!; congruence. }
    apply (Hp2 _ Hpas) with (i := k) (x := e2); [|done|done].
    intros j e' Hj ->. rewrite He1 in Hj. simplify_eq.
    by eapply stamped_sameTask. }
  assert (is_Some (earliestFinishDate e1)) as Hef1.
  { apply (Hset1 t e1 Ht). by rewrite Hid. }
  assert (scheduleOk e2) as Hsok.
  { apply (Hok2 ltac:(intros j e' Hj; apply forwardOk_scheduleOk; eauto) k e2 He2). }
  assert (allSet e2) as Hall.
  { destruct Hsame as [Hes2 Hef2]. destruct Hsok as (Heok & Hlok & _).
    assert (is_Some (latestStartDate e2)) as Hls2.
    { apply (Hset2 t e2 Ht). by rewrite Hid. }
    unfold allSet, earliestOk, latestOk in *.
    rewrite Hef2 in *. destruct Hef1 as [? Hef1]. rewrite Hef1 in Heok.
    destruct Hls2 as [? Hls2]. rewrite Hls2 in Hlok.
    destruct (earliestStartDate e2); [|done].
    destruct (latestFinishDate e2); [|done].
    split_and!; by eexists. }
  assert (todo e0 = t) as Ht0 by (by rewrite He0').
  pose proof Hsame02 as (Ht02 & _).
  exists m1, n1, m2, e0, e1, e2.
  split_and!; try done.
  - intros seed. apply projectEndDate_ext. intros t' _.
    rewrite markCritical_finish.
    destruct (m2 !! id t') as [e'|] eqn:E.
    + destruct (He21 _ _ E) as (e1' & -> & _ & Hf). simpl. done.
    + assert (m1 !! id t' = None) as ->; [|done].
      apply not_elem_of_dom. rewrite <- Hd2. by apply not_elem_of_dom.
  - by rewrite Htodo, Ht02, Ht0.
  - by rewrite Htodo, Ht02, Ht0.
  - unfold forwardNeighbours. by rewrite Hg, Htodo, Ht02, Ht0.
Qed.

End TimedRun.

(** ** A clock that does not advance *)

Section StandingClock.

Variable clock : nat → Z.
Variables now tz : Z.
Hypothesis Hstanding : ∀ i, clock i = now.

Lemma buildMaps_standing todos :
  (Timed.buildMaps clock tz todos).1 = buildMaps now tz todos.
Proof.
  induction todos as [|t todos IH] using rev_ind; [done|].
  rewrite timed_buildMaps_snoc, buildMaps_snoc, <- IH, Hstanding. done.
Qed.

Lemma calculateEarliestTimes_standing fuel graph k st :
  untimed <$> Timed.calculateEarliestTimes clock fuel graph k st
  = calculateEarliestTimes now fuel graph k (untimed st).
Proof.
  rewrite calculateEarliestTimes_traverse.
  revert k st. induction fuel as [|fuel IH]; intros k [[m vis] n]; [done|].
  rewrite calculateEarliestTimes_unfold.
  change (untimed (m, vis, n)) with ((m, vis) : PassState).
  rewrite traverse_unfold.
  destruct (decide (k ∈ vis)) as [Hin|Hin]; [done|].
  destruct (m !! k); [|done].
  destruct (decide (forwardNeighbours graph k = [])) as [Hns|Hns].
  { simpl. by rewrite Hstanding. }
  pose proof (forOf_sim
    (Timed.earliestIter (Timed.calculateEarliestTimes clock fuel graph))
    (visitIter earliestFinishDate laterThan
       (traverse (forwardNeighbours graph) earliestFinishDate laterThan 0
          (earliestAssign now) earliestAssign fuel))
    untimedLoop (forwardNeighbours graph k) (0, (m, {[k]} ∪ vis, n))) as Hsim.
  change (untimedLoop (0, (m, {[k]} ∪ vis, n)))
    with ((0, (m, {[k]} ∪ vis)) : Z * PassState) in Hsim.
  rewrite <- Hsim.
  - by destruct (forOf _ _ _) as [[acc [[m1 vis1] n1]]|].
  - intros x [a [[mi visi] ni]].
    unfold Timed.earliestIter, visitIter, untimedLoop, untimed. simpl.
    destruct (mi !! x) as [d|]; [|done].
    destruct (earliestFinishDate d); simpl.
    + unfold laterThan.
      destruct (mi !! x ≫= earliestFinishDate); [case_bool_decide|]; done.
    + pose proof (IH x (mi, visi, ni)) as IHx.
      unfold untimed in IHx. simpl in IHx. rewrite <- IHx.
      destruct (Timed.calculateEarliestTimes clock fuel graph x (mi, visi, ni))
        as [[[mj visj] nj]|]; simpl; [|done].
      unfold laterThan.
      destruct (mj !! x ≫= earliestFinishDate); [case_bool_decide|]; done.
Qed.

Lemma forwardPass_standing fuel todos graph m n :
  fst <$> Timed.forwardPass clock fuel todos graph (m, n)
  = forwardPass now fuel todos graph m.
Proof.
  unfold Timed.forwardPass, forwardPass.
  apply (forOf_sim _ _ fst todos (m, n)).
  intros t [mi ni]. simpl.
  pose proof (calculateEarliestTimes_standing fuel graph (id t) (mi, ∅, ni))
    as Hc.
  change (untimed (mi, ∅, ni)) with ((mi, ∅) : PassState) in Hc.
  rewrite <- Hc.
  by destruct (Timed.calculateEarliestTimes _ _ _ _ _) as [[[mj visj] nj]|].
Qed.

Lemma schedule_standing fuel todos :
  fst <$> Timed.schedule clock tz fuel todos = schedule now tz fuel todos.
Proof.
  unfold Timed.schedule, schedule.
  pose proof (buildMaps_standing todos) as Hb.
  destruct (Timed.buildMaps clock tz todos) as [[m0 g] n0].
  destruct (buildMaps now tz todos) as [m0' g']. simpl in Hb. simplify_eq.
  rewrite <- (forwardPass_standing fuel todos g' m0' n0).
  destruct (Timed.forwardPass _ _ _ _ _) as [[m1 n1]|]; simpl; [|done].
  rewrite Hstanding.
  by destruct (backwardPass _ _ _ _).
Qed.

(** When the clock does not advance during the run, the run is the one of
    the definitions with one reading, completed by the [catch] block. *)
Lemma standing_clock fuel todos :
  Timed.calculateCriticalPath clock tz fuel todos =
  m2 ← schedule now tz fuel todos;
  Some (match findCriticalPath fuel todos m2 with
        | Some path => markCritical path m2
        | None => m2
        end).
Proof.
  unfold Timed.calculateCriticalPath, Timed.run.
  rewrite <- schedule_standing.
  destruct (Timed.schedule clock tz fuel todos) as [[m2 r]|]; simpl; [|done].
  by destruct (findCriticalPath fuel todos m2).
Qed.

Lemma standing_clock_try fuel todos m :
  calculateCriticalPath now tz fuel todos = Some m →
  Timed.calculateCriticalPath clock tz fuel todos = Some m.
Proof.
  intros (m2 & path & Hs & Hp & ->)%calculateCriticalPath_Some.
  rewrite standing_clock, Hs. simpl. by rewrite Hp.
Qed.

End StandingClock.

(** ** The readings a run depends on *)

Section Footprint.

Variables clock1 clock2 : nat → Z.
Variable tz : Z.
Variable bound : nat.
Hypothesis Hagree : ∀ i, (i < bound)%nat → clock2 i = clock1 i.

Lemma initTodo_no_due c c' t :
  dueDate t = None → initTodo c tz t = initTodo c' tz t.
Proof. intros Hd. unfold initTodo. by rewrite Hd. Qed.

Lemma timed_buildMaps_reads clock todos t :
  ((Timed.buildMaps clock tz todos).2
   ≤ (Timed.buildMaps clock tz (todos ++ [t])).2)%nat.
Proof. rewrite timed_buildMaps_snoc. simpl. destruct (dueDate t); lia. Qed.

Lemma buildMaps_footprint todos :
  ((Timed.buildMaps clock1 tz todos).2 ≤ bound)%nat →
  Timed.buildMaps clock2 tz todos = Timed.buildMaps clock1 tz todos.
Proof.
  induction todos as [|t todos IH] using rev_ind; [done|].
  intros Hb. pose proof (timed_buildMaps_reads clock1 todos t) as Hle.
  rewrite !timed_buildMaps_snoc in *. rewrite IH by lia. simpl in Hb.
  destruct (dueDate t) as [d|] eqn:Hd.
  - by rewrite Hagree by lia.
  - by rewrite (initTodo_no_due _ (clock1 (Timed.buildMaps clock1 tz todos).2)).
Qed.

Lemma earliestIter_congr recur recur' x s s' :
  Timed.earliestIter recur x s = Some s' →
  (recur x s.2 = Some s'.2 → recur' x s.2 = Some s'.2) →
  Timed.earliestIter recur' x s = Some s'.
Proof.
  destruct s as [a st], s' as [a' st']. unfold Timed.earliestIter. simpl.
  destruct (st.1.1 !! x) as [d|]; [|done].
  destruct (earliestFinishDate d); simpl; [done|].
  destruct (recur x st) as [st1|] eqn:Hr; simpl; [|done].
  intros H Hcall.
  assert (st1 = st') as ->.
  { destruct (st1.1.1 !! x ≫= earliestFinishDate); [case_bool_decide|];
      by simplify_eq. }
  by rewrite Hcall.
Qed.

Lemma calculateEarliestTimes_footprint fuel graph k st st' :
  Timed.calculateEarliestTimes clock1 fuel graph k st = Some st' →
  (st'.2 ≤ bound)%nat →
  Timed.calculateEarliestTimes clock2 fuel graph k st = Some st'.
Proof.
  revert k st st'.
  induction fuel as [|fuel IH]; intros k [[m vis] n] [[m' vis'] n']; [done|].
  rewrite !calculateEarliestTimes_unfold. simpl.
  destruct (decide (k ∈ vis)) as [Hin|Hin]; [done|].
  destruct (m !! k); [|done].
  destruct (decide (forwardNeighbours graph k = [])) as [Hns|Hns].
  { intros [= <- <- <-] Hb. by rewrite Hagree by lia. }
  destruct (forOf _ _ _) as [[acc [[m1 vis1] n1]]|] eqn:E; simpl; [|done].
  intros [= <- <- <-] Hb.
  assert (∀ x (s1 s2 : Z * Timed.TimedState),
            Timed.earliestIter (Timed.calculateEarliestTimes clock1 fuel graph)
              x s1 = Some s2 →
            (s2.2.2 ≤ bound)%nat →
            Timed.earliestIter (Timed.calculateEarliestTimes clock2 fuel graph)
              x s1 = Some s2 ∧ (s1.2.2 ≤ bound)%nat) as Hsteps.
  { intros x [a [[mi visi] ni]] [a' [[mj visj] nj]] Hstep Hq. simpl in Hq.
    split.
    - apply (earliestIter_congr _ _ _ _ _ Hstep). simpl. intros Hr.
      by apply IH.
    - simpl. apply earliestIter_Some in Hstep as [?|Hr]; [by simplify_eq|].
      apply calculateEarliestTimes_spec in Hr as (? & _). lia. }
  destruct (forOf_transfer _ _ (λ s : Z * Timed.TimedState, (s.2.2 ≤ bound)%nat)
              _ _ _ Hsteps E Hb) as [-> _].
  done.
Qed.

Lemma forwardPass_footprint fuel todos graph s s' :
  Timed.forwardPass clock1 fuel todos graph s = Some s' →
  (s'.2 ≤ bound)%nat →
  Timed.forwardPass clock2 fuel todos graph s = Some s'.
Proof.
  unfold Timed.forwardPass. intros Hrun Hb.
  assert (∀ t (s1 s2 : gmap Z TodoWithCriticalPath * nat),
            (st ← Timed.calculateEarliestTimes clock1 fuel graph (id t)
                    (s1.1, ∅, s1.2);
             Some (st.1.1, st.2)) = Some s2 →
            (s2.2 ≤ bound)%nat →
            (st ← Timed.calculateEarliestTimes clock2 fuel graph (id t)
                    (s1.1, ∅, s1.2);
             Some (st.1.1, st.2)) = Some s2 ∧ (s1.2 ≤ bound)%nat) as Hsteps.
  { intros t [mi ni] [mj nj]. simpl.
    destruct (Timed.calculateEarliestTimes clock1 _ _ _ _)
      as [[[mj' visj] nj']|] eqn:Hc; simpl; [|done].
    intros [= <- <-] Hq.
    rewrite (calculateEarliestTimes_footprint _ _ _ _ _ Hc) by done. simpl.
    split; [done|].
    apply calculateEarliestTimes_spec in Hc as (? & _). lia. }
  destruct (forOf_transfer _ _
              (λ s : gmap Z TodoWithCriticalPath * nat, (s.2 ≤ bound)%nat)
              _ _ _ Hsteps Hrun Hb) as [-> _].
  done.
Qed.

(** The two passes replay under a clock that agrees with the first on the
    readings they took. *)
Lemma timed_schedule_footprint fuel todos m2 :
  Timed.schedule clock1 tz fuel todos = Some (m2, bound) →
  Timed.schedule clock2 tz fuel todos = Some (m2, bound).
Proof.
  intros (m1 & n1 & Hfwd & Hbwd & Hr)%timed_schedule_Some.
  pose proof (forwardPass_spec _ _ _ _ _ _ _ _ Hfwd) as (Hn & _).
  apply timed_schedule_Some. exists m1, n1.
  rewrite buildMaps_footprint by lia.
  split_and!; [|by rewrite Hagree by lia|done].
  apply (forwardPass_footprint _ _ _ _ _ Hfwd). simpl. lia.
Qed.

End Footprint.

(** ** More recursion depth *)

Section TimedDepth.

Variable clock : nat → Z.
Variable tz : Z.

Lemma timed_visit_mono fuel fuel' graph k st st' :
  (fuel ≤ fuel')%nat →
  Timed.calculateEarliestTimes clock fuel graph k st = Some st' →
  Timed.calculateEarliestTimes clock fuel' graph k st = Some st'.
Proof.
  revert fuel' k st st'.
  induction fuel as [|fuel IH];
    intros [|fuel'] k [[m vis] n] [[m' vis'] n'] Hle; [done|done|lia|].
  rewrite !calculateEarliestTimes_unfold.
  destruct (decide (k ∈ vis)); [done|].
  destruct (m !! k); [|done].
  destruct (decide (forwardNeighbours graph k = [])); [done|].
  destruct (forOf _ _ _) as [s|] eqn:E; simpl; [|done].
  intros [= <- <- <-].
  assert (∀ x s1 s2,
            Timed.earliestIter (Timed.calculateEarliestTimes clock fuel graph)
              x s1 = Some s2 →
            Timed.earliestIter (Timed.calculateEarliestTimes clock fuel' graph)
              x s1 = Some s2) as Hsteps.
  { intros x s1 s2 Hstep. apply (earliestIter_congr _ _ _ _ _ Hstep).
    apply IH. lia. }
  by rewrite (forOf_mono _ _ _ _ _ Hsteps E).
Qed.

Lemma timed_forwardPass_mono fuel fuel' todos graph s s' :
  (fuel ≤ fuel')%nat →
  Timed.forwardPass clock fuel todos graph s = Some s' →
  Timed.forwardPass clock fuel' todos graph s = Some s'.
Proof.
  intros Hle. unfold Timed.forwardPass. apply forOf_mono.
  intros t [mi ni] r. simpl.
  destruct (Timed.calculateEarliestTimes clock fuel _ _ _) as [st|] eqn:Hc;
    simpl; [|done].
  by rewrite (timed_visit_mono _ _ _ _ _ _ Hle Hc).
Qed.

Lemma timed_schedule_mono fuel fuel' todos m2 r :
  (fuel ≤ fuel')%nat →
  Timed.schedule clock tz fuel todos = Some (m2, r) →
  Timed.schedule clock tz fuel' todos = Some (m2, r).
Proof.
  intros Hle (m1 & n1 & Hfwd & Hbwd & ->)%timed_schedule_Some.
  apply timed_schedule_Some. exists m1, n1. split_and!; [| |done].
  - by apply (timed_forwardPass_mono fuel).
  - rewrite backwardPass_passOver in *.
    by apply (passOver_mono _ _ _ _ _ _ fuel).
Qed.

(** A trace that completes at some depth completes at every larger one, and
    the run returns the same map. *)
Lemma timed_run_mono fuel fuel' todos m2 r path :
  (fuel ≤ fuel')%nat →
  Timed.schedule clock tz fuel todos = Some (m2, r) →
  findCriticalPath fuel todos m2 = Some path →
  Timed.run clock tz fuel' todos = Some (markCritical path m2, r).
Proof.
  intros Hle Hs Hp. unfold Timed.run.
  rewrite (timed_schedule_mono _ _ _ _ _ Hle Hs). simpl.
  by rewrite (findCriticalPath_mono _ _ _ _ _ Hle Hp).
Qed.

(** A trace that completes at no depth leaves the scheduled map to the
    [catch] block at every depth. *)
Lemma timed_run_caught fuel fuel' todos m2 r :
  (fuel ≤ fuel')%nat →
  Timed.schedule clock tz fuel todos = Some (m2, r) →
  (∀ depth, findCriticalPath depth todos m2 = None) →
  Timed.run clock tz fuel' todos = Some (m2, r).
Proof.
  intros Hle Hs Hp. unfold Timed.run.
  rewrite (timed_schedule_mono _ _ _ _ _ Hle Hs). simpl.
  by rewrite Hp.
Qed.

End TimedDepth.

(** ** What the run returns *)

Section TimedClaims.

Variable clock : nat → Z.
Variable tz : Z.

(** Every supplied task has a record in the map of a run. *)
Lemma run_lookup fuel todos m r t :
  Timed.run clock tz fuel todos = Some (m, r) →
  t ∈ todos → is_Some (m !! id t).
Proof.
  intros (m2 & path & Hs & -> & _)%run_Some Ht.
  apply timed_schedule_Some in Hs as (m1 & n1 & Hfwd & Hbwd & _).
  apply forwardPass_spec in Hfwd as (_ & Hev & _).
  apply evolves_dom in Hev.
  apply backwardPass_facts in Hbwd as (Hd2 & _).
  assert (id t ∈ dom m2) as [e2 He2]%elem_of_dom.
  { rewrite Hd2, Hev. apply timed_buildMaps_dom. by exists t. }
  rewrite markCritical_lookup, He2. by destruct (decide _).
Qed.

(** C6. With a recursion depth above the number of tasks,
    [calculateCriticalPath] returns on every task list, whatever its
    dependency graph and whatever the clock shows: the forward and the
    backward pass complete, and every supplied task, one caught in a cycle
    as well, has all four dates set in the map returned. *)
Theorem run_returns_scheduled fuel todos :
  (length todos < fuel)%nat →
  ∃ m2 m r,
    Timed.schedule clock tz fuel todos = Some (m2, r) ∧
    Timed.calculateCriticalPath clock tz fuel todos = Some m ∧
    ∀ t, t ∈ todos → ∃ e, m !! id t = Some e ∧ allSet e.
Proof.
  intros Hfuel.
  destruct (run_returns clock tz fuel todos Hfuel) as [[m r] Hrun].
  pose proof Hrun as (m2 & path & Hs & _)%run_Some.
  exists m2, m, r. split_and!; [done| |].
  { unfold Timed.calculateCriticalPath. by rewrite Hrun. }
  intros t Ht. destruct (run_lookup _ _ _ _ _ Hrun Ht) as [e He].
  exists e. split; [done|].
  destruct (run_records_timed _ _ _ _ _ _ _ _ Hrun He)
    as (_ & _ & _ & _ & _ & e2 & _ & _ & _ & _ & _ & _ & _ & _ & _ & _ & _ &
        _ & _ & _ & Hes & Hef & Hls & Hlf & _ & _ & Hall & _).
  unfold allSet in *. by rewrite Hes, Hef, Hls, Hlf.
Qed.

(** C7. In the map of a run, a task with an empty dependency list has its
    earliest start at the instant one of the readings of the clock of the
    run returned; when the dependents lists of the input are consistent
    with its dependency lists, a task with an empty dependents list has its
    latest finish at its due date if it has one, otherwise at the project
    end date, which starts from the last reading of the run. *)
Theorem boundary_readings fuel todos m r k e :
  Timed.run clock tz fuel todos = Some (m, r) →
  m !! k = Some e →
  (dependencies (todo e) = [] →
   ∃ i, (i < r)%nat ∧ earliestStartDate e = Some (clock i)) ∧
  (Consistent todos → dependents (todo e) = [] →
   ∃ i, r = S i ∧
        latestFinishDate e
        = Some (default (projectEndDate (clock i) todos m)
                  (dueDate (todo e)))).
Proof.
  intros Hrun He.
  destruct (run_records_timed _ _ _ _ _ _ _ _ Hrun He)
    as (m1 & n1 & m2 & e0 & e1 & e2 & Hfwd & Hbwd & -> & Hend & Hok1 &
        He0 & He1 & He2 & Hst & Hef1 & [Hes12 _] & _ & Htodo & _ &
        Hes & _ & _ & Hlf & _ & _ & _ & Hin & Hid & Hns).
  split.
  - intros Hdeps. rewrite Hdeps in Hns.
    destruct Hst as [->|(s & -> & Hs)].
    + apply timed_buildMaps_lookup in He0 as (t & i & _ & _ & -> & _).
      by destruct Hef1.
    + destruct (Hs Hns) as (i & Hi & ->).
      exists i. split; [lia|]. by rewrite Hes, Hes12.
  - intros Hc Hdpts. exists n1. split; [done|].
    rewrite Hlf, Hend, Htodo. rewrite Htodo in Hdpts, Hin, Hid.
    rewrite <- Hid in He2.
    assert (∀ j e', m1 !! j = Some e' → latestStartDate e' = None) as Hinit.
    { intros j e' Hj. by destruct (Hok1 j e' Hj). }
    apply (backwardPass_schedule _ _ _ _ _ Hbwd Hinit (todo e2) e2 Hin He2).
    apply elem_of_nil_inv. intros x Hx.
    apply dependentsOf_depends in Hx as (t' & Ht' & _ & Hdep).
    apply (Hc t' (todo e2) Ht' Hin) in Hdep. rewrite Hdpts in Hdep.
    by apply elem_of_nil in Hdep.
Qed.

(** The backward pass reads no clock: on an acyclic list, whatever the
    clock returns, the latest finish of a dependency is not after the
    latest start of its dependent. *)
Lemma latest_precedence fuel todos m r t kb e eb :
  Timed.run clock tz fuel todos = Some (m, r) →
  Acyclic todos →
  t ∈ todos → kb ∈ dependencies t →
  m !! id t = Some e → m !! kb = Some eb →
  ∃ ls lf, latestStartDate e = Some ls ∧ latestFinishDate eb = Some lf ∧
           lf ≤ ls.
Proof.
  intros Hrun Hacyc Ht Hkb He Heb.
  destruct (run_records_timed _ _ _ _ _ _ _ _ Hrun He)
    as (m1 & n1 & m2 & e0 & e1 & e2 & Hfwd & Hbwd & _ & _ & Hok1 &
        _ & _ & He2 & _ & _ & _ & _ & _ & _ &
        _ & _ & Hls & _ & _ & _ & _ & _ & _ & _).
  destruct (run_records_timed _ _ _ _ _ _ _ _ Hrun Heb)
    as (m1' & n1' & m2' & eb0 & eb1 & eb2 & Hfwd' & Hbwd' & _ & _ & _ &
        _ & _ & Heb2 & _ & _ & _ & _ & _ & _ &
        _ & _ & _ & Hlf & _ & _ & (_ & _ & Hsetb & _) & _).
  assert (m1' = m1 ∧ n1' = n1) as [-> ->] by (split; congruence).
  assert (m2' = m2) as -> by congruence.
  assert (∀ j e', m1 !! j = Some e' → latestStartDate e' = None) as Hinit.
  { intros j e' Hj. by destruct (Hok1 j e' Hj). }
  destruct (backwardPass_schedule _ _ _ _ _ Hbwd Hinit t e2 Ht He2)
    as [_ Hlate].
  destruct (Hlate Hacyc kb eb2 Hkb Heb2 Hsetb) as (ls & lf & ? & ? & ?).
  exists ls, lf. split_and!; congruence || done.
Qed.


End TimedClaims.

(** ** The readings a run depends on, continued *)


(** ** Runs within one instant *)

Section SameInstant.

Variable clock : nat → Z.
Variables now tz : Z.

(** A run all of whose readings return [now] is a run under the clock that
    stands at [now]. *)
Lemma run_same_instant fuel todos m r :
  Timed.run clock tz fuel todos = Some (m, r) →
  (∀ i, (i < r)%nat → clock i = now) →
  Timed.run (standing now) tz fuel todos = Some (m, r).
Proof.
  intros (m2 & path & Hs & -> & Hp)%run_Some Hsame.
  apply run_Some. exists m2, path. split_and!; [|done|done].
  apply (timed_schedule_footprint clock (standing now) tz r); [|done].
  intros i Hi. symmetry. by apply Hsame.
Qed.

(** Its forward pass is the one of the definitions with one reading. *)
Lemma forwardPass_same_instant fuel todos m1 n1 :
  Timed.forwardPass (standing now) fuel todos
    (Timed.buildMaps (standing now) tz todos).1.2
    ((Timed.buildMaps (standing now) tz todos).1.1,
     (Timed.buildMaps (standing now) tz todos).2) = Some (m1, n1) →
  forwardPass now fuel todos (buildMaps now tz todos).2
    (buildMaps now tz todos).1 = Some m1.
Proof.
  intros Hfwd.
  rewrite <- (buildMaps_standing (standing now) now tz) by done.
  rewrite <- (forwardPass_standing (standing now) now ltac:(done) fuel todos _ _
                (Timed.buildMaps (standing now) tz todos).2).
  by rewrite Hfwd.
Qed.

(** The result and the map of the forward pass hold the same earliest
    finishes. *)
Lemma run_finishes (c : nat → Z) fuel todos m r m1 n1 :
  Timed.run c tz fuel todos = Some (m, r) →
  Timed.forwardPass c fuel todos (Timed.buildMaps c tz todos).1.2
    ((Timed.buildMaps c tz todos).1.1, (Timed.buildMaps c tz todos).2)
    = Some (m1, n1) →
  ∀ j, m !! j ≫= earliestFinishDate = m1 !! j ≫= earliestFinishDate.
Proof.
  intros (m2 & path & Hs & -> & _)%run_Some Hfwd j.
  apply timed_schedule_Some in Hs as (m1' & n1' & Hfwd' & Hbwd & _).
  assert (m1' = m1) as -> by congruence.
  pose proof (backwardPass_facts _ _ _ _ _ Hbwd) as (Hd2 & _ & _ & He21 & _).
  rewrite markCritical_finish.
  destruct (m2 !! j) as [e'|] eqn:E.
  - destruct (He21 _ _ E) as (e1' & -> & _ & Hf). simpl. done.
  - assert (m1 !! j = None) as ->; [|done].
    apply not_elem_of_dom. rewrite <- Hd2. by apply not_elem_of_dom.
Qed.

(** X9. When every reading of the clock during the run returns the same
    instant, on an acyclic list the earliest start of a task with
    dependencies is the latest of the earliest finishes of its dependencies
    that are supplied, and the epoch when none of these is later than the
    epoch. *)
Theorem earliest_start_tight fuel todos m r k e :
  Timed.run clock tz fuel todos = Some (m, r) →
  (∀ i, (i < r)%nat → clock i = now) →
  Acyclic todos →
  m !! k = Some e →
  dependencies (todo e) ≠ [] →
  ∃ es, earliestStartDate e = Some es ∧ 0 ≤ es ∧
    (∀ d ed ef, d ∈ dependencies (todo e) → m !! d = Some ed →
                earliestFinishDate ed = Some ef → ef ≤ es) ∧
    (es = 0 ∨
     ∃ d ed, d ∈ dependencies (todo e) ∧ m !! d = Some ed ∧
             earliestFinishDate ed = Some es).
Proof.
  intros Hrun Hsame Hacyc He Hne.
  apply run_same_instant in Hrun; [|done].
  destruct (run_records_timed _ _ _ _ _ _ _ _ Hrun He)
    as (m1 & n1 & m2 & e0 & e1 & e2 & Hfwd & _ & _ & _ & _ &
        _ & He1 & _ & _ & _ & [Hes12 _] & _ & _ & _ &
        Hes & _ & _ & _ & _ & _ & _ & _ & _ & Hns).
  pose proof (run_finishes _ _ _ _ _ _ _ Hrun Hfwd) as Hagree.
  apply forwardPass_same_instant in Hfwd.
  rewrite (buildMaps_standing (standing now) now tz) in Hns by done.
  assert (forwardNeighbours (buildMaps now tz todos).2 k ≠ []) as Hne'.
  { by rewrite Hns, newSet_nil. }
  pose proof (forwardPass_fixpoint _ _ _ _ _ _ _ Hfwd Hacyc He1 Hne') as Hfix.
  rewrite Hns in Hfix.
  rewrite <- (accOf_agree _ _ m) in Hfix by (intros; apply Hagree).
  set (es := accOf earliestFinishDate laterThan m
               (newSet (dependencies (todo e))) 0) in *.
  exists es. split_and!.
  - congruence.
  - apply accOf_laterThan.
  - intros d ed ef Hd Hed Hef.
    apply (proj2 (accOf_laterThan m (newSet (dependencies (todo e))) 0) d).
    + by apply elem_of_newSet.
    + by rewrite Hed.
  - destruct (accOf_attained earliestFinishDate laterThan m
                (newSet (dependencies (todo e))) 0)
      as [H0|(d & f & Hd & Hf & Hacc)]; [by left|right].
    rewrite elem_of_newSet in Hd.
    destruct (m !! d) as [ed|] eqn:Hed; [|done].
    exists d, ed. split_and!; try done. simpl in Hf. by rewrite Hf, <- Hacc.
Qed.

(** When every reading of the clock during the run returns the same
    instant, on an acyclic list whose dependents lists are consistent with
    its dependency lists the earliest start of a task is not before the
    earliest finish of a dependency. *)
Lemma earliest_precedence fuel todos m r t kb e eb :
  Timed.run clock tz fuel todos = Some (m, r) →
  (∀ i, (i < r)%nat → clock i = now) →
  Acyclic todos → Consistent todos →
  t ∈ todos → kb ∈ dependencies t →
  m !! id t = Some e → m !! kb = Some eb →
  ∃ es ef, earliestStartDate e = Some es ∧
           earliestFinishDate eb = Some ef ∧ ef ≤ es.
Proof.
  intros Hrun Hsame Hacyc Hc Ht Hkb He Heb.
  apply run_same_instant in Hrun; [|done].
  destruct (run_records_timed _ _ _ _ _ _ _ _ Hrun He)
    as (m1 & n1 & m2 & e0 & e1 & e2 & Hfwd & _ & _ & _ & _ &
        _ & He1 & _ & _ & _ & [Hes12 _] & [Ht02 _] & Htodo & _ &
        Hes & _ & _ & _ & _ & _ & _ & Hin & Hid & _).
  destruct (run_records_timed _ _ _ _ _ _ _ _ Hrun Heb)
    as (m1' & n1' & m2' & eb0 & eb1 & eb2 & Hfwd' & _ & _ & _ & _ &
        _ & Heb1 & _ & _ & _ & [_ Hef12] & _ & _ & _ &
        _ & Hef & _ & _ & _ & _ & _ & Hinb & Hidb & _).
  assert (m1' = m1) as -> by congruence.
  pose proof (forwardPass_facts _ _ _ _ _ _
                (forwardPass_same_instant _ _ _ _ Hfwd))
    as (_ & _ & Hp1 & _).
  destruct (Hp1 _ (passive_entryOf now tz todos)
              (buildMaps_entryOf now tz todos) (id t) e1 He1)
    as (Ht1 & Hid1 & _).
  assert (kb ∈ dependencies (todo e1)) as Hkb1.
  { rewrite <- Hidb. apply (Hc (todo e1) (todo eb) Ht1 Hinb).
    rewrite Hid1. apply (Hc t (todo eb) Ht Hinb). by rewrite Hidb. }
  destruct (forwardPass_schedule _ _ _ _ _
              (forwardPass_same_instant _ _ _ _ Hfwd) (id t) e1 He1)
    as [_ Hearly].
  destruct (Hearly Hacyc kb eb1 Hkb1 Heb1) as (es & ef & ? & ? & ?).
  exists es, ef. split_and!; congruence || done.
Qed.

End SameInstant.

(** * Worked examples *)

(** ** Checkable forms of the input conditions *)

Lemma Acyclic_by_rank todos (rank : Z → nat) :
  Forall (λ t, Forall (λ d, (rank d < rank (id t))%nat) (dependencies t)) todos →
  Acyclic todos.
Proof.
  intros Hrank.
  assert (∀ a b, tc (depends todos) a b → (rank b < rank a)%nat) as Hlt.
  { assert (∀ a b, depends todos a b → (rank b < rank a)%nat) as Hstep.
    { intros a b (t & Ht & <- & Hb).
      rewrite Forall_forall in Hrank. specialize (Hrank t Ht).
      rewrite Forall_forall in Hrank. by apply Hrank. }
    induction 1 as [a b Hab|a b c Hab _ IH].
    - by apply Hstep.
    - apply Hstep in Hab. lia. }
  intros a Ha. apply Hlt in Ha. lia.
Qed.

Lemma Consistent_Forall todos :
  Forall (λ a, Forall (λ b, id b ∈ dependencies a ↔ id a ∈ dependents b) todos)
    todos →
  Consistent todos.
Proof.
  intros H a b Ha Hb. rewrite Forall_forall in H. specialize (H a Ha).
  rewrite Forall_forall in H. by apply H.
Qed.

(** ** The chain

    Durations 3, 5 and 1; B starts when A finishes, three days after the
    reference time; the critical path is A, B, C and all three tasks are
    marked. *)

Lemma chain_run fuel :
  calculateCriticalPath now0 0 (4 + fuel) chain = Some chainMap.
Proof.
  apply (calculateCriticalPath_mono now0 0 4); [lia|]. by vm_compute.
Qed.

Lemma chain_acyclic : Acyclic chain.
Proof. apply (Acyclic_by_rank chain Z.to_nat). repeat constructor. Qed.

Lemma chain_consistent : Consistent chain.
Proof. apply Consistent_Forall. compute_done. Qed.

(** ** Inputs on which a claim fails *)


(** Two nodes that pick each other as critical predecessor: the trace
    never ends. *)
Lemma tracePath_loops m a b ea eb :
  m !! a = Some ea → m !! b = Some eb →
  List.find (zeroSlack m) (dependencies (todo ea)) = Some b →
  List.find (zeroSlack m) (dependencies (todo eb)) = Some a →
  ∀ fuel p, tracePath fuel m a p = None ∧ tracePath fuel m b p = None.
Proof.
  intros Ha Hb Hab Hba. induction fuel as [|fuel IH]; intros p; [done|].
  simpl. rewrite Ha, Hb, Hab, Hba. split; apply IH.
Qed.

(** ** Instances of the theorems *)

(** Local time is UTC and the reference time is in the day that starts at
    [midnight0]: a due date at the end of the third day after it gives 3, a
    due date at the end of the next day gives 1, and so does a due date a
    millisecond before the reference time. *)
Lemma calculateDuration_spec_witness :
  (midnight0 + 3 * msPerDay ≤ midnight0 + 3 * msPerDay + 86399999
   < midnight0 + 3 * msPerDay + msPerDay) ∧
  (midnight0 + 3 * msPerDay + 0) mod msPerDay = 0 ∧
  (midnight0 ≤ now0 < midnight0 + msPerDay) ∧
  (midnight0 + 0) mod msPerDay = 0 ∧
  ((3 - 1) * msPerDay < midnight0 + 3 * msPerDay - midnight0
   ≤ 3 * msPerDay) ∧
  calculateDuration now0 0 (Some (midnight0 + 3 * msPerDay + 86399999))
  = Z.max 1 3 ∧
  ((1 - 1) * msPerDay < midnight0 + 1 * msPerDay - midnight0
   ≤ 1 * msPerDay) ∧
  calculateDuration now0 0 (Some (midnight0 + 1 * msPerDay + 86399999))
  = Z.max 1 1 ∧
  now0 - 1 ≤ now0 ∧ calculateDuration now0 0 (Some (now0 - 1)) = 1.
Proof.
  pose proof (calculateDuration_spec now0 0)
    as (_ & _ & Hdays & _ & Hpast & _ & _).
  split_and!.
  1-8: by vm_compute.
  1: apply (Hdays _ (midnight0 + 3 * msPerDay) midnight0 3); by vm_compute.
  1-2: by vm_compute.
  1: apply (Hdays _ (midnight0 + 1 * msPerDay) midnight0 1); by vm_compute.
  1: by vm_compute.
  apply Hpast. by vm_compute.
Defined.




(** * Further worked examples *)

Lemma Supplied_Forall todos :
  Forall (λ t, Forall (λ d, d ∈ id <$> todos) (dependencies t)) todos →
  Supplied todos.
Proof.
  intros H t d Ht Hd. rewrite Forall_forall in H. specialize (H t Ht).
  rewrite Forall_forall in H. specialize (H d Hd).
  apply list_elem_of_fmap in H as (t' & -> & Ht'). by exists t'.
Qed.







(** On the cyclic list, A reaches itself through B, and nothing reached
    from A is the sink C. *)
Lemma cyclic_loop : tc (firstDepends cyclic) 1 1.
Proof.
  apply (tc_l _ 1 2 1); [|apply tc_once].
  - exists cycA. split; [done|]. compute_done.
  - exists cycB. split; [done|]. compute_done.
Qed.

Lemma cyclic_sink_unreached : ¬ tc (firstDepends cyclic) 1 (id cycC).
Proof.
  assert (∀ a b, tc (firstDepends cyclic) a b →
                 a ∈ [1; 2; 4] → b ∈ [1; 2; 4]) as Hclosed.
  { assert (∀ a b, firstDepends cyclic a b → a ∈ [1; 2; 4] → b ∈ [1; 2; 4])
      as Hstep.
    { intros a b (t & Hf & Hb) Ha.
      repeat (apply elem_of_cons in Ha as [->|Ha]);
        [| | |by apply elem_of_nil in Ha];
        vm_compute in Hf; simplify_eq; simpl in Hb; set_solver. }
    induction 1 as [a b Hab|a b c Hab _ IH]; intros Ha.
    - by apply (Hstep a b).
    - apply IH. by apply (Hstep a b). }
  intros Htc. specialize (Hclosed 1 (id cycC) Htc). simpl in Hclosed.
  set_solver.
Qed.

(** ** Instances of the further theorems *)


(** Task C of the chain, which finishes last. *)
Lemma projectEndDate_latest_witness :
  taskC ∈ chain ∧ chainMap !! id taskC = Some chainC ∧
  earliestFinishDate chainC = Some 1700777600000 ∧
  1700777600000 ≤ projectEndDate now0 chain chainMap.
Proof.
  assert (taskC ∈ chain) as Hin by (by repeat constructor).
  split_and!; [exact Hin|by vm_compute|done|].
  apply (proj1 (proj2 (projectEndDate_latest now0 chain chainMap))
           taskC chainC); [exact Hin|by vm_compute|done].
Defined.









(** The test asked whether W reaches X. *)
Lemma wouldCreateCycle_reachability_witness :
  wouldCreateCycle 2 [taskX; taskY; taskW] 3 1 = Some true ∧
  (true = true ↔ tc (firstDepends [taskX; taskY; taskW]) 3 1).
Proof.
  split; [by vm_compute|].
  apply (wouldCreateCycle_reachability [taskX; taskY; taskW] 2 3 1 true).
  by vm_compute.
Defined.

Lemma wouldCreateCycle_terminates_witness :
  Acyclic chain ∧ (length chain < 4)%nat ∧
  is_Some (wouldCreateCycle 4 chain 3 1).
Proof.
  split; [exact chain_acyclic|]. split; [simpl; lia|].
  apply (wouldCreateCycle_terminates chain 4 3 1);
    [exact chain_acyclic|simpl; lia].
Defined.

(** Task A of the cyclic list, asked about the sink C. *)
Lemma wouldCreateCycle_on_cycle_witness :
  tc (firstDepends cyclic) 1 1 ∧
  (wouldCreateCycle 9 cyclic 1 3 = Some true ∨
   wouldCreateCycle 9 cyclic 1 3 = None).
Proof.
  split; [exact cyclic_loop|].
  apply (wouldCreateCycle_on_cycle cyclic 9 1 3). exact cyclic_loop.
Defined.

(** The candidates for task B of the chain. *)
Lemma getAvailableDependencies_acyclic_witness :
  Acyclic chain ∧ (length chain < 4)%nat ∧ 2 ≠ 0 ∧
  getAvailableDependencies 4 chain (Some 2)
  = Some (filter (λ t, id t ≠ 2) chain).
Proof.
  split_and!; [exact chain_acyclic|simpl; lia|done|].
  apply (getAvailableDependencies_acyclic chain 4 2);
    [exact chain_acyclic|simpl; lia|done].
Defined.

(** The candidates for task A of the cyclic list. *)
Lemma getAvailableDependencies_on_cycle_witness :
  1 ≠ 0 ∧ tc (firstDepends cyclic) 1 1 ∧
  cycC ∈ cyclic ∧ id cycC ≠ 1 ∧ ¬ tc (firstDepends cyclic) 1 (id cycC) ∧
  getAvailableDependencies 9 cyclic (Some 1) = None.
Proof.
  assert (cycC ∈ cyclic) as Hin by (by repeat constructor).
  split_and!;
    [done|exact cyclic_loop|exact Hin|done|exact cyclic_sink_unreached|].
  apply (getAvailableDependencies_on_cycle cyclic 9 1 cycC);
    [done|exact cyclic_loop|exact Hin|done|exact cyclic_sink_unreached].
Defined.

(** The levels of the cyclic list. *)
Lemma levelsOf_terminates_witness :
  (length cyclic < 5)%nat ∧ is_Some (levelsOf 5 cyclic).
Proof.
  split; [simpl; lia|]. apply (levelsOf_terminates cyclic 5). simpl. lia.
Defined.

(** The levels of the chain. *)
Lemma levelsOf_levels_witness :
  levelsOf 4 chain = Some chainLevels ∧
  (∀ k, is_Some (chainLevels !! k) ↔ ∃ t, t ∈ chain ∧ id t = k) ∧
  (∀ k lv, chainLevels !! k = Some lv →
     ∃ t, List.find (λ t, bool_decide (id t = k)) chain = Some t ∧
          (dependencies t = [] → lv = 0) ∧
          (dependencies t ≠ [] → 1 ≤ lv ≤ Z.of_nat (length chain))).
Proof.
  split; [by vm_compute|].
  apply (levelsOf_levels chain 4 chainLevels). by vm_compute.
Defined.

(** Task C in the drawing of the chain. *)
Lemma node_fits_vertically_witness :
  levelsOf 4 chain = Some chainLevels ∧ taskC ∈ chain ∧
  ∃ y, positionY chainLevels (id taskC) = Some y ∧
       padding ≤ y ∧ y + nodeHeight + padding ≤ svgHeight chainLevels.
Proof.
  assert (taskC ∈ chain) as Hin by (by repeat constructor).
  split_and!; [by vm_compute|exact Hin|].
  apply (node_fits_vertically chain 4 chainLevels taskC);
    [by vm_compute|exact Hin].
Defined.



(** ** Runs with every reading of the clock *)

Lemma dependentFirst_acyclic : Acyclic dependentFirst.
Proof. apply (Acyclic_by_rank dependentFirst Z.to_nat). repeat constructor. Qed.

Lemma dependentFirst_consistent : Consistent dependentFirst.
Proof. apply Consistent_Forall. compute_done. Qed.

Lemma dependentFirst_supplied : Supplied dependentFirst.
Proof. apply Supplied_Forall. compute_done. Qed.

Lemma sources_acyclic : Acyclic sources.
Proof. apply (Acyclic_by_rank sources Z.to_nat). repeat constructor. Qed.

Lemma sources_consistent : Consistent sources.
Proof. apply Consistent_Forall. compute_done. Qed.

(** On the scheduled map of the cyclic list the trace from the sink C goes
    to A, from A to B and from B back to A, whatever the recursion depth. *)
Lemma cyclic_trace_loops fuel : findCriticalPath fuel cyclic cyclicMap = None.
Proof.
  unfold findCriticalPath.
  assert (List.filter (zeroSlack cyclicMap) (endNodes cyclic) = [3]) as ->
    by (by vm_compute).
  destruct fuel as [|fuel]; [done|]. simpl.
  assert (cyclicMap !! 3 = Some cyclicC) as -> by (by vm_compute).
  assert (List.find (zeroSlack cyclicMap) (dependencies (todo cyclicC))
          = Some 1) as -> by (by vm_compute).
  apply (tracePath_loops cyclicMap 1 2 cyclicA cyclicB); by vm_compute.
Qed.

(** The run on the cyclic list, all readings within one instant: the
    [catch] block returns the scheduled map. *)
Lemma cyclic_run fuel :
  Timed.run (standing now0) 0 (5 + fuel) cyclic = Some (cyclicMap, 3%nat).
Proof.
  apply (timed_run_caught _ _ 5); [lia|by vm_compute|].
  apply cyclic_trace_loops.
Qed.

(** C3. The list of B, which depends on A, and A is acyclic, its dependents
    lists are consistent with its dependency lists and every reference
    names a supplied task. In the run whose readings of the clock are a
    millisecond apart, B starts at the finish that A had when B was
    scheduled, and the call for A that follows stamps A at the next
    reading: in the map returned the earliest start of B is a millisecond
    before the earliest finish of A. *)
Theorem restamp_breaks_precedence :
  Acyclic dependentFirst ∧ Consistent dependentFirst ∧
  Supplied dependentFirst ∧
  plainB ∈ dependentFirst ∧ id plainA ∈ dependencies plainB ∧
  (∀ fuel, Timed.calculateCriticalPath (ticking now0) 0 (3 + fuel)
             dependentFirst = Some restampedMap) ∧
  restampedMap !! id plainB = Some restampedB ∧
  restampedMap !! id plainA = Some restampedA ∧
  ∃ es ef, earliestStartDate restampedB = Some es ∧
           earliestFinishDate restampedA = Some ef ∧ es < ef.
Proof.
  split_and!;
    [exact dependentFirst_acyclic|exact dependentFirst_consistent|
     exact dependentFirst_supplied|by repeat constructor|
     by repeat constructor| |by vm_compute|by vm_compute|].
  - intros fuel. unfold Timed.calculateCriticalPath.
    rewrite (timed_run_mono (ticking now0) 0 3 (3 + fuel) dependentFirst
               (<[1 := mkScheduled plainA (Some 1700000000001)
                         (Some 1700086400001) (Some 1700000000000)
                         (Some 1700086400000) 1 [] false 0%Q]>
                  (<[2 := mkScheduled plainB (Some 1700086400000)
                            (Some 1700172800000) (Some 1700086400000)
                            (Some 1700172800000) 1 [] false 0%Q]> ∅))
               3 [1; 2]);
      [by vm_compute|lia|by vm_compute|by vm_compute].
  - exists 1700086400000, 1700086400001. by split_and!.
Qed.

(** C4. The cyclic list has the sink C, whose dependents list is empty and
    whose slack is 0 in the map returned, and yet no task of that map is
    marked critical and every [criticalPath] is empty: the trace from C
    never completes, and the map comes back as the two passes left it. *)
Theorem cyclic_trace_unmarked :
  cycC ∈ cyclic ∧ dependents cycC = [] ∧
  (∀ fuel, Timed.calculateCriticalPath (standing now0) 0 (5 + fuel) cyclic
           = Some cyclicMap) ∧
  zeroSlack cyclicMap (id cycC) = true ∧
  (∀ fuel, findCriticalPath fuel cyclic cyclicMap = None) ∧
  map_Forall (λ _ e, isCritical e = false ∧ criticalPath e = []) cyclicMap.
Proof.
  split_and!; [by repeat constructor|done| |by vm_compute|
               apply cyclic_trace_loops|compute_done].
  intros fuel. unfold Timed.calculateCriticalPath. by rewrite cyclic_run.
Qed.

(** ** Inputs on which a claim fails, continued *)

(** C6, counterexample. On the cyclic list the run returns; A and B, the
    tasks of the cycle, come back with all four dates set; the trace from
    the sink C enters the cycle and completes at no recursion depth. *)
Lemma cyclic_run_counterexample :
  depends cyclic 1 2 ∧ depends cyclic 2 1 ∧
  (∀ fuel, Timed.calculateCriticalPath (standing now0) 0 (5 + fuel) cyclic
           = Some cyclicMap) ∧
  cyclicMap !! 1 = Some cyclicA ∧ allSet cyclicA ∧
  cyclicMap !! 2 = Some cyclicB ∧ allSet cyclicB ∧
  (∀ fuel, findCriticalPath fuel cyclic cyclicMap = None).
Proof.
  assert (∀ e, is_Some (earliestStartDate e) → is_Some (earliestFinishDate e) →
               is_Some (latestStartDate e) → is_Some (latestFinishDate e) →
               allSet e) as Hset by (by intros e ? ? ? ?).
  split_and!; [| | |by vm_compute|by apply Hset|by vm_compute|
               by apply Hset|apply cyclic_trace_loops].
  - exists cycA. split_and!; [|done|]; by repeat constructor.
  - exists cycB. split_and!; [|done|]; by repeat constructor.
  - intros fuel. unfold Timed.calculateCriticalPath. by rewrite cyclic_run.
Qed.

(** C7, counterexample. Two tasks without dependencies in a run whose
    readings of the clock are a millisecond apart: each is stamped at a
    reading of its own, and no instant is the earliest start of both. *)
Lemma sources_stamped_apart :
  Acyclic sources ∧ Consistent sources ∧
  Timed.calculateCriticalPath (ticking now0) 0 3 sources = Some tickedMap ∧
  tickedMap !! 1 = Some tickedA ∧ dependencies (todo tickedA) = [] ∧
  tickedMap !! 2 = Some tickedB ∧ dependencies (todo tickedB) = [] ∧
  earliestStartDate tickedA = Some now0 ∧
  earliestStartDate tickedB = Some (now0 + 1) ∧
  ¬ ∃ reference, ∀ k e, tickedMap !! k = Some e →
                        dependencies (todo e) = [] →
                        earliestStartDate e = Some reference.
Proof.
  split_and!; [exact sources_acyclic|exact sources_consistent|
               by vm_compute..|].
  intros (reference & Href).
  pose proof (Href 1 tickedA ltac:(by vm_compute) eq_refl) as H1.
  pose proof (Href 2 tickedB ltac:(by vm_compute) eq_refl) as H2.
  simpl in H1, H2. congruence.
Qed.


(** ** Instances of the theorems on runs with every reading *)

(** The cyclic list. *)
Lemma run_returns_scheduled_witness :
  (length cyclic < 5)%nat ∧
  ∃ m2 m r,
    Timed.schedule (standing now0) 0 5 cyclic = Some (m2, r) ∧
    Timed.calculateCriticalPath (standing now0) 0 5 cyclic = Some m ∧
    ∀ t, t ∈ cyclic → ∃ e, m !! id t = Some e ∧ allSet e.
Proof.
  split; [simpl; lia|].
  apply (run_returns_scheduled (standing now0) 0 5 cyclic). simpl; lia.
Defined.

(** Task B of the two independent tasks, stamped at the second reading;
    the project end date starts from the third. *)
Lemma boundary_readings_witness :
  Timed.run (ticking now0) 0 3 sources = Some (tickedMap, 3%nat) ∧
  tickedMap !! 2 = Some tickedB ∧
  dependencies (todo tickedB) = [] ∧
  Consistent sources ∧ dependents (todo tickedB) = [] ∧
  (∃ i, (i < 3)%nat ∧ earliestStartDate tickedB = Some (ticking now0 i)) ∧
  (∃ i, 3%nat = S i ∧
        latestFinishDate tickedB
        = Some (default (projectEndDate (ticking now0 i) sources tickedMap)
                  (dueDate (todo tickedB)))).
Proof.
  split_and!; [by vm_compute|by vm_compute|done|exact sources_consistent|
               done| |].
  - apply (boundary_readings (ticking now0) 0 3 sources tickedMap 3 2 tickedB);
      by vm_compute.
  - apply (boundary_readings (ticking now0) 0 3 sources tickedMap 3 2 tickedB);
      [by vm_compute|by vm_compute|exact sources_consistent|done].
Defined.



(** Task B of the chain starts when A, its only dependency, finishes. *)
Lemma earliest_start_tight_witness :
  Timed.run (standing now0) 0 4 chain = Some (chainMap, 4%nat) ∧
  (∀ i, (i < 4)%nat → standing now0 i = now0) ∧
  Acyclic chain ∧ chainMap !! 2 = Some chainB ∧
  dependencies (todo chainB) ≠ [] ∧
  ∃ es, earliestStartDate chainB = Some es ∧ 0 ≤ es ∧
    (∀ d ed ef, d ∈ dependencies (todo chainB) → chainMap !! d = Some ed →
                earliestFinishDate ed = Some ef → ef ≤ es) ∧
    (es = 0 ∨
     ∃ d ed, d ∈ dependencies (todo chainB) ∧ chainMap !! d = Some ed ∧
             earliestFinishDate ed = Some es).
Proof.
  split_and!; [by vm_compute|done|exact chain_acyclic|by vm_compute|done|].
  apply (earliest_start_tight (standing now0) now0 0 4 chain chainMap 4 2
           chainB);
    [by vm_compute|done|exact chain_acyclic|by vm_compute|done].
Defined.

(** In New York, from the reference time to the due date stored for
    2023-11-19, both after the change of offset. *)
Lemma calculateDuration_days_witness :
  offsetAtLocal newYork
    (Zoned.Day (Zoned.LocalTime newYork (storedDueDate 19680)) * msPerDay)
  = offsetAtLocal newYork (Zoned.Day (Zoned.LocalTime newYork now0) * msPerDay) ∧
  Zoned.calculateDuration newYork now0 (Some (storedDueDate 19680))
  = Z.max 1 (Zoned.Day (Zoned.LocalTime newYork (storedDueDate 19680))
             - Zoned.Day (Zoned.LocalTime newYork now0)).
Proof.
  split; [by vm_compute|].
  apply (calculateDuration_days newYork now0 (storedDueDate 19680)).
  by vm_compute.
Defined.

(** Local time an hour ahead of UTC, and the day 2023-11-19. *)
Lemma storedDueDate_duration_witness :
  - msPerDay < offsetAtInstant (fixedOffset 3600000) (storedDueDate 19680)
    < msPerDay ∧
  offsetAtLocal (fixedOffset 3600000)
    (Zoned.Day (Zoned.LocalTime (fixedOffset 3600000) (storedDueDate 19680))
     * msPerDay)
  = offsetAtLocal (fixedOffset 3600000)
      (Zoned.Day (Zoned.LocalTime (fixedOffset 3600000) now0) * msPerDay) ∧
  Zoned.calculateDuration (fixedOffset 3600000) now0
    (Some (storedDueDate 19680))
  = Z.max 1 (19680
             + (if bool_decide
                     (0 < offsetAtInstant (fixedOffset 3600000)
                            (storedDueDate 19680))
                then 1 else 0)
             - Zoned.Day (Zoned.LocalTime (fixedOffset 3600000) now0)).
Proof.
  split_and!; [by vm_compute|by vm_compute|done|].
  apply (storedDueDate_duration (fixedOffset 3600000) now0 19680);
    [by vm_compute|done].
Defined.
